(** * The distributed kernels of the dg library: reductions, diagonal
      weightings and the block matrix with ghost-cell exchange

    A shallow embedding of

      - inc/dg/mpi_backend/mpi_precon_blas.h  (doDot, doSymv on MPIPreconTag)
      - inc/dg/backend/mpi_matrix.h           (BoundaryTerms, MPI_Matrix::symv)
      - inc/dg/backend/std_matrix_blas.cuh    (doDot on std::vector<Vector>)
      - the std::vector section of the blas1 dispatch (doDot_superacc)
      - inc/dg/backend/mpi_matrix.h           (update_boundaryX, update_boundaryY)
      - inc/dg/backend/std_matrix_blas.cuh    (doSymv on std::vector<Vector>)
      - the elliptic operators                (inverse of a boundary condition
                                               and of a direction)

    Conventions of the embedding.

      - [unsigned] is a 32-bit integer: a value of that type is a [Z] in
        [0, 2^32) and every arithmetic expression of that type is wrapped
        with [u32].  Loop counters never wrap: a counter is compared with
        its bound before it is incremented.
      - a [std::vector] is a list; element access outside the vector is
        undefined behaviour and is an outcome of its own.  The vectors hold
        fewer than 2^32 elements (their sizes are compared with 32-bit
        counters).
      - the element type [double] is a parameter: the kernels are written
        once over any type with the operations they use, and are run on
        binary64 numbers or on integers. *)

From Stdlib Require Import ZArith List Bool Lia PrimFloat.
From stdpp Require Import base list functions.

Local Open Scope Z_scope.

(** ** The element type *)

(** The operations the kernels apply to a [value_type]: the literals [0]
    and [1], [+], [*] and the comparison [==]. *)
Class Scalar (R : Type) : Type := {
  zero : R;
  one : R;
  add : R → R → R;
  mul : R → R → R;
  eqb : R → R → bool
}.

(** Arithmetic without rounding: the laws of the literals that the
    shortcuts of the scaled product rely on. *)
Class ExactScalar (R : Type) `{Scalar R} : Prop := {
  eqb_eq : ∀ a b : R, eqb a b = true ↔ a = b;
  mul_zero_l : ∀ a : R, mul zero a = zero;
  add_zero_l : ∀ a : R, add zero a = a;
  mul_one_l : ∀ a : R, mul one a = a
}.

#[export] Instance Z_scalar : Scalar Z :=
  {| zero := 0; one := 1; add := Z.add; mul := Z.mul; eqb := Z.eqb |}.

(** IEEE 754 binary64, the [double] of the source. *)
Definition double_scalar : Scalar float :=
  {| zero := 0%float; one := 1%float;
     add := PrimFloat.add; mul := PrimFloat.mul; eqb := PrimFloat.eqb |}.

(** ** Outcomes of a call *)

Inductive outcome (A : Type) : Type :=
| Returns (a : A)
| AssertionFailed   (* an [assert] of a DG_DEBUG build aborted the program *)
| Undefined.        (* undefined behaviour: an access outside a vector,
                       a value-returning function left without [return] *)
Arguments Returns {A} a.
Arguments AssertionFailed {A}.
Arguments Undefined {A}.

#[export] Instance outcome_bind : MBind outcome := λ A B f o,
  match o with
  | Returns a => f a
  | AssertionFailed => AssertionFailed
  | Undefined => Undefined
  end.

#[export] Instance outcome_ret : MRet outcome := λ A a, Returns a.

(** [assert( b )]: compiled only when DG_DEBUG is defined. *)
Definition assert (DG_DEBUG : bool) (b : bool) : outcome unit :=
  if DG_DEBUG && negb b then AssertionFailed else Returns tt.

(** ** Machine integers and vectors *)

Definition u32 (z : Z) : Z := z mod 2 ^ 32.

Definition size {A} (v : list A) : Z := Z.of_nat (length v).

(** [v.empty()] *)
Definition is_empty {A} (v : list A) : bool :=
  match v with [] => true | _ => false end.

(** [v[i]] as a read. *)
Definition load {A} (v : list A) (i : Z) : outcome A :=
  if (0 <=? i) && (i <? size v)
  then match v !! Z.to_nat i with Some a => Returns a | None => Undefined end
  else Undefined.

(** [v[i] = a]. *)
Definition store {A} (v : list A) (i : Z) (a : A) : outcome (list A) :=
  if (0 <=? i) && (i <? size v)
  then Returns (<[Z.to_nat i := a]> v)
  else Undefined.

(** ** Loops *)

Fixpoint foldM {S A} (body : A → S → outcome S) (l : list A) (s : S)
  : outcome S :=
  match l with
  | [] => Returns s
  | a :: l' => s' ← body a s; foldM body l' s'
  end.

(** The values [lo, lo+1, ..., hi-1] of a counter. *)
Definition range (lo hi : Z) : list Z :=
  map (fun k => lo + Z.of_nat k) (seq 0 (Z.to_nat (hi - lo))).

(** [for( unsigned i = lo; i < hi; i++) body] *)
Definition for_loop {S} (lo hi : Z) (body : Z → S → outcome S) (s : S)
  : outcome S :=
  foldM body (range lo hi) s.

(** ** Communication *)

(** A communicator handle: the predefined group of all the ranks of the
    job, or a group made by the caller (a Cartesian grid of ranks). *)
Inductive MPI_Comm : Type :=
| MPI_COMM_WORLD
| Comm_handle (id : positive).

(** The MPI calls a kernel makes, with the communicator each is made on. *)
Inductive event : Type :=
| Comm_rank (comm : MPI_Comm)   (* MPI_Comm_rank *)
| Exchange_col (comm : MPI_Comm)   (* MPI_Vector::x_col: ghost columns *)
| Exchange_row (comm : MPI_Comm)   (* MPI_Vector::x_row: ghost rows *)
| Allreduce (comm : MPI_Comm).   (* MPI_Allreduce *)

(** A call that communicates: the MPI calls it made, in order, and its
    outcome.  The calls made before a failure stay recorded. *)
Record comp (A : Type) : Type := Comp {
  events : list event;
  result : outcome A
}.
Arguments Comp {A} events result.
Arguments events {A} c.
Arguments result {A} c.

#[export] Instance comp_bind : MBind comp := λ A B f c,
  match result c with
  | Returns a => Comp (events c ++ events (f a)) (result (f a))
  | AssertionFailed => Comp (events c) AssertionFailed
  | Undefined => Comp (events c) Undefined
  end.

#[export] Instance comp_ret : MRet comp := λ A a, Comp [] (Returns a).

Definition emit (e : event) : comp unit := Comp [e] (Returns tt).

Definition lift {A} (o : outcome A) : comp A := Comp [] o.

(** ** The distributed vector and the diagonal weighting *)

(** The members of MPI_Vector that the kernels read: the number of
    polynomial coefficients [n], the number of values per cell [stride],
    the numbers of cells with the ghost layers [Nx], [Ny], [Nz], and the
    values [data]. *)
Record MPI_Vector (R : Type) : Type := {
  n : Z;
  stride : Z;
  Nx : Z;
  Ny : Z;
  Nz : Z;
  data : list R
}.
Arguments n {R} m.
Arguments stride {R} m.
Arguments Nx {R} m.
Arguments Ny {R} m.
Arguments Nz {R} m.
Arguments data {R} m.

Definition set_data {R} (v : MPI_Vector R) (d : list R) : MPI_Vector R :=
  {| n := n v; stride := stride v; Nx := Nx v; Ny := Ny v; Nz := Nz v;
     data := d |}.

(** MPI_Precon: the member [data] of a diagonal weighting, one value per
    coefficient of a cell. *)
Record MPI_Precon (R : Type) : Type := {
  precon_data : list R
}.
Arguments precon_data {R} m.

(** ** mpi_precon_blas.h *)

Module Precon.
Section PreconBlas.
Context {R : Type} `{Scalar R}.
Variable DG_DEBUG : bool.

(** The position of coefficient [l] of cell [(k, i, j)] in [x.data]. *)
Definition cell_index (x : MPI_Vector R) (k i j l : Z) : Z :=
  u32 (((k * Ny x + i) * Nx x + j) * stride x + l).

(** The loops of doDot: the partial sum [temp] of one rank. *)
Definition doDot_temp (x : MPI_Vector R) (m : MPI_Precon R)
    (y : MPI_Vector R) : outcome R :=
  assert DG_DEBUG (size (data x) =? size (data y));;
  assert DG_DEBUG (stride x =? size (precon_data m));;
  for_loop 0 (Nz x) (λ k,
    for_loop 1 (u32 (Ny x - 1)) (λ i,
      for_loop 1 (u32 (Nx x - 1)) (λ j,
        for_loop 0 (stride x) (λ l temp,
          xv ← load (data x) (cell_index x k i j l);
          mv ← load (precon_data m) l;
          yv ← load (data y) (cell_index x k i j l);
          mret (add temp (mul (mul xv mv) yv)))))) zero.

(** MPI_Allreduce with MPI_SUM: every rank of the group contributes one
    value and receives their sum, combined here in rank order. *)
Definition MPI_SUM (contributions : list R) : outcome R :=
  match contributions with
  | [] => Undefined
  | t :: ts => Returns (fold_left add ts t)
  end.

(** doDot( x, m, y) as the ranks of the job run it together: rank [r]
    holds the triple number [r].  The partial sums are merged on
    MPI_COMM_WORLD and every rank returns [sum]. *)
Definition doDot (ranks : list (MPI_Vector R * MPI_Precon R * MPI_Vector R))
  : comp R :=
  temps ← lift (mapM (λ '(x, m, y), doDot_temp x m y) ranks);
  emit (Allreduce MPI_COMM_WORLD);;
  lift (MPI_SUM temps).

(** doDot( m, x): the norm form.  It calls the three-argument form and
    ends without a [return] statement. *)
Definition doDot_norm (ranks : list (MPI_Precon R * MPI_Vector R))
  : comp R :=
  doDot (map (λ '(m, x), (x, m, x)) ranks);;
  lift Undefined.

(** *** Objects and references

    The vector arguments of doSymv are references, and one call site passes
    the same vector twice.  Vectors are therefore kept in a table of objects
    and named by their address. *)

#[local] Abbreviation objects := (nat → MPI_Vector R) (only parsing).

(** [y[i] = a] for the vector at address [y]. *)
Definition assign (st : objects) (y : nat) (i : Z) (a : R) : outcome objects :=
  d ← store (data (st y)) i a;
  mret (<[y := set_data (st y) d]> st).

(** [i % stride] on unsigned operands. *)
Definition remainder (i stride : Z) : outcome Z :=
  if stride =? 0 then Undefined else Returns (i mod stride).

(** Modelled from the spec: dg::blas1::detail::doAxpby( alpha, x, beta, y,
    MPIVectorTag) is not part of the sources at hand; following the
    contract of [axpby] it computes y <- alpha x + beta y element by
    element. *)
Definition doAxpby (alpha : R) (x : nat) (beta : R) (y : nat) (st : objects)
  : outcome objects :=
  for_loop 0 (u32 (size (data (st x)))) (λ i st,
    xv ← load (data (st x)) i;
    yv ← load (data (st y)) i;
    assign st y i (add (mul alpha xv) (mul beta yv))) st.

(** doSymv( alpha, m, x, beta, y): y <- alpha m x + beta y. *)
Definition doSymv_scaled (alpha : R) (m : MPI_Precon R) (x : nat) (beta : R)
    (y : nat) (st : objects) : outcome objects :=
  assert DG_DEBUG (size (data (st x)) =? size (data (st y)));;
  if eqb alpha zero then
    if eqb beta one then mret st
    else doAxpby zero x beta y st
  else
    let stride_ := u32 (size (precon_data m)) in
    let size_ := u32 (size (data (st x))) in
    assert DG_DEBUG (1 <=? stride_);;
    assert DG_DEBUG (size (data (st x)) =? size (data (st y)));;
    assert DG_DEBUG (size_ mod stride_ =? 0);;
    assert DG_DEBUG (stride (st x) =? stride_);;
    for_loop 0 size_ (λ i st,
      r ← remainder i stride_;
      mv ← load (precon_data m) r;
      xv ← load (data (st x)) i;
      yv ← load (data (st y)) i;
      assign st y i (add (mul (mul alpha mv) xv) (mul beta yv))) st.

(** doSymv( m, x, y): y <- m x. *)
Definition doSymv (m : MPI_Precon R) (x y : nat) (st : objects)
  : outcome objects :=
  let stride_ := u32 (size (precon_data m)) in
  let size_ := u32 (size (data (st x))) in
  assert DG_DEBUG (1 <=? stride_);;
  assert DG_DEBUG (size (data (st x)) =? size (data (st y)));;
  assert DG_DEBUG (size_ mod stride_ =? 0);;
  assert DG_DEBUG (stride (st x) =? stride_);;
  for_loop 0 size_ (λ i st,
    r ← remainder i stride_;
    mv ← load (precon_data m) r;
    xv ← load (data (st x)) i;
    assign st y i (mul mv xv)) st.

(** doGemv( m, x, y) *)
Definition doGemv (m : MPI_Precon R) (x y : nat) (st : objects)
  : outcome objects :=
  doSymv m x y st.

End PreconBlas.
End Precon.

(** ** mpi_matrix.h *)

(** The boundary conditions of dg. *)
Inductive bc : Type := PER | DIR | DIR_NEU | NEU_DIR | NEU.

(** The table of boundary terms: block [m] is [data_[m]].  applyX writes
    the cells of column [row_[m] + 1] from the cells of column
    [col_[m] + 1]; applyY does the same with rows. *)
Record BoundaryTerms (R : Type) : Type := {
  data_ : list (list R);
  row_ : list Z;
  col_ : list Z
}.
Arguments data_ {R} b.
Arguments row_ {R} b.
Arguments col_ {R} b.

Record MPI_Matrix (R : Type) : Type := {
  p_ : MPI_Precon R;
  dataY_ : list (list R);
  dataX_ : list (list R);
  offset_ : list Z;
  xterm_ : BoundaryTerms R;
  yterm_ : BoundaryTerms R;
  bcx_ : bc;
  bcy_ : bc;
  comm_ : MPI_Comm
}.
Arguments p_ {R} m.
Arguments dataY_ {R} m.
Arguments dataX_ {R} m.
Arguments offset_ {R} m.
Arguments xterm_ {R} m.
Arguments yterm_ {R} m.
Arguments bcx_ {R} m.
Arguments bcy_ {R} m.
Arguments comm_ {R} m.

Section Matrix.
Context {R : Type} `{Scalar R}.
Variable DG_DEBUG : bool.

(** The ghost-cell exchanges of MPI_Vector: the vector after it has
    received the border cells of its neighbours in the group [comm]. *)
Variable x_col : MPI_Comm → MPI_Vector R → MPI_Vector R.
Variable x_row : MPI_Comm → MPI_Vector R → MPI_Vector R.

(** MPI_Matrix( bcx, comm, number) *)
Definition MPI_Matrix_x (bcx : bc) (comm : MPI_Comm) (number : nat)
  : MPI_Matrix R :=
  {| p_ := {| precon_data := [] |};
     dataY_ := replicate number []; dataX_ := replicate number [];
     offset_ := replicate number 0;
     xterm_ := {| data_ := []; row_ := []; col_ := [] |};
     yterm_ := {| data_ := []; row_ := []; col_ := [] |};
     bcx_ := bcx; bcy_ := PER; comm_ := comm |}.

(** MPI_Matrix( bcx, bcy, comm, number) *)
Definition MPI_Matrix_xy (bcx bcy : bc) (comm : MPI_Comm) (number : nat)
  : MPI_Matrix R :=
  {| p_ := {| precon_data := [] |};
     dataY_ := replicate number []; dataX_ := replicate number [];
     offset_ := replicate number 0;
     xterm_ := {| data_ := []; row_ := []; col_ := [] |};
     yterm_ := {| data_ := []; row_ := []; col_ := [] |};
     bcx_ := bcx; bcy_ := bcy; comm_ := comm |}.

Definition communicator (M : MPI_Matrix R) : MPI_Comm := comm_ M.

(** The position of coefficient [(k, l)] of cell [(s, i, j)]: plane [s],
    cell row [i], coefficient row [k], cell column [j], coefficient
    column [l]. *)
Definition point (rows cols n s i k j l : Z) : Z :=
  (((s * rows + i) * n + k) * cols + j) * n + l.

(** BoundaryTerms::applyX *)
Definition applyX (b : BoundaryTerms R) (x y : MPI_Vector R)
  : outcome (MPI_Vector R) :=
  if is_empty (data_ b) then mret y
  else
    let rows := Ny x in
    let cols := Nx x in
    let n := n x in
    yd ← for_loop 0 (size (data_ b)) (λ m,
           for_loop 0 (Nz x) (λ s,
           for_loop 1 (u32 (rows - 1)) (λ i,
           for_loop 0 n (λ k,
           for_loop 0 n (λ l,
           for_loop 0 n (λ q yd,
             r ← load (row_ b) m;
             store yd (u32 (point rows cols n s i k (r + 1) l)) zero))))))
         (data y);
    yd ← for_loop 0 (size (data_ b)) (λ m,
           for_loop 0 (Nz x) (λ s,
           for_loop 1 (u32 (rows - 1)) (λ i,
           for_loop 0 n (λ k,
           for_loop 0 n (λ l,
           for_loop 0 n (λ q yd,
             r ← load (row_ b) m;
             c ← load (col_ b) m;
             block ← load (data_ b) m;
             a ← load block (u32 (l * n + q));
             xv ← load (data x) (u32 (point rows cols n s i k (c + 1) q));
             yv ← load yd (u32 (point rows cols n s i k (r + 1) l));
             store yd (u32 (point rows cols n s i k (r + 1) l))
                   (add yv (mul a xv))))))))
         yd;
    mret (set_data y yd).

(** BoundaryTerms::applyY *)
Definition applyY (b : BoundaryTerms R) (x y : MPI_Vector R)
  : outcome (MPI_Vector R) :=
  if is_empty (data_ b) then mret y
  else
    let rows := Ny x in
    let cols := Nx x in
    let n := n x in
    yd ← for_loop 0 (size (data_ b)) (λ m,
           for_loop 0 (Nz x) (λ s,
           for_loop 0 n (λ k,
           for_loop 1 (u32 (cols - 1)) (λ j,
           for_loop 0 n (λ l,
           for_loop 0 n (λ p yd,
             r ← load (row_ b) m;
             store yd (u32 (point rows cols n s (r + 1) k j l)) zero))))))
         (data y);
    yd ← for_loop 0 (size (data_ b)) (λ m,
           for_loop 0 (Nz x) (λ s,
           for_loop 0 n (λ k,
           for_loop 1 (u32 (cols - 1)) (λ j,
           for_loop 0 n (λ l,
           for_loop 0 n (λ p yd,
             r ← load (row_ b) m;
             c ← load (col_ b) m;
             block ← load (data_ b) m;
             a ← load block (u32 (k * n + p));
             xv ← load (data x) (u32 (point rows cols n s (c + 1) p j l));
             yv ← load yd (u32 (point rows cols n s (r + 1) k j l));
             store yd (u32 (point rows cols n s (r + 1) k j l))
                   (add yv (mul a xv))))))))
         yd;
    mret (set_data y yd).

(** The first loop of symv: which directions have coefficients. *)
Definition symv_update (M : MPI_Matrix R) : outcome (bool * bool) :=
  for_loop 0 (size (dataX_ M)) (λ k '(updateX, updateY),
    dY ← load (dataY_ M) k;
    dX ← load (dataX_ M) k;
    mret (updateX || negb (is_empty dX), updateY || negb (is_empty dY)))
  (false, false).

(** The exchanges of symv. *)
Definition symv_exchange (M : MPI_Matrix R) (update : bool * bool)
    (x : MPI_Vector R) : comp (MPI_Vector R) :=
  x ← (if update.1 then emit (Exchange_col (comm_ M));; mret (x_col (comm_ M) x)
       else mret x);
  if update.2 then emit (Exchange_row (comm_ M));; mret (x_row (comm_ M) x)
  else mret x.

(** The blocks of symv applied to the cells inside the ghost layers. *)
Definition symv_blocks (M : MPI_Matrix R) (x : MPI_Vector R) (yd : list R)
  : outcome (list R) :=
  let rows := Ny x in
  let cols := Nx x in
  let n := n x in
  for_loop 0 (size (dataX_ M)) (λ m yd,
    dX ← load (dataX_ M) m;
    yd ← (if negb (is_empty dX) then
            for_loop 0 (Nz x) (λ s,
            for_loop 1 (u32 (rows - 1)) (λ i,
            for_loop 0 n (λ k,
            for_loop 1 (u32 (cols - 1)) (λ j,
            for_loop 0 n (λ l,
            for_loop 0 n (λ q yd,
              dX ← load (dataX_ M) m;
              a ← load dX (u32 (l * n + q));
              o ← load (offset_ M) m;
              xv ← load (data x) (u32 (point rows cols n s i k j q + o));
              yv ← load yd (u32 (point rows cols n s i k j l));
              store yd (u32 (point rows cols n s i k j l))
                    (add yv (mul a xv)))))))) yd
          else mret yd);
    dY ← load (dataY_ M) m;
    if negb (is_empty dY) then
      for_loop 0 (Nz x) (λ s,
      for_loop 1 (u32 (rows - 1)) (λ i,
      for_loop 0 n (λ k,
      for_loop 1 (u32 (cols - 1)) (λ j,
      for_loop 0 n (λ l,
      for_loop 0 n (λ p yd,
        dY ← load (dataY_ M) m;
        a ← load dY (u32 (k * n + p));
        o ← load (offset_ M) m;
        xv ← load (data x) (u32 (point rows cols n s i p j l + o));
        yv ← load yd (u32 (point rows cols n s i k j l));
        store yd (u32 (point rows cols n s i k j l))
              (add yv (mul a xv)))))))) yd
    else mret yd) yd.

(** symv up to the boundary rows: what it does before it looks at the
    preconditioner. *)
Definition symv_unweighted (M : MPI_Matrix R) (x y : MPI_Vector R)
  : comp (MPI_Vector R * MPI_Vector R) :=
  emit (Comm_rank (comm_ M));;
  update ← lift (symv_update M);
  x ← symv_exchange M update x;
  lift (assert DG_DEBUG (size (data x) =? size (data y)));;
  yd ← lift (for_loop 0 (size (data y)) (λ i yd, store yd i zero) (data y));
  yd ← lift (symv_blocks M x yd);
  y ← lift (applyX (xterm_ M) x (set_data y yd));
  y ← lift (applyY (yterm_ M) x y);
  mret (x, y).

(** The last statement of symv: doSymv( p_, y, y), with [y] passed for
    both vector arguments. *)
Definition symv_precond (M : MPI_Matrix R) (y : MPI_Vector R)
  : outcome (MPI_Vector R) :=
  if negb (is_empty (precon_data (p_ M))) then
    st ← Precon.doSymv DG_DEBUG (p_ M) 0%nat 0%nat (λ _, y);
    mret (st 0%nat)
  else mret y.

(** MPI_Matrix::symv( x, y): the vectors [x] and [y] after the call. *)
Definition symv (M : MPI_Matrix R) (x y : MPI_Vector R)
  : comp (MPI_Vector R * MPI_Vector R) :=
  '(x, y) ← symv_unweighted M x y;
  y ← lift (symv_precond M y);
  mret (x, y).

End Matrix.

(** ** std_matrix_blas.cuh: reductions over a std::vector of vectors *)

Module StdVector.
Section StdMatrixBlas.
Variable DG_DEBUG : bool.
(** The component vectors, the weights, the exblas accumulator with its
    default value, its merge [Accumulate] and its rounding [Round], and the
    reduction of one component. *)
Variables Vector Matrix Superaccumulator value_type : Type.
Variable default : Superaccumulator.
Variable Accumulate : Superaccumulator → Superaccumulator → Superaccumulator.
Variable Round : Superaccumulator → value_type.
Variable doDot_dispatch : Vector → Matrix → Vector → outcome Superaccumulator.

(** doDot( x, m, y) *)
Definition doDot (x : list Vector) (m : Matrix) (y : list Vector)
  : outcome value_type :=
  assert DG_DEBUG (size x =? size y);;
  acc ← for_loop 0 (size x) (λ i acc,
          xi ← load x i;
          yi ← load y i;
          a ← doDot_dispatch xi m yi;
          store acc i a) (replicate (length x) default);
  acc ← for_loop 1 (size x) (λ i acc,
          a0 ← load acc 0;
          ai ← load acc i;
          store acc 0 (Accumulate a0 ai)) acc;
  a0 ← load acc 0;
  mret (Round a0).

(** doDot( m, y) *)
Definition doDot_norm (m : Matrix) (y : list Vector) : outcome value_type :=
  doDot y m y.

End StdMatrixBlas.
End StdVector.

(** ** The std::vector section of the blas1 dispatch *)

Module Blas1.
Section VectorVector.
Variable DG_DEBUG : bool.
(** The component vectors, their own doDot_superacc, and from exblas the
    bounds [IMIN], [IMAX] of the accumulator, [Normalize] and [Round]. *)
Variables Vector Vector2 value_type : Type.
Variable doDot_superacc_inner : Vector → Vector2 → outcome (list Z).
Variables IMIN IMAX : Z.
Variable Normalize : list Z → Z → Z → list Z.
Variable Round : list Z → value_type.

(** [a + b] on int64_t: an overflow is undefined. *)
Definition int64_add (a b : Z) : outcome Z :=
  if (- 2 ^ 63 <=? a + b) && (a + b <? 2 ^ 63) then Returns (a + b)
  else Undefined.

(** doDot_superacc( x1, x2, VectorVectorTag) *)
Definition doDot_superacc (x1 : list Vector) (x2 : list Vector2)
  : outcome (list Z) :=
  assert DG_DEBUG (negb (is_empty x1));;
  assert DG_DEBUG (size x1 =? size x2);;
  acc ← for_loop 0 (size x1) (λ i acc,
          a ← load x1 i;
          b ← load x2 i;
          r ← doDot_superacc_inner a b;
          store acc i r) (replicate (length x1) []);
  acc ← for_loop 1 (size x1) (λ i acc,
          a0 ← load acc 0;
          acc ← store acc 0 (Normalize a0 IMIN IMAX);
          ai ← load acc i;
          acc ← store acc i (Normalize ai IMIN IMAX);
          for_loop IMIN IMAX (λ k acc,
            a0 ← load acc 0;
            ai ← load acc i;
            v0 ← load a0 k;
            vi ← load ai k;
            v ← int64_add v0 vi;
            a0 ← store a0 k v;
            store acc 0 a0) acc) acc;
  load acc 0.

(** doDot( x, y, VectorVectorTag) *)
Definition doDot (x : list Vector) (y : list Vector2) : outcome value_type :=
  acc ← doDot_superacc x y;
  mret (Round acc).

End VectorVector.
End Blas1.

(** ** mpi_matrix.h: the ghost cells at the edges of the domain *)

(** What MPI_Cartdim_get and MPI_Cart_get report for a communicator: one
    entry of type int per dimension of the grid of ranks. *)
Record cart_topology : Type := {
  dims : list Z;
  periods : list Z;
  coords : list Z
}.

(** The queries of the grid of ranks. *)
Inductive cart_query : Type :=
| Cartdim_get (comm : MPI_Comm)
| Cart_get (comm : MPI_Comm).

(** [a - b] on int: an overflow is undefined. *)
Definition int_sub (a b : Z) : outcome Z :=
  if (- 2 ^ 31 <=? a - b) && (a - b <? 2 ^ 31) then Returns (a - b)
  else Undefined.

(** [b == PER] *)
Definition is_PER (b : bc) : bool :=
  match b with PER => true | _ => false end.

Section MatrixEdges.
Context {R : Type} `{Scalar R}.

(** The exchanges of MPI_Vector, the grid of ranks behind a communicator,
    and the literals [1e6] and [1e5] in the element type. *)
Variable x_col : MPI_Comm → MPI_Vector R → MPI_Vector R.
Variable x_row : MPI_Comm → MPI_Vector R → MPI_Vector R.
Variable MPI_Cart : MPI_Comm → cart_topology.
Variable lit_1e6 : R.
Variable lit_1e5 : R.

(** The loops of update_boundaryX that fill column [col] of the cells. *)
Definition fill_col (rows cols n col : Z) (value : R) (vd : list R)
  : outcome (list R) :=
  for_loop 0 rows (λ i,
    for_loop 0 n (λ j vd,
      store vd (u32 ((i * cols + col) * n + j)) value)) vd.

(** MPI_Matrix::update_boundaryX( v): the MPI calls and queries it makes
    and the vector after the call. *)
Definition update_boundaryX (M : MPI_Matrix R) (v : MPI_Vector R)
  : list (event + cart_query) * outcome (MPI_Vector R) :=
  let v := x_col (comm_ M) v in
  if is_PER (bcx_ M) then ([inl (Exchange_col (comm_ M))], Returns v)
  else
    ([inl (Exchange_col (comm_ M)); inr (Cartdim_get (comm_ M));
      inr (Cart_get (comm_ M))],
     let rows := u32 (Nz v * Ny v * n v) in
     let cols := Nx v in
     let n := n v in
     c ← load (coords (MPI_Cart (comm_ M))) 0;
     d ← load (dims (MPI_Cart (comm_ M))) 0;
     last ← int_sub d 1;
     vd ← (if c =? last then fill_col rows cols n (cols - 1) lit_1e6 (data v)
           else mret (data v));
     c ← load (coords (MPI_Cart (comm_ M))) 0;
     vd ← (if c =? 0 then fill_col rows cols n 0 lit_1e6 vd else mret vd);
     mret (set_data v vd)).

(** The loops of update_boundaryY that fill row [row] of the cells. *)
Definition fill_row (Nz_ Ny_ cols n row : Z) (value : R) (vd : list R)
  : outcome (list R) :=
  for_loop 0 Nz_ (λ s,
    for_loop 0 n (λ k,
      for_loop 0 cols (λ j vd,
        store vd (u32 (((s * Ny_ + row) * n + k) * cols + j)) value))) vd.

(** MPI_Matrix::update_boundaryY( v) *)
Definition update_boundaryY (M : MPI_Matrix R) (v : MPI_Vector R)
  : list (event + cart_query) * outcome (MPI_Vector R) :=
  let v := x_row (comm_ M) v in
  if is_PER (bcy_ M) then ([inl (Exchange_row (comm_ M))], Returns v)
  else
    ([inl (Exchange_row (comm_ M)); inr (Cartdim_get (comm_ M));
      inr (Cart_get (comm_ M))],
     let cols := u32 (Nx v * n v) in
     let n := n v in
     c ← load (coords (MPI_Cart (comm_ M))) 1;
     d ← load (dims (MPI_Cart (comm_ M))) 1;
     last ← int_sub d 1;
     vd ← (if c =? last
           then fill_row (Nz v) (Ny v) cols n (Ny v - 1) lit_1e6 (data v)
           else mret (data v));
     c ← load (coords (MPI_Cart (comm_ M))) 1;
     vd ← (if c =? 0 then fill_row (Nz v) (Ny v) cols n 0 lit_1e5 vd
           else mret vd);
     mret (set_data v vd)).

End MatrixEdges.

(** ** std_matrix_blas.cuh: doSymv over a std::vector of vectors *)

Module StdSymv.
Section StdMatrixBlas.
Variable DG_DEBUG : bool.
(** The component vectors, the matrix, the scalars, and doSymv on one
    component: the matrix and the component of [y] after the call. *)
Variables Vector Matrix value_type : Type.
Variable doSymv_component
  : Matrix → Vector → Vector → outcome (Matrix * Vector).
Variable doSymv_scaled_component
  : value_type → Matrix → Vector → value_type → Vector → outcome Vector.

(** doSymv( m, x, y): [m] is passed on by reference from component to
    component. *)
Definition doSymv (m : Matrix) (x y : list Vector)
  : outcome (Matrix * list Vector) :=
  assert DG_DEBUG (size x =? size y);;
  for_loop 0 (size x) (λ i '(m, y),
    xi ← load x i;
    yi ← load y i;
    '(m, yi) ← doSymv_component m xi yi;
    y ← store y i yi;
    mret (m, y)) (m, y).

(** doSymv( alpha, m, x, beta, y) *)
Definition doSymv_scaled (alpha : value_type) (m : Matrix) (x : list Vector)
    (beta : value_type) (y : list Vector) : outcome (list Vector) :=
  assert DG_DEBUG (size x =? size y);;
  for_loop 0 (size x) (λ i y,
    xi ← load x i;
    yi ← load y i;
    yi ← doSymv_scaled_component alpha m xi beta yi;
    store y i yi) y.

End StdMatrixBlas.
End StdSymv.

(** ** The elliptic operators: the adjoint boundary condition and
       direction *)

Module Elliptic.

(** The directions of a first derivative. *)
Inductive direction : Type := forward | backward | centered.


(** inverse( direction dir) *)
Definition inverse_direction (dir : direction) : direction :=
  match dir with
  | forward => backward
  | backward => forward
  | centered => centered
  end.

End Elliptic.

(** * Data of the examples *)

(** A rank that holds 3 x 3 cells with one value each: the cell in the
    middle, at position 4, is the only one inside the ghost layers. *)
Definition cells3 {R} (d : list R) : MPI_Vector R :=
  {| n := 1; stride := 1; Nx := 3; Ny := 3; Nz := 1; data := d |}.

(** A rank that holds one row of [nx - 2] cells between its ghost cells. *)
Definition row_of {R} (nx : Z) (d : list R) : MPI_Vector R :=
  {| n := 1; stride := 1; Nx := nx; Ny := 3; Nz := 1; data := d |}.

(** A vector without cells. *)
Definition no_cells {R} (n stride nx ny : Z) : MPI_Vector R :=
  {| n := n; stride := stride; Nx := nx; Ny := ny; Nz := 0; data := [] |}.

(** A rank without neighbours: the exchanges leave its ghost cells. *)
Definition no_neighbours {R} : MPI_Comm → MPI_Vector R → MPI_Vector R :=
  λ _ v, v.

(** The group of a Cartesian grid of ranks. *)
Definition cart : MPI_Comm := Comm_handle 1.

(** A matrix over [cart] with one block in x, a boundary row in x that
    writes column 0 from column 1, and a preconditioner. *)
Definition example_matrix : MPI_Matrix Z :=
  {| p_ := {| precon_data := [2] |};
     dataY_ := [[]]; dataX_ := [[3]]; offset_ := [0];
     xterm_ := {| data_ := [[5]]; row_ := [-1]; col_ := [0] |};
     yterm_ := {| data_ := []; row_ := []; col_ := [] |};
     bcx_ := DIR; bcy_ := PER; comm_ := cart |}.

(** A boundary row in y that writes row 0 from row 1. *)
Definition example_yterm : BoundaryTerms Z :=
  {| data_ := [[7]]; row_ := [-1]; col_ := [0] |}.

(** The vectors of the examples on [cells3]. *)
Definition example_x : MPI_Vector Z := cells3 [1; 2; 3; 4; 5; 6; 7; 8; 9].
Definition example_y : MPI_Vector Z := cells3 [9; 8; 7; 6; 5; 4; 3; 2; 1].
Definition zero_y : MPI_Vector Z := cells3 [0; 0; 0; 0; 0; 0; 0; 0; 0].

(** Vectors that agree with [example_x] and [example_y] in the middle
    cell and differ from them in every ghost cell. *)
Definition other_ghosts_x : MPI_Vector Z := cells3 [0; 0; 0; 0; 5; 0; 0; 0; 0].
Definition other_ghosts_y : MPI_Vector Z := cells3 [1; 1; 1; 1; 5; 1; 1; 1; 1].

(** Two vectors at the addresses 0 and 1. *)
Definition two_vectors {R} (x y : MPI_Vector R) : nat → MPI_Vector R :=
  λ a, match a with O => x | _ => y end.

(** One row of three cells with the values 1e16, 1, 1 and the weight 1,
    held by one rank and split over two ranks: the first rank holds the
    first cell, the second rank the other two.  The ghost cell between
    the two ranks holds the border cell of the neighbour. *)
Definition whole_row_x : MPI_Vector float :=
  row_of 5 [0; 0; 0; 0; 0;  0; 1e16; 1; 1; 0;  0; 0; 0; 0; 0]%float.
Definition whole_row_y : MPI_Vector float :=
  row_of 5 [0; 0; 0; 0; 0;  0; 1; 1; 1; 0;  0; 0; 0; 0; 0]%float.
Definition left_part_x : MPI_Vector float :=
  row_of 3 [0; 0; 0;  0; 1e16; 1;  0; 0; 0]%float.
Definition left_part_y : MPI_Vector float :=
  row_of 3 [0; 0; 0;  0; 1; 1;  0; 0; 0]%float.
Definition right_part_x : MPI_Vector float :=
  row_of 4 [0; 0; 0; 0;  1e16; 1; 1; 0;  0; 0; 0; 0]%float.
Definition right_part_y : MPI_Vector float :=
  row_of 4 [0; 0; 0; 0;  1; 1; 1; 0;  0; 0; 0; 0]%float.
Definition unit_weight : MPI_Precon float := {| precon_data := [1%float] |}.

(** A weighting with two weights, and two vectors of two cells with two
    values each at the addresses 0 and 1. *)
Definition two_weights : MPI_Precon Z := {| precon_data := [2; 1] |}.
Definition example_objects : nat → MPI_Vector Z :=
  two_vectors
    {| n := 1; stride := 2; Nx := 2; Ny := 1; Nz := 1; data := [1; 2; 3; 4] |}
    {| n := 1; stride := 2; Nx := 2; Ny := 1; Nz := 1;
       data := [10; 20; 30; 40] |}.

(** The rank at the corner (0, 0) of a grid of 2 x 1 ranks: it is the
    first of two in x and alone in y. *)
Definition corner_of_two_by_one : MPI_Comm → cart_topology :=
  λ _, {| dims := [2; 1]; periods := [0; 0]; coords := [0; 0] |}.

(** The first rank of a line of two ranks: a grid with one dimension. *)
Definition line_of_two : MPI_Comm → cart_topology :=
  λ _, {| dims := [2]; periods := [0]; coords := [0] |}.

(** A vector of four values at the address 0 and a vector of two values
    at the address 1. *)
Definition short_output : nat → MPI_Vector Z :=
  two_vectors
    {| n := 1; stride := 2; Nx := 2; Ny := 1; Nz := 1; data := [1; 2; 3; 4] |}
    {| n := 1; stride := 2; Nx := 1; Ny := 1; Nz := 1; data := [10; 20] |}.

(** Two vectors of one plane of 2 x 4 cells: every cell is a ghost
    cell. *)
Definition thin_x : MPI_Vector Z :=
  {| n := 1; stride := 1; Nx := 4; Ny := 2; Nz := 1;
     data := [1; 2; 3; 4; 5; 6; 7; 8] |}.
Definition thin_y : MPI_Vector Z :=
  {| n := 1; stride := 1; Nx := 4; Ny := 2; Nz := 1;
     data := [8; 7; 6; 5; 4; 3; 2; 1] |}.

(** Vectors of vectors of integers: the reduction of one component is
    the weighted sum of its products, an accumulator is an integer. *)
Definition weighted_sum (x : list Z) (m : Z) (y : list Z) : outcome Z :=
  Returns (fold_left Z.add (zip_with (λ a b, a * m * b) x y) 0).

(** [y <- alpha m x + beta y] on one component, with an integer for the
    matrix. *)
Definition scale_add (alpha m : Z) (x : list Z) (beta : Z) (y : list Z)
  : outcome (list Z) :=
  Returns (zip_with (λ a b, alpha * m * a + beta * b) x y).

(** [y <- m x] on one component, by a matrix that counts its calls. *)
Definition scale_count (m : Z) (x y : list Z) : outcome (Z * list Z) :=
  Returns (m + 1, map (Z.mul m) x).

(** A vector of one plane without rows. *)
Definition no_rows : MPI_Vector Z :=
  {| n := 1; stride := 1; Nx := 3; Ny := 0; Nz := 1; data := [] |}.

(** An exchange that can be told from no exchange: every value of the
    vector comes back raised by 10. *)
Definition raised_by_ten : MPI_Comm → MPI_Vector Z → MPI_Vector Z :=
  λ _ v, set_data v (map (Z.add 10) (data v)).

(** One plane of 3 x 4 cells with two values each: the cells inside the
    ghost layers are the two in the middle of the second row, at the
    positions 10 to 13. *)
Definition wide_x : MPI_Vector Z :=
  {| n := 1; stride := 2; Nx := 4; Ny := 3; Nz := 1;
     data := [1; 2; 3; 4; 5; 6; 7; 8; 9; 10; 11; 12; 13; 14; 15; 16; 17; 18;
              19; 20; 21; 22; 23; 24] |}.
Definition wide_y : MPI_Vector Z :=
  {| n := 1; stride := 2; Nx := 4; Ny := 3; Nz := 1;
     data := [24; 23; 22; 21; 20; 19; 18; 17; 16; 15; 14; 13; 12; 11; 10; 9;
              8; 7; 6; 5; 4; 3; 2; 1] |}.

(** The same cells inside, other values in every ghost cell. *)
Definition wide_x_other : MPI_Vector Z :=
  {| n := 1; stride := 2; Nx := 4; Ny := 3; Nz := 1;
     data := [0; 0; 0; 0; 0; 0; 0; 0; 0; 0; 11; 12; 13; 14; 0; 0; 0; 0;
              0; 0; 0; 0; 0; 0] |}.
Definition wide_y_other : MPI_Vector Z :=
  {| n := 1; stride := 2; Nx := 4; Ny := 3; Nz := 1;
     data := [7; 7; 7; 7; 7; 7; 7; 7; 7; 7; 14; 13; 12; 11; 7; 7; 7; 7;
              7; 7; 7; 7; 7; 7] |}.

(** One plane of 3 x 3 cells with 2 x 2 coefficients each, 36 values. *)
Definition cells3_n2 (d : list Z) : MPI_Vector Z :=
  {| n := 2; stride := 4; Nx := 3; Ny := 3; Nz := 1; data := d |}.
Definition example_x2 : MPI_Vector Z :=
  cells3_n2 [1; 2; 3; 4; 5; 6; 7; 8; 9; 10; 11; 12; 13; 14; 15; 16; 17; 18;
             19; 20; 21; 22; 23; 24; 25; 26; 27; 28; 29; 30; 31; 32; 33; 34;
             35; 36].
Definition example_y2 : MPI_Vector Z :=
  cells3_n2 [100; 100; 100; 100; 100; 100; 100; 100; 100; 100; 100; 100;
             100; 100; 100; 100; 100; 100; 100; 100; 100; 100; 100; 100;
             100; 100; 100; 100; 100; 100; 100; 100; 100; 100; 100; 100].

(** A table with three blocks of 2 x 2 coefficients: the first and the
    third write column (row, for applyY) 0, from column 1 and from column
    2; the second writes column 2 from column 1. *)
Definition example_table2 : BoundaryTerms Z :=
  {| data_ := [[1; 2; 3; 4]; [1; 0; 0; 1]; [10; 20; 30; 40]];
     row_ := [-1; 1; -1];
     col_ := [0; 0; 1] |}.

(** A matrix over [cart] on the cells of [cells3_n2]: one block in x,
    the table [example_table2] for the boundary rows in x, one boundary
    row in y that writes row 0 from row 1, and no preconditioner. *)
Definition example_matrix2 : MPI_Matrix Z :=
  {| p_ := {| precon_data := [] |};
     dataY_ := [[]]; dataX_ := [[1; 0; 0; 1]]; offset_ := [0];
     xterm_ := example_table2;
     yterm_ := {| data_ := [[2; 0; 0; 2]]; row_ := [-1]; col_ := [0] |};
     bcx_ := DIR; bcy_ := DIR; comm_ := cart |}.

(** * The vocabulary of the statements *)

(** ** Steps and loops *)

(** Outcomes related by [Rel]: both return related values, or both fail
    the same way. *)
Definition orel {S1 S2} (Rel : S1 → S2 → Prop) (o1 : outcome S1) (o2 : outcome S2)
  : Prop :=
  match o1, o2 with
  | Returns a, Returns b => Rel a b
  | AssertionFailed, AssertionFailed => True
  | Undefined, Undefined => True
  | _, _ => False
  end.

(** A step keeps [P]. *)
Definition keeps {S} (P : S → Prop) (step : S → outcome S) : Prop :=
  ∀ s1 s2, step s1 = Returns s2 → P s1 → P s2.

(** A step that returns has set [P] up. *)
Definition sets_up {S} (P : S → Prop) (step : S → outcome S) : Prop :=
  ∀ s1 s2, step s1 = Returns s2 → P s2.

(** Two steps that take related states to related outcomes. *)
Definition related_steps {S1 S2} (Rel : S1 → S2 → Prop)
    (step1 : S1 → outcome S1) (step2 : S2 → outcome S2) : Prop :=
  ∀ t1 t2, Rel t1 t2 → orel Rel (step1 t1) (step2 t2).

(** A step returns and keeps [Inv]. *)
Definition succeeds {S} (Inv : S → Prop) (step : S → outcome S) : Prop :=
  ∀ s, Inv s → ∃ s', step s = Returns s' ∧ Inv s'.

(** A call that makes no MPI call. *)
Definition silent {A} (c : comp A) : Prop := events c = [].

(** Two lists of one length that hold the same values at the positions
    in [T]. *)
Definition agree_on {A} (T : Z → Prop) (v1 v2 : list A) : Prop :=
  length v1 = length v2 ∧
  ∀ t, T t → v1 !! Z.to_nat t = v2 !! Z.to_nat t.

(** ** Vectors *)

(** Two vectors of one layout and one length: they differ in their values
    only. *)
Definition same_shape {R} (y1 y2 : MPI_Vector R) : Prop :=
  n y1 = n y2 ∧ stride y1 = stride y2 ∧ Nx y1 = Nx y2 ∧ Ny y1 = Ny y2 ∧
  Nz y1 = Nz y2 ∧ length (data y1) = length (data y2).

Definition nonempty {A} (v : list A) : bool := negb (is_empty v).

Section Vocabulary.
Context {R : Type} `{Scalar R}.

(** The vector at [y] while a loop [y[i] = ...] runs, before its step
    [i]: the positions below [i] hold [f], the others and the other
    vectors are as they were in [st]. *)
Definition updated_below (f : nat → option R) (y : nat)
    (st st' : nat → MPI_Vector R) (i : Z) : Prop :=
  (∀ a, a ≠ y → st' a = st a) ∧
  st' y = set_data (st y) (data (st' y)) ∧
  length (data (st' y)) = length (data (st y)) ∧
  (∀ j : nat, Z.of_nat j < i → data (st' y) !! j = f j) ∧
  (∀ j : nat, i ≤ Z.of_nat j → data (st' y) !! j = data (st y) !! j).

(** [m.data[j % stride] * x[j]] *)
Definition weighted (m : MPI_Precon R) (xd : list R) (j : nat) : option R :=
  xv ← xd !! j;
  mv ← precon_data m !! Z.to_nat (Z.of_nat j mod size (precon_data m));
  Some (mul mv xv).

(** [alpha * x[j] + beta * y[j]] *)
Definition axpby_value (alpha beta : R) (xd yd : list R) (j : nat) : option R :=
  xv ← xd !! j;
  yv ← yd !! j;
  Some (add (mul alpha xv) (mul beta yv)).

(** [alpha * m.data[j % stride] * x[j] + beta * y[j]] *)
Definition scaled_value (alpha : R) (m : MPI_Precon R) (beta : R)
    (xd yd : list R) (j : nat) : option R :=
  xv ← xd !! j;
  yv ← yd !! j;
  mv ← precon_data m !! Z.to_nat (Z.of_nat j mod size (precon_data m));
  Some (add (mul (mul alpha mv) xv) (mul beta yv)).

(** The statement [y[f r] = 0] of the first pass of applyX and applyY,
    for the row [r = row_[m]]. *)
Definition clear_step (rows : list Z) (m : Z) (f : Z → Z) (yd : list R)
  : outcome (list R) :=
  r ← load rows m; store yd (f r) zero.

(** The statement [y[f r] += block[ia] * x[g c]] of their second pass. *)
Definition add_step (rows cols : list Z) (blocks : list (list R)) (xd : list R)
    (m ia : Z) (f g : Z → Z) (yd : list R) : outcome (list R) :=
  r ← load rows m;
  c ← load cols m;
  block ← load blocks m;
  a ← load block ia;
  xv ← load xd (g c);
  yv ← load yd (f r);
  store yd (f r) (add yv (mul a xv)).

(** The positions of [y.data] that applyX writes. *)
Definition targeted_X (b : BoundaryTerms R) (x : MPI_Vector R) (t : Z) : Prop :=
  ∃ m r s i k l,
    0 ≤ m < size (data_ b) ∧ row_ b !! Z.to_nat m = Some r ∧
    0 ≤ s < Nz x ∧ 1 ≤ i < u32 (Ny x - 1) ∧ 0 ≤ k < n x ∧ 0 ≤ l < n x ∧
    t = u32 (point (Ny x) (Nx x) (n x) s i k (r + 1) l).

(** The positions of [y.data] that applyY writes. *)
Definition targeted_Y (b : BoundaryTerms R) (x : MPI_Vector R) (t : Z) : Prop :=
  ∃ m r s k j l,
    0 ≤ m < size (data_ b) ∧ row_ b !! Z.to_nat m = Some r ∧
    0 ≤ s < Nz x ∧ 0 ≤ k < n x ∧ 1 ≤ j < u32 (Nx x - 1) ∧ 0 ≤ l < n x ∧
    t = u32 (point (Ny x) (Nx x) (n x) s (r + 1) k j l).

(** The layout of mpi_matrix.h: the members of [x] are unsigned values
    and [x.data()] holds [Nz * Ny * n * Nx * n] values. *)
Definition laid_out (x : MPI_Vector R) : Prop :=
  0 ≤ Nz x < 2 ^ 32 ∧ 0 ≤ Ny x < 2 ^ 32 ∧ 0 ≤ Nx x < 2 ^ 32 ∧ 0 ≤ n x < 2 ^ 32 ∧
  size (data x) = Nz x * Ny x * n x * Nx x * n x ∧ size (data x) < 2 ^ 32.

(** The table [b] fits vectors with [cells] columns (rows, for applyY):
    every block has a row and a column inside the vector and [n * n]
    coefficients. *)
Definition fits (b : BoundaryTerms R) (n cells : Z) : Prop :=
  ∀ m, 0 ≤ m < size (data_ b) →
    ∃ r c block,
      row_ b !! Z.to_nat m = Some r ∧ col_ b !! Z.to_nat m = Some c ∧
      data_ b !! Z.to_nat m = Some block ∧
      0 ≤ r + 1 < cells ∧ 0 ≤ c + 1 < cells ∧ size block = n * n.

(** Two output vectors that hold the same values at the positions in
    [T]. *)
Definition overwritten (T : Z → Prop) (y1 y2 : MPI_Vector R) : Prop :=
  agree_on T (data y1) (data y2).

(** The layout of mpi_precon_blas.h: the members of [x] are unsigned
    values and [x.data] holds [Nz * Ny * Nx * stride] values. *)
Definition shaped (x : MPI_Vector R) : Prop :=
  0 ≤ Nz x < 2 ^ 32 ∧ 0 ≤ Ny x < 2 ^ 32 ∧ 0 ≤ Nx x < 2 ^ 32 ∧
  0 ≤ stride x < 2 ^ 32 ∧
  size (data x) = Nz x * Ny x * Nx x * stride x ∧ size (data x) < 2 ^ 32.

(** The positions of the cells inside the ghost layers: rows 1 to Ny-2
    and columns 1 to Nx-2 of every plane. *)
Definition interior (x : MPI_Vector R) (t : Z) : Prop :=
  ∃ k i j l,
    0 ≤ k < Nz x ∧ 1 ≤ i ≤ Ny x - 2 ∧ 1 ≤ j ≤ Nx x - 2 ∧ 0 ≤ l < stride x ∧
    t = ((k * Ny x + i) * Nx x + j) * stride x + l.

(** Two vectors of one layout that hold the same values inside the ghost
    layers. *)
Definition same_interior (x1 x2 : MPI_Vector R) : Prop :=
  Nz x1 = Nz x2 ∧ Ny x1 = Ny x2 ∧ Nx x1 = Nx x2 ∧ stride x1 = stride x2 ∧
  length (data x1) = length (data x2) ∧
  ∀ t, interior x1 t → data x1 !! Z.to_nat t = data x2 !! Z.to_nat t.

(** The arguments of doDot on one rank in two runs: the same weights, and
    vectors of matching shape that agree inside the ghost layers. *)
Definition same_interiors
    (a b : MPI_Vector R * MPI_Precon R * MPI_Vector R) : Prop :=
  shaped a.1.1 ∧ length (data a.2) = length (data a.1.1) ∧
  a.1.2 = b.1.2 ∧
  same_interior a.1.1 b.1.1 ∧
  length (data a.2) = length (data b.2) ∧
  (∀ t, interior a.1.1 t → data a.2 !! Z.to_nat t = data b.2 !! Z.to_nat t).

(** The arguments of doDot on one rank when its loops stay inside the
    vectors: vectors of the layout of the loops with their ghost layers,
    and as many weights as values per cell. *)
Definition reducible (a : MPI_Vector R * MPI_Precon R * MPI_Vector R) : Prop :=
  shaped a.1.1 ∧ 1 ≤ Ny a.1.1 ∧ 1 ≤ Nx a.1.1 ∧
  size (data a.2) = size (data a.1.1) ∧
  size (precon_data a.1.2) = stride a.1.1.

End Vocabulary.

(** ** Positions *)

Section Positions.
Context {R : Type} `{Scalar R}.

(** The positions of [y.data] that the blocks of symv add to: the
    coefficients of the cells inside the ghost layers. *)
Definition inside (x : MPI_Vector R) (t : Z) : Prop :=
  ∃ s i k j l,
    0 ≤ s < Nz x ∧ 1 ≤ i < u32 (Ny x - 1) ∧ 0 ≤ k < n x ∧
    1 ≤ j < u32 (Nx x - 1) ∧ 0 ≤ l < n x ∧
    t = u32 (point (Ny x) (Nx x) (n x) s i k j l).

End Positions.

(** A list of [len] values that holds [v] at position [t]. *)
Definition holds_at {A} (len t : nat) (v : option A) (yd : list A) : Prop :=
  length yd = len ∧ yd !! t = v.

(** ** Vectors of vectors *)

(** One call per pair of components, from the first pair to the last,
    with the matrix handed from call to call; a call that fails ends the
    chain. *)
Fixpoint componentwise {M X Y} (call : M → X → Y → outcome (M * Y))
    (m : M) (pairs : list (X * Y)) : outcome (M * list Y) :=
  match pairs with
  | [] => Returns (m, [])
  | (xi, yi) :: pairs =>
      '(m, zi) ← call m xi yi;
      '(m, zs) ← componentwise call m pairs;
      mret (m, zi :: zs)
  end.

(** ** Sums *)

(** A step takes the value at position [t] from [v] to [g v]. *)
Definition maps_value {A} (t : nat) (g : A → A)
    (step : list A → outcome (list A)) : Prop :=
  ∀ yd yd' v, step yd = Returns yd' → yd !! t = Some v → yd' !! t = Some (g v).

Section Sums.
Context {R : Type} `{Scalar R}.

(** The value at position [i] of a vector that holds one there. *)
Definition value_at (d : list R) (i : Z) : R := default zero (d !! Z.to_nat i).

(** What a pass over a table of boundary terms adds up for one entry of
    the output, starting from zero: the blocks are taken in the order of
    the table, and of a block whose row is [r] the products
    block[coef q] * x[src c q] for q = 0 .. Qhi - 1 in this order, with
    [c] the column of the block. *)
Definition pass_products (rows cols : list Z) (blocks : list (list R))
    (xd : list R) (Mhi Qhi : Z) (r : Z) (coef : Z → Z) (src : Z → Z → Z)
  : R :=
  fold_left (λ v m,
    if default 0 (rows !! Z.to_nat m) =? r then
      fold_left (λ v q,
        add v (mul (value_at (default [] (blocks !! Z.to_nat m)) (coef q))
                   (value_at xd (src (default 0 (cols !! Z.to_nat m)) q))))
        (range 0 Qhi) v
    else v) (range 0 Mhi) zero.

(** The boundary products of applyX for coefficient [(k, l)] of the cell
    in row [i] and column [r + 1] of plane [s]:
    the sum over the blocks with row [r] and over [q] of
    data_[m][l * n + q] * x[s, i, k, col_[m] + 1, q]. *)
Definition boundary_products_X (b : BoundaryTerms R) (x : MPI_Vector R)
    (s i k l r : Z) : R :=
  pass_products (row_ b) (col_ b) (data_ b) (data x) (size (data_ b)) (n x) r
    (λ q, l * n x + q)
    (λ c q, point (Ny x) (Nx x) (n x) s i k (c + 1) q).

(** The boundary products of applyY for coefficient [(k, l)] of the cell
    in row [r + 1] and column [j] of plane [s]:
    the sum over the blocks with row [r] and over [p] of
    data_[m][k * n + p] * x[s, col_[m] + 1, p, j, l]. *)
Definition boundary_products_Y (b : BoundaryTerms R) (x : MPI_Vector R)
    (s k j l r : Z) : R :=
  pass_products (row_ b) (col_ b) (data_ b) (data x) (size (data_ b)) (n x) r
    (λ p, k * n x + p)
    (λ c p, point (Ny x) (Nx x) (n x) s (c + 1) p j l).

(** The values of the cells inside the ghost layers, in the order of the
    loops of doDot: planes, rows 1 to Ny-2, columns 1 to Nx-2, and the
    values of a cell. *)
Definition interior_cells (x : MPI_Vector R) : list (Z * Z * Z * Z) :=
  k ← range 0 (Nz x);
  i ← range 1 (Ny x - 1);
  j ← range 1 (Nx x - 1);
  l ← range 0 (stride x);
  [(k, i, j, l)].

(** [temp + x[idx] * m[l] * y[idx]] for the value [l] of cell [(k, i, j)]. *)
Definition add_product (x : MPI_Vector R) (m : MPI_Precon R) (y : MPI_Vector R)
    (temp : R) (c : Z * Z * Z * Z) : R :=
  let idx := ((c.1.1.1 * Ny x + c.1.1.2) * Nx x + c.1.2) * stride x + c.2 in
  add temp (mul (mul (value_at (data x) idx) (value_at (precon_data m) c.2))
                (value_at (data y) idx)).

(** The sum of x[idx] * m[l] * y[idx] over the cells inside the ghost
    layers, added up from zero in the order of [interior_cells]. *)
Definition interior_sum (a : MPI_Vector R * MPI_Precon R * MPI_Vector R) : R :=
  fold_left (add_product a.1.1 a.1.2 a.2) (interior_cells a.1.1) zero.

(** The loops of doDot visit no cell: there is no plane, no value per
    cell, or there are one or two rows or columns. *)
Definition visits_no_cell (x : MPI_Vector R) : Prop :=
  Nz x = 0 ∨ stride x = 0 ∨ 1 ≤ Ny x ≤ 2 ∨ 1 ≤ Nx x ≤ 2.

End Sums.

Create HintDb silent.

(** * Properties *)

#[export] Instance Z_exact : ExactScalar Z.
Proof.
  split; simpl; intros.
  - apply Z.eqb_eq.
  - reflexivity.
  - reflexivity.
  - destruct a; reflexivity.
Qed.

(** ** Counters *)

Lemma range_nil lo hi : hi ≤ lo → range lo hi = [].
Proof.
  intros Hle. unfold range.
  replace (Z.to_nat (hi - lo)) with 0%nat by lia. reflexivity.
Qed.

Lemma range_cons lo hi : lo < hi → range lo hi = lo :: range (lo + 1) hi.
Proof.
  intros Hlt. unfold range.
  replace (Z.to_nat (hi - lo)) with (S (Z.to_nat (hi - (lo + 1)))) by lia.
  simpl. f_equal; [lia|].
  rewrite <- seq_shift, map_map.
  apply map_ext. intros k. lia.
Qed.

Lemma elem_of_range lo hi i : i ∈ range lo hi ↔ lo ≤ i < hi.
Proof.
  unfold range. rewrite list_elem_of_In, in_map_iff. split.
  - intros (k & <- & Hk). apply in_seq in Hk. lia.
  - intros Hi. exists (Z.to_nat (i - lo)). split; [lia|].
    apply in_seq. lia.
Qed.

(** ** Element access *)

Lemma load_Returns {A} (v : list A) i a :
  load v i = Returns a ↔ 0 ≤ i ∧ v !! Z.to_nat i = Some a.
Proof.
  unfold load, size. split.
  - destruct ((0 <=? i) && (i <? Z.of_nat (length v))) eqn:E; [|discriminate].
    destruct (v !! Z.to_nat i) eqn:L; [|discriminate].
    intros [= ->]. split; [lia | reflexivity].
  - intros [Hi L]. pose proof (lookup_lt_Some _ _ _ L) as Hlt.
    replace ((0 <=? i) && (i <? Z.of_nat (length v))) with true by lia.
    rewrite L. reflexivity.
Qed.

Lemma load_in_range {A} (v : list A) i :
  0 ≤ i < size v → ∃ a, load v i = Returns a ∧ v !! Z.to_nat i = Some a.
Proof.
  unfold size. intros Hi.
  destruct (lookup_lt_is_Some_2 v (Z.to_nat i)) as [a L]; [lia|].
  exists a. split; [|exact L]. apply load_Returns. split; [lia | exact L].
Qed.

Lemma load_out_of_range {A} (v : list A) i :
  ¬ (0 ≤ i < size v) → load v i = Undefined.
Proof.
  unfold load. intros Hi.
  replace ((0 <=? i) && (i <? size v)) with false by lia. reflexivity.
Qed.

Lemma store_Returns {A} (v : list A) i a v' :
  store v i a = Returns v' ↔ 0 ≤ i < size v ∧ v' = <[Z.to_nat i := a]> v.
Proof.
  unfold store. split.
  - destruct ((0 <=? i) && (i <? size v)) eqn:E; [|discriminate].
    intros [= <-]. split; [lia | reflexivity].
  - intros [Hi ->].
    replace ((0 <=? i) && (i <? size v)) with true by lia. reflexivity.
Qed.

(** ** Loops *)

Section Loops.
Context {S A : Type}.
Implicit Types (body : A → S → outcome S) (l : list A).

(** Two bodies that do the same for the counters of the loop. *)
Lemma foldM_ext_in body1 body2 l s :
  (∀ a s, a ∈ l → body1 a s = body2 a s) →
  foldM body1 l s = foldM body2 l s.
Proof.
  revert s. induction l as [|a l IH]; intros s Hb; simpl; [reflexivity|].
  rewrite Hb by left.
  destruct (body2 a s); simpl; auto.
  apply IH. intros; apply Hb. by right.
Qed.

(** A property that every step keeps is kept by the loop. *)
Lemma foldM_stable (P : S → Prop) body l s s' :
  (∀ a s1 s2, a ∈ l → body a s1 = Returns s2 → P s1 → P s2) →
  foldM body l s = Returns s' → P s → P s'.
Proof.
  revert s. induction l as [|a l IH]; intros s Hb; simpl.
  - intros [= <-]. auto.
  - destruct (body a s) as [s1| |] eqn:E; simpl; try discriminate.
    intros Hf Hs. apply (IH s1); auto.
    + intros; eapply Hb; eauto. by right.
    + eapply Hb; eauto. by left.
Qed.

(** A property that one step sets up and every step keeps holds after the
    loop. *)
Lemma foldM_establish (P : S → Prop) body l s s' a :
  a ∈ l →
  (∀ b s1 s2, b ∈ l → body b s1 = Returns s2 → P s1 → P s2) →
  (∀ s1 s2, body a s1 = Returns s2 → P s2) →
  foldM body l s = Returns s' → P s'.
Proof.
  revert s. induction l as [|b l IH]; intros s Ha Hk Hset; simpl.
  - by apply elem_of_nil in Ha.
  - destruct (body b s) as [s1| |] eqn:E; simpl; try discriminate.
    intros Hf. apply elem_of_cons in Ha as [->|Ha].
    + eapply (foldM_stable P body l s1); eauto.
      intros; eapply Hk; eauto. by right.
    + apply (IH s1); auto.
      intros; eapply Hk; eauto. by right.
Qed.

(** Every step returns as long as the invariant holds. *)
Lemma foldM_total (Inv : S → Prop) body l s :
  (∀ a s1, a ∈ l → Inv s1 → ∃ s2, body a s1 = Returns s2 ∧ Inv s2) →
  Inv s → ∃ s', foldM body l s = Returns s' ∧ Inv s'.
Proof.
  revert s. induction l as [|a l IH]; intros s Hb Hs; simpl.
  - eauto.
  - destruct (Hb a s) as (s1 & -> & Hs1); [by left | assumption |].
    simpl. apply IH; auto. intros; apply Hb; auto. by right.
Qed.

End Loops.

(** The rule of a counted loop with an invariant that mentions the
    counter. *)
Lemma for_loop_inv {S} (Inv : Z → S → Prop) lo hi (body : Z → S → outcome S) s :
  lo ≤ hi → Inv lo s →
  (∀ i s1, lo ≤ i < hi → Inv i s1 → ∃ s2, body i s1 = Returns s2 ∧ Inv (i + 1) s2) →
  ∃ s', for_loop lo hi body s = Returns s' ∧ Inv hi s'.
Proof.
  intros Hle Hs Hb. unfold for_loop.
  remember (Z.to_nat (hi - lo)) as k eqn:Hk.
  revert lo s Hle Hs Hb Hk. induction k as [|k IH]; intros lo s Hle Hs Hb Hk.
  - assert (hi = lo) as -> by lia. rewrite range_nil by lia. simpl. eauto.
  - rewrite range_cons by lia. simpl.
    destruct (Hb lo s) as (s1 & -> & Hs1); [lia | assumption |].
    simpl. apply IH; auto; try lia.
    intros; apply Hb; auto. lia.
Qed.

Lemma orel_bind {S1 S2 T1 T2} (Rel : S1 → S2 → Prop) (Rel' : T1 → T2 → Prop)
    o1 o2 (f1 : S1 → outcome T1) (f2 : S2 → outcome T2) :
  orel Rel o1 o2 → (∀ a b, Rel a b → orel Rel' (f1 a) (f2 b)) →
  orel Rel' (o1 ≫= f1) (o2 ≫= f2).
Proof.
  destruct o1, o2; simpl; auto; contradiction.
Qed.

(** Two runs of a loop whose steps keep a relation between the states. *)
Lemma foldM_rel {S1 S2 A} (Rel : S1 → S2 → Prop)
    (body1 : A → S1 → outcome S1) (body2 : A → S2 → outcome S2) l s1 s2 :
  (∀ a t1 t2, a ∈ l → Rel t1 t2 → orel Rel (body1 a t1) (body2 a t2)) →
  Rel s1 s2 → orel Rel (foldM body1 l s1) (foldM body2 l s2).
Proof.
  revert s1 s2. induction l as [|a l IH]; intros s1 s2 Hb Hs; simpl; [exact Hs|].
  eapply orel_bind.
  - apply Hb; [by left | exact Hs].
  - intros t1 t2 Ht. apply IH; auto. intros; apply Hb; auto. by right.
Qed.

(** ** Nested loops *)

Lemma for_loop_keeps {S} (P : S → Prop) lo hi (body : Z → S → outcome S) :
  (∀ i, lo ≤ i < hi → keeps P (body i)) → keeps P (for_loop lo hi body).
Proof.
  intros Hb s1 s2 Hrun Hs. unfold for_loop in Hrun.
  eapply foldM_stable; eauto.
  intros a t1 t2 Ha%elem_of_range. apply Hb, Ha.
Qed.

Lemma for_loop_sets_up {S} (P : S → Prop) lo hi (body : Z → S → outcome S) a :
  lo ≤ a < hi →
  (∀ i, lo ≤ i < hi → keeps P (body i)) →
  sets_up P (body a) → sets_up P (for_loop lo hi body).
Proof.
  intros Ha Hk Hset s1 s2 Hrun. unfold for_loop in Hrun.
  eapply (foldM_establish P body (range lo hi) s1 s2 a); eauto.
  - apply elem_of_range, Ha.
  - intros b t1 t2 Hb%elem_of_range. apply Hk, Hb.
Qed.

Lemma for_loop_related {S1 S2} (Rel : S1 → S2 → Prop) lo hi
    (body1 : Z → S1 → outcome S1) (body2 : Z → S2 → outcome S2) :
  (∀ i, lo ≤ i < hi → related_steps Rel (body1 i) (body2 i)) →
  related_steps Rel (for_loop lo hi body1) (for_loop lo hi body2).
Proof.
  intros Hb t1 t2 Ht. unfold for_loop. apply foldM_rel; auto.
  intros a u1 u2 Ha%elem_of_range. apply Hb, Ha.
Qed.

Lemma for_loop_ext {S} lo hi (body1 body2 : Z → S → outcome S) s :
  (∀ i s, lo ≤ i < hi → body1 i s = body2 i s) →
  for_loop lo hi body1 s = for_loop lo hi body2 s.
Proof.
  intros Hb. unfold for_loop. apply foldM_ext_in.
  intros a t Ha%elem_of_range. apply Hb, Ha.
Qed.

Section Steps.
Context {R : Type} `{Scalar R}.

Lemma load_agree (T : Z → Prop) (v1 v2 : list R) t :
  agree_on T v1 v2 → T t → load v1 t = load v2 t.
Proof.
  intros [Hlen Hag] Ht. unfold load, size. rewrite Hlen, (Hag t Ht). reflexivity.
Qed.

Lemma store_agree (T : Z → Prop) (v1 v2 : list R) t a :
  agree_on T v1 v2 → orel (agree_on T) (store v1 t a) (store v2 t a).
Proof.
  intros [Hlen Hag]. unfold store, size. rewrite Hlen.
  destruct ((0 <=? t) && (t <? Z.of_nat (length v2))) eqn:E; simpl; [|trivial].
  split.
  - rewrite !length_insert. exact Hlen.
  - intros t' Ht'.
    destruct (decide (Z.to_nat t = Z.to_nat t')) as [Heq|Hne].
    + rewrite Heq. rewrite !list_lookup_insert_eq by lia. reflexivity.
    + rewrite !list_lookup_insert_ne by exact Hne. apply Hag, Ht'.
Qed.

Lemma clear_step_keeps rows m f (t : nat) :
  keeps (λ yd, yd !! t = Some zero) (clear_step rows m f).
Proof.
  intros yd1 yd2. unfold clear_step.
  destruct (load rows m) as [r| |]; simpl; try discriminate.
  intros [Hr ->]%store_Returns Ht.
  destruct (decide (Z.to_nat (f r) = t)) as [<-|Hne].
  - apply list_lookup_insert_eq. unfold size in Hr. lia.
  - rewrite list_lookup_insert_ne by exact Hne. exact Ht.
Qed.

Lemma clear_step_sets_up rows m f r :
  0 ≤ m → rows !! Z.to_nat m = Some r →
  sets_up (λ yd, yd !! Z.to_nat (f r) = Some zero) (clear_step rows m f).
Proof.
  intros Hm Hr yd1 yd2. unfold clear_step.
  assert (load rows m = Returns r) as -> by (apply load_Returns; auto).
  simpl. intros [Hi ->]%store_Returns.
  apply list_lookup_insert_eq. unfold size in Hi. lia.
Qed.

Lemma clear_step_related rows m f :
  related_steps (λ v1 v2 : list R, length v1 = length v2)
    (clear_step rows m f) (clear_step rows m f).
Proof.
  intros v1 v2 Hlen. unfold clear_step.
  destruct (load rows m) as [r| |]; simpl; trivial.
  unfold store, size. rewrite Hlen.
  destruct ((0 <=? f r) && (f r <? Z.of_nat (length v2))); simpl; trivial.
  rewrite !length_insert. exact Hlen.
Qed.

Lemma add_step_related (T : Z → Prop) rows cols blocks xd m ia f g :
  (∀ r, rows !! Z.to_nat m = Some r → T (f r)) →
  related_steps (agree_on T)
    (add_step rows cols blocks xd m ia f g)
    (add_step rows cols blocks xd m ia f g).
Proof.
  intros HT v1 v2 Hag. unfold add_step.
  destruct (load rows m) as [r| |] eqn:Er; simpl; trivial.
  apply load_Returns in Er as [_ Er].
  destruct (load cols m) as [c| |]; simpl; trivial.
  destruct (load blocks m) as [block| |]; simpl; trivial.
  destruct (load block ia) as [a| |]; simpl; trivial.
  destruct (load xd (g c)) as [xv| |]; simpl; trivial.
  rewrite (load_agree T v1 v2 (f r) Hag (HT r Er)).
  destruct (load v2 (f r)) as [yv| |]; simpl; trivial.
  apply store_agree, Hag.
Qed.

End Steps.

(** ** symv: the output vector is cleared first *)

Lemma zero_loop {R} (z : R) (d : list R) :
  for_loop 0 (size d) (λ i yd, store yd i z) d = Returns (replicate (length d) z).
Proof.
  destruct (for_loop_inv
    (λ i d', d' = replicate (Z.to_nat i) z ++ drop (Z.to_nat i) d)
    0 (size d) (λ i yd, store yd i z) d) as (d' & -> & Hd').
  - unfold size. lia.
  - reflexivity.
  - intros i d1 Hi ->.
    eexists. split.
    + apply store_Returns. split; [|reflexivity].
      unfold size in *. rewrite length_app, length_replicate, length_drop. lia.
    + unfold size in Hi.
      destruct (lookup_lt_is_Some_2 d (Z.to_nat i)) as [a L]; [lia|].
      rewrite insert_app_r_alt by (rewrite length_replicate; lia).
      rewrite length_replicate, Nat.sub_diag.
      rewrite (drop_S _ _ _ L). simpl.
      replace (Z.to_nat (i + 1)) with (S (Z.to_nat i)) by lia.
      rewrite replicate_S_end, <- app_assoc. reflexivity.
  - f_equal. rewrite Hd'. unfold size.
    rewrite Nat2Z.id, drop_all, app_nil_r. reflexivity.
Qed.

Lemma comp_bind_ext {A B} (c : comp A) (f g : A → comp B) :
  (∀ a, result c = Returns a → f a = g a) → c ≫= f = c ≫= g.
Proof.
  intros Hfg. unfold mbind, comp_bind.
  destruct (result c) eqn:E; auto. rewrite Hfg; auto.
Qed.

Lemma outcome_bind_ext {A B} (o : outcome A) (f g : A → outcome B) :
  (∀ a, o = Returns a → f a = g a) → o ≫= f = o ≫= g.
Proof.
  intros Hfg. destruct o; simpl; auto.
Qed.

Lemma set_data_same_shape {R} (y1 y2 : MPI_Vector R) d :
  same_shape y1 y2 → set_data y1 d = set_data y2 d.
Proof.
  intros (? & ? & ? & ? & ? & ?). unfold set_data. congruence.
Qed.

Section SymvOutput.
Context {R : Type} `{Scalar R}.
Variable DG_DEBUG : bool.
Variable x_col x_row : MPI_Comm → MPI_Vector R → MPI_Vector R.

Lemma symv_unweighted_output M x (y1 y2 : MPI_Vector R) :
  same_shape y1 y2 →
  symv_unweighted DG_DEBUG x_col x_row M x y1 = symv_unweighted DG_DEBUG x_col x_row M x y2.
Proof.
  intros Hs. unfold symv_unweighted.
  apply comp_bind_ext; intros _ _.
  apply comp_bind_ext; intros update _.
  apply comp_bind_ext; intros x' _.
  assert (size (data y1) = size (data y2)) as Hsz.
  { unfold size. destruct Hs as (_ & _ & _ & _ & _ & ->). reflexivity. }
  rewrite !zero_loop, Hsz.
  replace (length (data y2)) with (length (data y1)) by apply Hs.
  apply comp_bind_ext; intros _ _.
  apply comp_bind_ext; intros yd _.
  apply comp_bind_ext; intros yd' _.
  rewrite (set_data_same_shape y1 y2) by exact Hs.
  reflexivity.
Qed.

End SymvOutput.

(** ** symv: the exchanges *)

(** The constructors make as many blocks in x as in y. *)
Lemma constructed_tables {R : Type} (bcx bcy : bc) (comm : MPI_Comm)
    (number : nat) :
  length (dataX_ (MPI_Matrix_x (R := R) bcx comm number))
  = length (dataY_ (MPI_Matrix_x (R := R) bcx comm number)) ∧
  length (dataX_ (MPI_Matrix_xy (R := R) bcx bcy comm number))
  = length (dataY_ (MPI_Matrix_xy (R := R) bcx bcy comm number)).
Proof.
  simpl. rewrite !length_replicate. split; reflexivity.
Qed.

Lemma events_bind {A B} (c : comp A) (f : A → comp B) :
  events (c ≫= f) =
  events c ++ match result c with Returns a => events (f a) | _ => [] end.
Proof.
  unfold mbind, comp_bind. destruct (result c); simpl; auto using app_nil_r.
Qed.

Lemma result_bind {A B} (c : comp A) (f : A → comp B) :
  result (c ≫= f) = (result c ≫= λ a, result (f a)).
Proof.
  unfold mbind at 1, comp_bind. destruct (result c); reflexivity.
Qed.

Lemma silent_lift {A} (o : outcome A) : silent (lift o).
Proof. reflexivity. Qed.

Lemma silent_ret {A} (a : A) : silent (mret a : comp A).
Proof. reflexivity. Qed.

Lemma silent_bind {A B} (c : comp A) (f : A → comp B) :
  silent c → (∀ a, silent (f a)) → silent (c ≫= f).
Proof.
  unfold silent. intros Hc Hf. rewrite events_bind, Hc.
  destruct (result c); simpl; auto.
Qed.

Lemma silent_nil {A} (c : comp A) : silent c → events c = [].
Proof. auto. Qed.

#[export] Hint Resolve silent_lift silent_ret silent_bind : silent.

Lemma events_emit_bind {B} e (f : () → comp B) :
  events (emit e ≫= f) = e :: events (f ()).
Proof. reflexivity. Qed.

Lemma events_lift_bind {A B} (o : outcome A) (f : A → comp B) :
  events (lift o ≫= f) = match o with Returns a => events (f a) | _ => [] end.
Proof. destruct o; reflexivity. Qed.

Lemma existsb_nonempty {A} (l : list (list A)) :
  existsb nonempty l = true ↔ ∃ blk, blk ∈ l ∧ blk ≠ [].
Proof.
  rewrite existsb_exists. split.
  - intros (blk & Hin & Hne). exists blk. split; [by apply list_elem_of_In|].
    destruct blk; [discriminate | discriminate].
  - intros (blk & Hin & Hne). exists blk. split; [by apply list_elem_of_In|].
    destruct blk; [contradiction | reflexivity].
Qed.

Section SymvEvents.
Context {R : Type} `{Scalar R}.
Variable DG_DEBUG : bool.
Variable x_col x_row : MPI_Comm → MPI_Vector R → MPI_Vector R.

Lemma symv_update_flags (M : MPI_Matrix R) :
  length (dataX_ M) = length (dataY_ M) →
  symv_update M =
  Returns (existsb nonempty (dataX_ M), existsb nonempty (dataY_ M)).
Proof.
  intros Hlen. unfold symv_update.
  destruct (for_loop_inv
    (λ i (u : bool * bool),
       u = (existsb nonempty (take (Z.to_nat i) (dataX_ M)),
            existsb nonempty (take (Z.to_nat i) (dataY_ M))))
    0 (size (dataX_ M))
    (λ k '(updateX, updateY),
       dY ← load (dataY_ M) k;
       dX ← load (dataX_ M) k;
       mret (updateX || negb (is_empty dX), updateY || negb (is_empty dY)))
    (false, false)) as (u & -> & ->).
  - unfold size. lia.
  - reflexivity.
  - intros i [ux uy] Hi [= -> ->].
    destruct (load_in_range (dataY_ M) i) as (dY & -> & LY);
      [unfold size in *; lia|].
    destruct (load_in_range (dataX_ M) i) as (dX & -> & LX);
      [unfold size in *; lia|].
    eexists. split; [reflexivity|].
    replace (Z.to_nat (i + 1)) with (S (Z.to_nat i)) by lia.
    rewrite (take_S_r _ _ _ LX), (take_S_r _ _ _ LY), !existsb_app. simpl.
    rewrite !orb_false_r. reflexivity.
  - unfold size. rewrite Nat2Z.id, firstn_all, Hlen, firstn_all. reflexivity.
Qed.

Lemma symv_exchange_result (M : MPI_Matrix R) u x :
  ∃ x', result (symv_exchange x_col x_row M u x) = Returns x'.
Proof.
  unfold symv_exchange. destruct u as [[|] [|]]; simpl; eauto.
Qed.

Lemma symv_exchange_events (M : MPI_Matrix R) u x :
  events (symv_exchange x_col x_row M u x) =
  (if u.1 then [Exchange_col (comm_ M)] else [])
  ++ (if u.2 then [Exchange_row (comm_ M)] else []).
Proof.
  unfold symv_exchange. destruct u as [[|] [|]]; reflexivity.
Qed.

Lemma symv_unweighted_events (M : MPI_Matrix R) x y :
  length (dataX_ M) = length (dataY_ M) →
  events (symv_unweighted DG_DEBUG x_col x_row M x y) =
  Comm_rank (comm_ M)
  :: (if existsb nonempty (dataX_ M) then [Exchange_col (comm_ M)] else [])
  ++ (if existsb nonempty (dataY_ M) then [Exchange_row (comm_ M)] else []).
Proof.
  intros Hlen. unfold symv_unweighted.
  rewrite (symv_update_flags M Hlen).
  set (u := (existsb nonempty (dataX_ M), existsb nonempty (dataY_ M))).
  destruct (symv_exchange_result M u x) as [x' Hx'].
  rewrite events_emit_bind, events_lift_bind, events_bind, Hx'.
  rewrite symv_exchange_events. simpl fst. simpl snd.
  rewrite silent_nil, app_nil_r; [reflexivity|].
  auto 10 with silent.
Qed.

Lemma symv_events (M : MPI_Matrix R) x y :
  length (dataX_ M) = length (dataY_ M) →
  events (symv DG_DEBUG x_col x_row M x y) =
  Comm_rank (comm_ M)
  :: (if existsb nonempty (dataX_ M) then [Exchange_col (comm_ M)] else [])
  ++ (if existsb nonempty (dataY_ M) then [Exchange_row (comm_ M)] else []).
Proof.
  intros Hlen. unfold symv.
  rewrite events_bind, (symv_unweighted_events M x y Hlen).
  rewrite <- (app_nil_r (_ :: _)) at 2. f_equal.
  destruct (result _) as [[x' y']| |]; auto.
  apply silent_nil. auto with silent.
Qed.

End SymvEvents.

(** ** Weightings: doSymv and doAxpby *)

Lemma assert_passes (DG_DEBUG b : bool) :
  (DG_DEBUG = true → b = true) → assert DG_DEBUG b = Returns ().
Proof.
  unfold assert. destruct DG_DEBUG, b; simpl; auto.
  intros Hb. discriminate Hb. reflexivity.
Qed.

Lemma u32_small z : 0 ≤ z < 2 ^ 32 → u32 z = z.
Proof. intros Hz. unfold u32. apply Z.mod_small. exact Hz. Qed.

Lemma remainder_Returns i s : 0 < s → Precon.remainder i s = Returns (i mod s).
Proof.
  intros Hs. unfold Precon.remainder.
  destruct (s =? 0) eqn:E; [lia | reflexivity].
Qed.

Section Weightings.
Context {R : Type} `{Scalar R}.
Variable DG_DEBUG : bool.

Lemma updated_below_start f y (st : nat → MPI_Vector R) :
  updated_below f y st st 0.
Proof.
  repeat split; auto; try lia.
  destruct (st y); reflexivity.
Qed.

Lemma updated_below_read f x y (st st' : nat → MPI_Vector R) i :
  updated_below f y st st' i → 0 ≤ i →
  data (st' x) !! Z.to_nat i = data (st x) !! Z.to_nat i.
Proof.
  intros (Hoth & _ & _ & _ & Habove) Hi.
  destruct (decide (x = y)) as [->|Hne].
  - apply Habove. lia.
  - rewrite Hoth by exact Hne. reflexivity.
Qed.

Lemma updated_below_size f x y (st st' : nat → MPI_Vector R) i :
  updated_below f y st st' i → size (data (st' x)) = size (data (st x)).
Proof.
  intros (Hoth & _ & Hlen & _). unfold size.
  destruct (decide (x = y)) as [->|Hne].
  - rewrite Hlen. reflexivity.
  - rewrite Hoth by exact Hne. reflexivity.
Qed.

Lemma updated_below_step f y (st st' : nat → MPI_Vector R) i v :
  updated_below f y st st' i → 0 ≤ i < size (data (st y)) →
  f (Z.to_nat i) = Some v →
  ∃ st'', Precon.assign st' y i v = Returns st'' ∧
          updated_below f y st st'' (i + 1).
Proof.
  intros (Hoth & Hmeta & Hlen & Hbelow & Habove) Hi Hf.
  unfold Precon.assign, store.
  replace ((0 <=? i) && (i <? size (data (st' y)))) with true
    by (unfold size in *; lia).
  eexists. split; [reflexivity|].
  repeat split.
  - intros a Ha. rewrite fn_lookup_insert_ne by congruence. apply Hoth, Ha.
  - rewrite fn_lookup_insert. rewrite Hmeta. reflexivity.
  - rewrite fn_lookup_insert. simpl. rewrite length_insert. exact Hlen.
  - intros j Hj. rewrite fn_lookup_insert. simpl.
    destruct (decide (j = Z.to_nat i)) as [->|Hne].
    + rewrite list_lookup_insert_eq by (unfold size in *; lia).
      symmetry. exact Hf.
    + rewrite list_lookup_insert_ne by congruence. apply Hbelow. lia.
  - intros j Hj. rewrite fn_lookup_insert. simpl.
    rewrite list_lookup_insert_ne by lia. apply Habove. lia.
Qed.

Lemma updated_below_end f y (st st' : nat → MPI_Vector R) :
  updated_below f y st st' (size (data (st y))) →
  (∀ a, a ≠ y → st' a = st a) ∧
  st' y = set_data (st y) (data (st' y)) ∧
  length (data (st' y)) = length (data (st y)) ∧
  (∀ j : nat, (j < length (data (st y)))%nat → data (st' y) !! j = f j).
Proof.
  intros (Hoth & Hmeta & Hlen & Hbelow & _). repeat split; auto.
  intros j Hj. apply Hbelow. unfold size. lia.
Qed.

Lemma doSymv_weighted (m : MPI_Precon R) x y (st : nat → MPI_Vector R) :
  precon_data m ≠ [] →
  size (precon_data m) < 2 ^ 32 →
  size (data (st x)) < 2 ^ 32 →
  size (data (st y)) = size (data (st x)) →
  (DG_DEBUG = true →
     size (data (st x)) mod size (precon_data m) = 0 ∧
     stride (st x) = size (precon_data m)) →
  ∃ st', Precon.doSymv DG_DEBUG m x y st = Returns st' ∧
    (∀ a, a ≠ y → st' a = st a) ∧
    st' y = set_data (st y) (data (st' y)) ∧
    length (data (st' y)) = length (data (st y)) ∧
    (∀ j : nat, (j < length (data (st y)))%nat →
       data (st' y) !! j = weighted m (data (st x)) j).
Proof.
  intros Hne Hm Hx Hxy Hdbg. unfold Precon.doSymv.
  assert (0 < size (precon_data m)) as Hpos.
  { unfold size. destruct (precon_data m); [contradiction | simpl; lia]. }
  assert (0 ≤ size (data (st x))) as Hx0 by (unfold size; lia).
  rewrite !u32_small by lia.
  rewrite !assert_passes; try (intros Hd; destruct (Hdbg Hd); lia); try lia.
  simpl.
  destruct (for_loop_inv (λ i st', updated_below (weighted m (data (st x))) y st st' i)
    0 (size (data (st x)))
    (λ i st0,
       r ← Precon.remainder i (size (precon_data m));
       mv ← load (precon_data m) r;
       xv ← load (data (st0 x)) i;
       Precon.assign st0 y i (mul mv xv)) st) as (st' & Hrun & Hinv).
  - lia.
  - apply updated_below_start.
  - intros i st1 Hi Hinv.
    rewrite remainder_Returns by lia. simpl.
    destruct (load_in_range (precon_data m) (i mod size (precon_data m)))
      as (mv & -> & Lm); [apply Z.mod_pos_bound; lia|]. simpl.
    destruct (load_in_range (data (st1 x)) i) as (xv & -> & Lx).
    { rewrite (updated_below_size _ x y st st1 i Hinv). lia. }
    simpl. apply updated_below_step; [exact Hinv | lia |].
    rewrite (updated_below_read _ x y st st1 i Hinv) in Lx by lia.
    unfold weighted. rewrite Lx. simpl.
    rewrite Z2Nat.id by lia. rewrite Lm. reflexivity.
  - exists st'. split; [exact Hrun|].
    rewrite <- Hxy in Hinv. apply updated_below_end in Hinv. exact Hinv.
Qed.

Lemma doAxpby_value alpha x beta y (st : nat → MPI_Vector R) :
  size (data (st x)) < 2 ^ 32 →
  size (data (st y)) = size (data (st x)) →
  ∃ st', Precon.doAxpby alpha x beta y st = Returns st' ∧
    (∀ a, a ≠ y → st' a = st a) ∧
    st' y = set_data (st y) (data (st' y)) ∧
    length (data (st' y)) = length (data (st y)) ∧
    (∀ j : nat, (j < length (data (st y)))%nat →
       data (st' y) !! j = axpby_value alpha beta (data (st x)) (data (st y)) j).
Proof.
  intros Hx Hxy. unfold Precon.doAxpby.
  assert (0 ≤ size (data (st x))) as Hx0 by (unfold size; lia).
  rewrite !u32_small by lia.
  destruct (for_loop_inv
    (λ i st', updated_below
                (axpby_value alpha beta (data (st x)) (data (st y))) y st st' i)
    0 (size (data (st x)))
    (λ i st0,
       xv ← load (data (st0 x)) i;
       yv ← load (data (st0 y)) i;
       Precon.assign st0 y i (add (mul alpha xv) (mul beta yv))) st)
    as (st' & Hrun & Hinv).
  - lia.
  - apply updated_below_start.
  - intros i st1 Hi Hinv.
    destruct (load_in_range (data (st1 x)) i) as (xv & -> & Lx).
    { rewrite (updated_below_size _ x y st st1 i Hinv). lia. }
    destruct (load_in_range (data (st1 y)) i) as (yv & -> & Ly).
    { rewrite (updated_below_size _ y y st st1 i Hinv). lia. }
    simpl. apply updated_below_step; [exact Hinv | lia |].
    rewrite (updated_below_read _ x y st st1 i Hinv) in Lx by lia.
    rewrite (updated_below_read _ y y st st1 i Hinv) in Ly by lia.
    unfold axpby_value. rewrite Lx, Ly. reflexivity.
  - exists st'. split; [exact Hrun|].
    rewrite <- Hxy in Hinv. apply updated_below_end in Hinv. exact Hinv.
Qed.

Lemma doSymv_scaled_loop alpha (m : MPI_Precon R) x beta y (st : nat → MPI_Vector R) :
  0 < size (precon_data m) →
  size (data (st x)) < 2 ^ 32 →
  size (data (st y)) = size (data (st x)) →
  ∃ st',
    for_loop 0 (size (data (st x))) (λ i st0,
      r ← Precon.remainder i (size (precon_data m));
      mv ← load (precon_data m) r;
      xv ← load (data (st0 x)) i;
      yv ← load (data (st0 y)) i;
      Precon.assign st0 y i (add (mul (mul alpha mv) xv) (mul beta yv))) st
    = Returns st' ∧
    (∀ a, a ≠ y → st' a = st a) ∧
    st' y = set_data (st y) (data (st' y)) ∧
    length (data (st' y)) = length (data (st y)) ∧
    (∀ j : nat, (j < length (data (st y)))%nat →
       data (st' y) !! j = scaled_value alpha m beta (data (st x)) (data (st y)) j).
Proof.
  intros Hpos Hx Hxy.
  assert (0 ≤ size (data (st x))) as Hx0 by (unfold size; lia).
  destruct (for_loop_inv
    (λ i st', updated_below
                (scaled_value alpha m beta (data (st x)) (data (st y))) y st st' i)
    0 (size (data (st x)))
    (λ i st0,
      r ← Precon.remainder i (size (precon_data m));
      mv ← load (precon_data m) r;
      xv ← load (data (st0 x)) i;
      yv ← load (data (st0 y)) i;
      Precon.assign st0 y i (add (mul (mul alpha mv) xv) (mul beta yv))) st)
    as (st' & Hrun & Hinv).
  - lia.
  - apply updated_below_start.
  - intros i st1 Hi Hinv.
    rewrite remainder_Returns by lia. simpl.
    destruct (load_in_range (precon_data m) (i mod size (precon_data m)))
      as (mv & -> & Lm); [apply Z.mod_pos_bound; lia|]. simpl.
    destruct (load_in_range (data (st1 x)) i) as (xv & -> & Lx).
    { rewrite (updated_below_size _ x y st st1 i Hinv). lia. }
    destruct (load_in_range (data (st1 y)) i) as (yv & -> & Ly).
    { rewrite (updated_below_size _ y y st st1 i Hinv). lia. }
    simpl. apply updated_below_step; [exact Hinv | lia |].
    rewrite (updated_below_read _ x y st st1 i Hinv) in Lx by lia.
    rewrite (updated_below_read _ y y st st1 i Hinv) in Ly by lia.
    unfold scaled_value. rewrite Lx, Ly. simpl.
    rewrite Z2Nat.id by lia. rewrite Lm. reflexivity.
  - exists st'. split; [exact Hrun|].
    rewrite <- Hxy in Hinv. apply updated_below_end in Hinv. exact Hinv.
Qed.

Lemma scaled_value_defined alpha (m : MPI_Precon R) beta (xd yd : list R) (j : nat) :
  0 < size (precon_data m) → (j < length xd)%nat → length yd = length xd →
  ∃ xv yv mv, xd !! j = Some xv ∧ yd !! j = Some yv ∧
    precon_data m !! Z.to_nat (Z.of_nat j mod size (precon_data m)) = Some mv ∧
    scaled_value alpha m beta xd yd j =
    Some (add (mul (mul alpha mv) xv) (mul beta yv)).
Proof.
  intros Hpos Hj Hlen.
  destruct (lookup_lt_is_Some_2 xd j) as [xv Lx]; [lia|].
  destruct (lookup_lt_is_Some_2 yd j) as [yv Ly]; [lia|].
  destruct (lookup_lt_is_Some_2 (precon_data m)
              (Z.to_nat (Z.of_nat j mod size (precon_data m)))) as [mv Lm].
  { pose proof (Z.mod_pos_bound (Z.of_nat j) (size (precon_data m)) Hpos).
    unfold size in *. lia. }
  exists xv, yv, mv. unfold scaled_value. rewrite Lx, Ly. simpl. rewrite Lm.
  auto.
Qed.

Lemma doSymv_scaled_outcome alpha (m : MPI_Precon R) x beta y
    (st : nat → MPI_Vector R) :
  precon_data m ≠ [] →
  size (precon_data m) < 2 ^ 32 →
  size (data (st x)) < 2 ^ 32 →
  size (data (st y)) = size (data (st x)) →
  size (data (st x)) mod size (precon_data m) = 0 →
  stride (st x) = size (precon_data m) →
  ∃ st', Precon.doSymv_scaled DG_DEBUG alpha m x beta y st = Returns st' ∧
    (∀ a, a ≠ y → st' a = st a) ∧
    length (data (st' y)) = length (data (st y)) ∧
    (eqb alpha zero = true → eqb beta one = true → st' = st) ∧
    (eqb alpha zero = true → eqb beta one = false →
       ∀ j : nat, (j < length (data (st y)))%nat →
         data (st' y) !! j = axpby_value zero beta (data (st x)) (data (st y)) j) ∧
    (eqb alpha zero = false →
       ∀ j : nat, (j < length (data (st y)))%nat →
         data (st' y) !! j = scaled_value alpha m beta (data (st x)) (data (st y)) j).
Proof.
  intros Hne Hm Hx Hxy Hmod Hstr. unfold Precon.doSymv_scaled.
  assert (0 < size (precon_data m)) as Hpos.
  { unfold size. destruct (precon_data m); [contradiction | simpl; lia]. }
  assert (0 ≤ size (data (st x))) as Hx0 by (unfold size; lia).
  rewrite !u32_small by lia.
  rewrite !assert_passes by (intros _; lia). simpl.
  destruct (eqb alpha zero) eqn:Ea.
  - destruct (eqb beta one) eqn:Eb.
    + exists st. repeat split; auto; discriminate.
    + destruct (doAxpby_value zero x beta y st Hx Hxy)
        as (st' & Hrun & Hoth & _ & Hl & Hval).
      exists st'. repeat split; auto; discriminate.
  - destruct (doSymv_scaled_loop alpha m x beta y st Hpos Hx Hxy)
      as (st' & Hrun & Hoth & _ & Hl & Hval).
    exists st'. repeat split; auto; discriminate.
Qed.

(** With arithmetic without rounding the shortcuts for alpha == 0 leave
    the value of the general statement. *)
Lemma shortcut_values `{!ExactScalar R} (m : MPI_Precon R) beta (xd yd : list R)
    (j : nat) :
  0 < size (precon_data m) → (j < length xd)%nat → length yd = length xd →
  scaled_value zero m beta xd yd j = axpby_value zero beta xd yd j ∧
  scaled_value zero m one xd yd j = yd !! j.
Proof.
  intros Hpos Hj Hlen.
  destruct (scaled_value_defined zero m beta xd yd j Hpos Hj Hlen)
    as (xv & yv & mv & Lx & Ly & Lm & ->).
  destruct (scaled_value_defined zero m one xd yd j Hpos Hj Hlen)
    as (xv' & yv' & mv' & Lx' & Ly' & Lm' & ->).
  unfold axpby_value. rewrite Lx, Ly. simpl.
  rewrite !mul_zero_l, !mul_one_l, !add_zero_l.
  split; [reflexivity | congruence].
Qed.

End Weightings.

(** ** The reduction reads the cells inside the ghost layers *)

Section Interior.
Context {R : Type} `{Scalar R}.
Variable DG_DEBUG : bool.

Lemma cell_in_range (Nz Ny Nx stride k i j l : Z) :
  0 ≤ k < Nz → 0 ≤ i < Ny → 0 ≤ j < Nx → 0 ≤ l < stride →
  0 ≤ ((k * Ny + i) * Nx + j) * stride + l < Nz * Ny * Nx * stride.
Proof.
  intros Hk Hi Hj Hl.
  assert (0 ≤ k * Ny + i ≤ Nz * Ny - 1) as H1 by nia.
  assert (0 ≤ (k * Ny + i) * Nx + j ≤ Nz * Ny * Nx - 1) as H2 by nia.
  nia.
Qed.

Lemma interior_load (x1 x2 : MPI_Vector R) (d1 d2 : list R) k i j l :
  shaped x1 →
  Nz x1 = Nz x2 → Ny x1 = Ny x2 → Nx x1 = Nx x2 → stride x1 = stride x2 →
  length d1 = length d2 →
  (size d1 = 0 ∨ 1 ≤ Ny x1 ∧ 1 ≤ Nx x1) →
  (∀ t, interior x1 t → d1 !! Z.to_nat t = d2 !! Z.to_nat t) →
  0 ≤ k < Nz x1 → 1 ≤ i < u32 (Ny x1 - 1) → 1 ≤ j < u32 (Nx x1 - 1) →
  0 ≤ l < stride x1 →
  load d1 (Precon.cell_index x1 k i j l) = load d2 (Precon.cell_index x2 k i j l).
Proof.
  intros (HNz & HNy & HNx & Hst & Hsz & Hlt) E1 E2 E3 E4 Hlen Hcase Hag Hk Hi Hj Hl.
  unfold Precon.cell_index. rewrite <- E2, <- E3, <- E4.
  destruct Hcase as [Hempty | [Hy Hx]].
  - rewrite !load_out_of_range; [reflexivity|..]; unfold size in *.
    + rewrite <- Hlen. pose proof (Z.mod_pos_bound
        (((k * Ny x1 + i) * Nx x1 + j) * stride x1 + l) (2 ^ 32)).
      unfold u32. lia.
    + pose proof (Z.mod_pos_bound
        (((k * Ny x1 + i) * Nx x1 + j) * stride x1 + l) (2 ^ 32)).
      unfold u32. lia.
  - rewrite (u32_small (Ny x1 - 1)) in Hi by lia.
    rewrite (u32_small (Nx x1 - 1)) in Hj by lia.
    unfold load, size. rewrite Hlen.
    rewrite (Hag (u32 (((k * Ny x1 + i) * Nx x1 + j) * stride x1 + l)));
      [reflexivity|].
    exists k, i, j, l. repeat split; try lia.
    apply u32_small.
    pose proof (cell_in_range (Nz x1) (Ny x1) (Nx x1) (stride x1) k i j l).
    nia.
Qed.


Lemma shaped_cases (x : MPI_Vector R) :
  shaped x → size (data x) = 0 ∨ 1 ≤ Ny x ∧ 1 ≤ Nx x.
Proof.
  intros (HNz & HNy & HNx & Hst & Hsz & Hlt).
  destruct (decide (Ny x = 0)) as [E|?]; [left; rewrite Hsz, E; lia|].
  destruct (decide (Nx x = 0)) as [E|?]; [left; rewrite Hsz, E; lia|].
  right. lia.
Qed.

Lemma doDot_temp_interior (x1 x2 y1 y2 : MPI_Vector R) (m : MPI_Precon R) :
  shaped x1 →
  length (data y1) = length (data x1) →
  same_interior x1 x2 →
  length (data y1) = length (data y2) →
  (∀ t, interior x1 t → data y1 !! Z.to_nat t = data y2 !! Z.to_nat t) →
  Precon.doDot_temp DG_DEBUG x1 m y1 = Precon.doDot_temp DG_DEBUG x2 m y2.
Proof.
  intros Hsh Hyx (E1 & E2 & E3 & E4 & Hlx & Hax) Hly Hay.
  pose proof (shaped_cases x1 Hsh) as Hcase.
  unfold Precon.doDot_temp.
  assert (size (data x2) = size (data x1)) as -> by (unfold size; lia).
  assert (size (data y2) = size (data y1)) as -> by (unfold size; lia).
  rewrite <- E1, <- E2, <- E3, <- E4.
  apply outcome_bind_ext; intros _ _.
  apply outcome_bind_ext; intros _ _.
  apply for_loop_ext; intros k s0 Hk.
  apply for_loop_ext; intros i s1 Hi.
  apply for_loop_ext; intros j s2 Hj.
  apply for_loop_ext; intros l temp Hl.
  rewrite (interior_load x1 x2 (data x1) (data x2) k i j l); auto.
  rewrite (interior_load x1 x2 (data y1) (data y2) k i j l); auto.
  destruct Hcase as [Hz|?]; [left|right; assumption].
  unfold size in *. lia.
Qed.

Lemma doDot_temps_interior
    (w1 w2 : list (MPI_Vector R * MPI_Precon R * MPI_Vector R)) :
  Forall2 same_interiors w1 w2 →
  mapM (λ '(x, m, y), Precon.doDot_temp DG_DEBUG x m y) w1 =
  mapM (λ '(x, m, y), Precon.doDot_temp DG_DEBUG x m y) w2.
Proof.
  induction 1 as [|[[x1 m1] y1] [[x2 m2] y2] w1 w2 Hab Hw IH]; [reflexivity|].
  destruct Hab as (Hsh & Hyx & Hm & Hx & Hly & Hy). simpl in *. subst m2.
  rewrite (doDot_temp_interior x1 x2 y1 y2 m1); auto.
  rewrite IH. reflexivity.
Qed.

End Interior.

(** ** symv: the preconditioner *)

Section Preconditioner.
Context {R : Type} `{Scalar R}.
Variable DG_DEBUG : bool.
Variable x_col x_row : MPI_Comm → MPI_Vector R → MPI_Vector R.

Lemma symv_precond_weighted (M : MPI_Matrix R) (y3 : MPI_Vector R) :
  size (precon_data (p_ M)) < 2 ^ 32 →
  size (data y3) < 2 ^ 32 →
  (DG_DEBUG = true → precon_data (p_ M) ≠ [] →
     size (data y3) mod size (precon_data (p_ M)) = 0 ∧
     stride y3 = size (precon_data (p_ M))) →
  ∃ y4, symv_precond DG_DEBUG M y3 = Returns y4 ∧
    (precon_data (p_ M) = [] → y4 = y3) ∧
    (precon_data (p_ M) ≠ [] →
       y4 = set_data y3 (data y4) ∧
       length (data y4) = length (data y3) ∧
       ∀ j : nat, (j < length (data y3))%nat →
         data y4 !! j = weighted (p_ M) (data y3) j).
Proof.
  intros Hp Hy Hdbg. unfold symv_precond.
  destruct (precon_data (p_ M)) as [|p0 ps] eqn:Ep.
  - exists y3. split; [reflexivity|]. split; [reflexivity|].
    intros Hne. contradiction.
  - simpl negb. cbv iota.
    destruct (doSymv_weighted DG_DEBUG (p_ M) 0%nat 0%nat (λ _, y3))
      as (st' & Hrun & _ & Hmeta & Hlen & Hval).
    + rewrite Ep. discriminate.
    + rewrite Ep. exact Hp.
    + exact Hy.
    + reflexivity.
    + rewrite Ep. intros Hd. apply Hdbg; [exact Hd | discriminate].
    + rewrite Hrun. exists (st' 0%nat). split; [reflexivity|].
      split; [discriminate|]. intros _. auto.
Qed.

Lemma symv_after_unweighted (M : MPI_Matrix R) x y ev x' y3 y4 :
  symv_unweighted DG_DEBUG x_col x_row M x y = Comp ev (Returns (x', y3)) →
  symv_precond DG_DEBUG M y3 = Returns y4 →
  symv DG_DEBUG x_col x_row M x y = Comp ev (Returns (x', y4)).
Proof.
  intros Hun Hpre. unfold symv. rewrite Hun.
  unfold mbind at 1, comp_bind. simpl. rewrite Hpre. simpl.
  rewrite !app_nil_r. reflexivity.
Qed.
End Preconditioner.

(** ** The boundary rows *)

Section Boundary.
Context {R : Type} `{Scalar R}.

(** Into the nest of loops, with one lemma per loop. *)
Ltac into_loops lem :=
  repeat (apply lem; intros ? ?).

(** The step of counter [c] of a loop clears the position; the loops
    inside every other step keep it cleared. *)
Ltac cleared_at b c :=
  apply (for_loop_sets_up _ _ _ _ c);
  [ lia
  | intros ? ?; into_loops (@for_loop_keeps (list R));
    apply (clear_step_keeps (row_ b))
  | ].

(** Two runs of the first pass end alike, with every written position
    cleared. *)
Lemma cleared_alike (T : Z → Prop) (pass : list R → outcome (list R))
    (yd1 yd2 : list R) :
  related_steps (λ v1 v2 : list R, length v1 = length v2) pass pass →
  (∀ t, T t → sets_up (λ yd : list R, yd !! Z.to_nat t = Some zero) pass) →
  length yd1 = length yd2 →
  orel (agree_on T) (pass yd1) (pass yd2).
Proof.
  intros Hrel Hset Hlen. specialize (Hrel yd1 yd2 Hlen).
  destruct (pass yd1) as [z1| |] eqn:E1, (pass yd2) as [z2| |] eqn:E2;
    simpl in Hrel |- *; try contradiction; trivial.
  split; [exact Hrel|].
  intros t Ht. rewrite (Hset t Ht _ _ E1), (Hset t Ht _ _ E2). reflexivity.
Qed.

Lemma applyX_overwrites (b : BoundaryTerms R) x (y1 y2 : MPI_Vector R) :
  length (data y1) = length (data y2) →
  data_ b ≠ [] →
  orel (overwritten (targeted_X b x)) (applyX b x y1) (applyX b x y2).
Proof.
  intros Hlen Hne. unfold applyX.
  assert (is_empty (data_ b) = false) as ->
    by (destruct (data_ b); [contradiction | reflexivity]).
  eapply orel_bind; [|intros z1 z2 Hz; eapply orel_bind;
                       [|intros a1 a2 Ha; exact Ha]].
  - (* the first pass *)
    apply (cleared_alike (targeted_X b x)); [| |exact Hlen].
    + into_loops (@for_loop_related (list R) (list R)).
      apply (clear_step_related (row_ b)).
    + intros t (m & r & s & i & k & l & Hm & Hr & Hs & Hi & Hk & Hl & ->).
      cleared_at b m. cleared_at b s. cleared_at b i. cleared_at b k.
      cleared_at b l. cleared_at b 0.
      apply (clear_step_sets_up (row_ b) m
               (λ r, u32 (point (Ny x) (Nx x) (n x) s i k (r + 1) l)) r);
        [lia | exact Hr].
  - (* the second pass *)
    revert z1 z2 Hz.
    into_loops (@for_loop_related (list R) (list R)).
    match goal with
    | Hm : _ ≤ ?m < size (data_ b), Hs : _ ≤ ?s < Nz x,
      Hi : _ ≤ ?i < u32 _, Hk : _ ≤ ?k < n x, Hl : _ ≤ ?l < n x,
      Hq : _ ≤ ?q < n x |- _ =>
        apply (add_step_related (targeted_X b x) (row_ b) (col_ b) (data_ b)
                 (data x) m (u32 (l * n x + q))
                 (λ r, u32 (point (Ny x) (Nx x) (n x) s i k (r + 1) l))
                 (λ c, u32 (point (Ny x) (Nx x) (n x) s i k (c + 1) q)));
        intros r Hr; exists m, r, s, i, k, l; auto 10
    end.
Qed.

Lemma applyY_overwrites (b : BoundaryTerms R) x (y1 y2 : MPI_Vector R) :
  length (data y1) = length (data y2) →
  data_ b ≠ [] →
  orel (overwritten (targeted_Y b x)) (applyY b x y1) (applyY b x y2).
Proof.
  intros Hlen Hne. unfold applyY.
  assert (is_empty (data_ b) = false) as ->
    by (destruct (data_ b); [contradiction | reflexivity]).
  eapply orel_bind; [|intros z1 z2 Hz; eapply orel_bind;
                       [|intros a1 a2 Ha; exact Ha]].
  - (* the first pass *)
    apply (cleared_alike (targeted_Y b x)); [| |exact Hlen].
    + into_loops (@for_loop_related (list R) (list R)).
      apply (clear_step_related (row_ b)).
    + intros t (m & r & s & k & j & l & Hm & Hr & Hs & Hk & Hj & Hl & ->).
      cleared_at b m. cleared_at b s. cleared_at b k. cleared_at b j.
      cleared_at b l. cleared_at b 0.
      apply (clear_step_sets_up (row_ b) m
               (λ r, u32 (point (Ny x) (Nx x) (n x) s (r + 1) k j l)) r);
        [lia | exact Hr].
  - (* the second pass *)
    revert z1 z2 Hz.
    into_loops (@for_loop_related (list R) (list R)).
    match goal with
    | Hm : _ ≤ ?m < size (data_ b), Hs : _ ≤ ?s < Nz x,
      Hk : _ ≤ ?k < n x, Hj : _ ≤ ?j < u32 _, Hl : _ ≤ ?l < n x,
      Hp : _ ≤ ?p < n x |- _ =>
        apply (add_step_related (targeted_Y b x) (row_ b) (col_ b) (data_ b)
                 (data x) m (u32 (k * n x + p))
                 (λ r, u32 (point (Ny x) (Nx x) (n x) s (r + 1) k j l))
                 (λ c, u32 (point (Ny x) (Nx x) (n x) s (c + 1) p j l)));
        intros r Hr; exists m, r, s, k, j, l; auto 10
    end.
Qed.

End Boundary.

(** ** The calls return on vectors of the right layout *)

Lemma for_loop_succeeds {S} (Inv : S → Prop) lo hi (body : Z → S → outcome S) :
  (∀ i, lo ≤ i < hi → succeeds Inv (body i)) →
  succeeds Inv (for_loop lo hi body).
Proof.
  intros Hb s Hs. unfold for_loop. apply foldM_total; auto.
  intros a s1 Ha%elem_of_range. apply Hb, Ha.
Qed.

Lemma point_in_range (Nz rows cols n s i k j l : Z) :
  0 ≤ s < Nz → 0 ≤ i < rows → 0 ≤ k < n → 0 ≤ j < cols → 0 ≤ l < n →
  0 ≤ point rows cols n s i k j l < Nz * rows * n * cols * n.
Proof.
  intros Hs Hi Hk Hj Hl. unfold point.
  assert (0 ≤ s * rows + i ≤ Nz * rows - 1) as H1 by nia.
  assert (0 ≤ (s * rows + i) * n + k ≤ Nz * rows * n - 1) as H2 by nia.
  assert (0 ≤ ((s * rows + i) * n + k) * cols + j ≤ Nz * rows * n * cols - 1)
    as H3 by nia.
  nia.
Qed.

Section Returning.
Context {R : Type} `{Scalar R}.

Lemma clear_step_succeeds (len : nat) rows m f r :
  0 ≤ m → rows !! Z.to_nat m = Some r → 0 ≤ f r < Z.of_nat len →
  succeeds (λ yd : list R, length yd = len) (clear_step rows m f).
Proof.
  intros Hm Hr Hf yd Hlen. unfold clear_step.
  assert (load rows m = Returns r) as -> by (apply load_Returns; auto).
  simpl. eexists. split.
  - apply store_Returns. split; [unfold size; lia | reflexivity].
  - rewrite length_insert. exact Hlen.
Qed.

Lemma add_step_succeeds (len : nat) rows cols blocks (xd : list R) m ia f g
    r c block :
  0 ≤ m → rows !! Z.to_nat m = Some r → cols !! Z.to_nat m = Some c →
  blocks !! Z.to_nat m = Some block →
  0 ≤ ia < size block → 0 ≤ g c < size xd → 0 ≤ f r < Z.of_nat len →
  succeeds (λ yd : list R, length yd = len)
    (add_step rows cols blocks xd m ia f g).
Proof.
  intros Hm Hr Hc Hb Hia Hg Hf yd Hlen. unfold add_step.
  assert (load rows m = Returns r) as -> by (apply load_Returns; auto).
  assert (load cols m = Returns c) as -> by (apply load_Returns; auto).
  assert (load blocks m = Returns block) as -> by (apply load_Returns; auto).
  simpl.
  destruct (load_in_range block ia Hia) as (a & -> & _).
  destruct (load_in_range xd (g c) Hg) as (xv & -> & _).
  destruct (load_in_range yd (f r)) as (yv & -> & _); [unfold size; lia|].
  simpl. eexists. split.
  - apply store_Returns. split; [unfold size; lia | reflexivity].
  - rewrite length_insert. exact Hlen.
Qed.

Lemma applyX_returns (b : BoundaryTerms R) (x y : MPI_Vector R) :
  laid_out x → size (data y) = size (data x) → 1 ≤ Ny x →
  fits b (n x) (Nx x) →
  ∃ y', applyX b x y = Returns y'.
Proof.
  intros (HNz & HNy & HNx & Hn & Hsz & Hlt) Hy Hrows Hfit. unfold applyX.
  destruct (is_empty (data_ b)); [eauto|].
  rewrite (u32_small (Ny x - 1)) by lia.
  assert (∀ s i k j l, 0 ≤ s < Nz x → 1 ≤ i < Ny x - 1 → 0 ≤ k < n x →
            0 ≤ j < Nx x → 0 ≤ l < n x →
            0 ≤ u32 (point (Ny x) (Nx x) (n x) s i k j l)
              < Z.of_nat (length (data y))) as Hpoint.
  { intros s i k j l Hs Hi Hk Hj Hl.
    pose proof (point_in_range (Nz x) (Ny x) (Nx x) (n x) s i k j l).
    unfold size in *. rewrite u32_small; lia. }
  match goal with |- context [for_loop 0 (size (data_ b)) ?body (data y)] =>
    destruct (for_loop_succeeds (λ yd : list R, length yd = length (data y))
                0 (size (data_ b)) body) with (s := data y)
      as (yd1 & -> & Hlen1); [|reflexivity|]
  end.
  { intros m Hm. destruct (Hfit m Hm) as (r & c & block & Hr & Hc & Hb & Hrr & Hcc & Hbs).
    apply for_loop_succeeds; intros s Hs.
    apply for_loop_succeeds; intros i Hi.
    apply for_loop_succeeds; intros k Hk.
    apply for_loop_succeeds; intros l Hl.
    apply for_loop_succeeds; intros q Hq.
    apply (clear_step_succeeds _ (row_ b) m
             (λ r, u32 (point (Ny x) (Nx x) (n x) s i k (r + 1) l)) r);
      [lia | exact Hr | apply Hpoint; lia]. }
  simpl.
  match goal with |- context [for_loop 0 (size (data_ b)) ?body yd1] =>
    destruct (for_loop_succeeds (λ yd : list R, length yd = length (data y))
                0 (size (data_ b)) body) with (s := yd1)
      as (yd2 & -> & Hlen2); [|exact Hlen1|]
  end.
  { intros m Hm. destruct (Hfit m Hm) as (r & c & block & Hr & Hc & Hb & Hrr & Hcc & Hbs).
    apply for_loop_succeeds; intros s Hs.
    apply for_loop_succeeds; intros i Hi.
    apply for_loop_succeeds; intros k Hk.
    apply for_loop_succeeds; intros l Hl.
    apply for_loop_succeeds; intros q Hq.
    apply (add_step_succeeds _ (row_ b) (col_ b) (data_ b) (data x) m
             (u32 (l * n x + q))
             (λ r, u32 (point (Ny x) (Nx x) (n x) s i k (r + 1) l))
             (λ c, u32 (point (Ny x) (Nx x) (n x) s i k (c + 1) q)) r c block);
      [lia | exact Hr | exact Hc | exact Hb | | |].
    - assert (1 ≤ Nz x * Ny x) as Ha by nia.
      assert (1 ≤ Nz x * Ny x * Nx x) as Hb' by nia.
      assert (0 ≤ n x * n x) as Hc' by nia.
      assert (1 * (n x * n x) ≤ (Nz x * Ny x * Nx x) * (n x * n x)) as Hnn
        by (apply Z.mul_le_mono_nonneg_r; assumption).
      assert (0 ≤ l * n x + q < n x * n x) as Hlq by nia.
      rewrite Hbs, u32_small; lia.
    - unfold size in Hy |- *. rewrite <- Hy. apply Hpoint; lia.
    - apply Hpoint; lia. }
  simpl. eauto.
Qed.
Lemma applyY_returns (b : BoundaryTerms R) (x y : MPI_Vector R) :
  laid_out x → size (data y) = size (data x) → 1 ≤ Nx x →
  fits b (n x) (Ny x) →
  ∃ y', applyY b x y = Returns y'.
Proof.
  intros (HNz & HNy & HNx & Hn & Hsz & Hlt) Hy Hcols Hfit. unfold applyY.
  destruct (is_empty (data_ b)); [eauto|].
  rewrite (u32_small (Nx x - 1)) by lia.
  assert (∀ s i k j l, 0 ≤ s < Nz x → 0 ≤ i < Ny x → 0 ≤ k < n x →
            1 ≤ j < Nx x - 1 → 0 ≤ l < n x →
            0 ≤ u32 (point (Ny x) (Nx x) (n x) s i k j l)
              < Z.of_nat (length (data y))) as Hpoint.
  { intros s i k j l Hs Hi Hk Hj Hl.
    pose proof (point_in_range (Nz x) (Ny x) (Nx x) (n x) s i k j l).
    unfold size in *. rewrite u32_small; lia. }
  match goal with |- context [for_loop 0 (size (data_ b)) ?body (data y)] =>
    destruct (for_loop_succeeds (λ yd : list R, length yd = length (data y))
                0 (size (data_ b)) body) with (s := data y)
      as (yd1 & -> & Hlen1); [|reflexivity|]
  end.
  { intros m Hm. destruct (Hfit m Hm) as (r & c & block & Hr & Hc & Hb & Hrr & Hcc & Hbs).
    apply for_loop_succeeds; intros s Hs.
    apply for_loop_succeeds; intros k Hk.
    apply for_loop_succeeds; intros j Hj.
    apply for_loop_succeeds; intros l Hl.
    apply for_loop_succeeds; intros p Hp.
    apply (clear_step_succeeds _ (row_ b) m
             (λ r, u32 (point (Ny x) (Nx x) (n x) s (r + 1) k j l)) r);
      [lia | exact Hr | apply Hpoint; lia]. }
  simpl.
  match goal with |- context [for_loop 0 (size (data_ b)) ?body yd1] =>
    destruct (for_loop_succeeds (λ yd : list R, length yd = length (data y))
                0 (size (data_ b)) body) with (s := yd1)
      as (yd2 & -> & Hlen2); [|exact Hlen1|]
  end.
  { intros m Hm. destruct (Hfit m Hm) as (r & c & block & Hr & Hc & Hb & Hrr & Hcc & Hbs).
    apply for_loop_succeeds; intros s Hs.
    apply for_loop_succeeds; intros k Hk.
    apply for_loop_succeeds; intros j Hj.
    apply for_loop_succeeds; intros l Hl.
    apply for_loop_succeeds; intros p Hp.
    apply (add_step_succeeds _ (row_ b) (col_ b) (data_ b) (data x) m
             (u32 (k * n x + p))
             (λ r, u32 (point (Ny x) (Nx x) (n x) s (r + 1) k j l))
             (λ c, u32 (point (Ny x) (Nx x) (n x) s (c + 1) p j l)) r c block);
      [lia | exact Hr | exact Hc | exact Hb | | |].
    - assert (1 ≤ Nz x * Ny x) as Ha by nia.
      assert (1 ≤ Nz x * Ny x * Nx x) as Hb' by nia.
      assert (0 ≤ n x * n x) as Hc' by nia.
      assert (1 * (n x * n x) ≤ (Nz x * Ny x * Nx x) * (n x * n x)) as Hnn
        by (apply Z.mul_le_mono_nonneg_r; assumption).
      assert (0 ≤ k * n x + p < n x * n x) as Hlq by nia.
      rewrite Hbs, u32_small; lia.
    - unfold size in Hy |- *. rewrite <- Hy. apply Hpoint; lia.
    - apply Hpoint; lia. }
  simpl. eauto.
Qed.

Lemma doDot_temp_returns (DG_DEBUG : bool) (x y : MPI_Vector R) (m : MPI_Precon R) :
  shaped x → 1 ≤ Ny x → 1 ≤ Nx x →
  size (data y) = size (data x) → size (precon_data m) = stride x →
  ∃ temp, Precon.doDot_temp DG_DEBUG x m y = Returns temp.
Proof.
  intros (HNz & HNy & HNx & Hst & Hsz & Hlt) Hrows Hcols Hy Hm.
  unfold Precon.doDot_temp.
  rewrite !assert_passes by (intros _; lia). simpl.
  rewrite (u32_small (Ny x - 1)), (u32_small (Nx x - 1)) by lia.
  match goal with |- context [for_loop 0 (Nz x) ?body zero] =>
    destruct (for_loop_succeeds (λ _ : R, True) 0 (Nz x) body) with (s := zero)
      as (temp & -> & _); [|exact I|eauto]
  end.
  intros k Hk.
  apply for_loop_succeeds; intros i Hi.
  apply for_loop_succeeds; intros j Hj.
  apply for_loop_succeeds; intros l Hl.
  intros temp _.
  assert (0 ≤ Precon.cell_index x k i j l < size (data x)) as Hcell.
  { unfold Precon.cell_index.
    pose proof (cell_in_range (Nz x) (Ny x) (Nx x) (stride x) k i j l).
    rewrite u32_small; lia. }
  destruct (load_in_range (data x) _ Hcell) as (xv & -> & _).
  destruct (load_in_range (precon_data m) l) as (mv & -> & _); [lia|].
  destruct (load_in_range (data y) (Precon.cell_index x k i j l))
    as (yv & -> & _); [lia|].
  simpl. eauto.
Qed.

Lemma doDot_returns (DG_DEBUG : bool)
    (ranks : list (MPI_Vector R * MPI_Precon R * MPI_Vector R)) :
  ranks ≠ [] → Forall reducible ranks →
  ∃ sum, Precon.doDot DG_DEBUG ranks
         = Comp [Allreduce MPI_COMM_WORLD] (Returns sum).
Proof.
  intros Hne Hall. unfold Precon.doDot.
  assert (∃ temps, mapM (λ '(x, m, y), Precon.doDot_temp DG_DEBUG x m y) ranks
                   = Returns temps ∧ length temps = length ranks)
    as (temps & -> & Hlen).
  { clear Hne. induction Hall as [|[[x m] y] ranks Ha Hall IH].
    - exists []. split; reflexivity.
    - destruct Ha as (Hsh & Hrows & Hcols & Hy & Hm). simpl in *.
      destruct (doDot_temp_returns DG_DEBUG x y m Hsh Hrows Hcols Hy Hm)
        as (temp & ->).
      destruct IH as (temps & -> & Hlen).
      exists (temp :: temps). split; [reflexivity | simpl; lia]. }
  destruct temps as [|t ts].
  - destruct ranks; [contradiction | discriminate].
  - eexists. reflexivity.
Qed.
End Returning.

(** ** Loops that end early, and loops that do nothing *)

Lemma for_loop_empty {S} lo hi (body : Z → S → outcome S) s :
  hi ≤ lo → for_loop lo hi body s = Returns s.
Proof.
  intros Hle. unfold for_loop. rewrite range_nil by exact Hle. reflexivity.
Qed.

Lemma for_loop_skip {S} lo hi (body : Z → S → outcome S) s :
  (∀ i s, lo ≤ i < hi → body i s = Returns s) →
  for_loop lo hi body s = Returns s.
Proof.
  intros Hb.
  destruct (for_loop_succeeds (λ s', s' = s) lo hi body) with (s := s)
    as (s' & -> & ->); [|reflexivity|reflexivity].
  intros i Hi s1 ->. exists s. split; [apply Hb, Hi | reflexivity].
Qed.

(** The steps before [a] return and keep [Inv]; step [a] is undefined
    under [Inv]: so is the loop. *)
Lemma for_loop_stops {S} (Inv : S → Prop) lo a hi (body : Z → S → outcome S) s :
  lo ≤ a < hi → Inv s →
  (∀ i, lo ≤ i < a → succeeds Inv (body i)) →
  (∀ s, Inv s → body a s = Undefined) →
  for_loop lo hi body s = Undefined.
Proof.
  intros Ha Hs Hbefore Hbad. unfold for_loop.
  remember (Z.to_nat (a - lo)) as k eqn:Hk.
  revert lo s Ha Hs Hbefore Hk. induction k as [|k IH]; intros lo s Ha Hs Hbefore Hk.
  - assert (a = lo) as -> by lia. rewrite range_cons by lia. simpl.
    rewrite (Hbad s Hs). reflexivity.
  - rewrite range_cons by lia. simpl.
    destruct (Hbefore lo) with (s := s) as (s1 & -> & Hs1); [lia | exact Hs |].
    simpl. apply IH; auto; try lia.
    intros i Hi. apply Hbefore. lia.
Qed.

(** ** symv: the MPI calls, and the matrix as the constructors leave it *)

Section SymvCalls.
Context {R : Type} `{Scalar R}.
Variable DG_DEBUG : bool.
Variable x_col x_row : MPI_Comm → MPI_Vector R → MPI_Vector R.

Lemma symv_events_any (M : MPI_Matrix R) x y :
  events (symv DG_DEBUG x_col x_row M x y) =
  Comm_rank (comm_ M)
  :: match symv_update M with
     | Returns u =>
         (if u.1 then [Exchange_col (comm_ M)] else [])
         ++ (if u.2 then [Exchange_row (comm_ M)] else [])
     | _ => []
     end.
Proof.
  unfold symv. rewrite events_bind.
  assert (events (symv_unweighted DG_DEBUG x_col x_row M x y) =
          Comm_rank (comm_ M)
          :: match symv_update M with
             | Returns u =>
                 (if u.1 then [Exchange_col (comm_ M)] else [])
                 ++ (if u.2 then [Exchange_row (comm_ M)] else [])
             | _ => []
             end) as ->.
  { unfold symv_unweighted. rewrite events_emit_bind, events_lift_bind.
    destruct (symv_update M) as [u| |]; [|reflexivity..].
    destruct (symv_exchange_result x_col x_row M u x) as [x' Hx'].
    rewrite events_bind, Hx', symv_exchange_events.
    rewrite silent_nil, app_nil_r; [reflexivity|].
    auto 10 with silent. }
  rewrite <- (app_nil_r (_ :: _)) at 2. f_equal.
  destruct (result _) as [[x' y']| |]; auto.
  apply silent_nil. auto with silent.
Qed.

Lemma existsb_nonempty_replicate {A} (k : nat) :
  existsb nonempty (replicate k ([] : list A)) = false.
Proof. induction k; simpl; auto. Qed.

Lemma symv_blocks_empty (M : MPI_Matrix R) (x : MPI_Vector R) (yd : list R) :
  length (dataX_ M) = length (dataY_ M) →
  (∀ blk, blk ∈ dataX_ M → blk = []) → (∀ blk, blk ∈ dataY_ M → blk = []) →
  symv_blocks M x yd = Returns yd.
Proof.
  intros Hlen HX HY. unfold symv_blocks.
  apply for_loop_skip. intros m yd' Hm.
  destruct (load_in_range (dataX_ M) m Hm) as (dX & -> & LX).
  destruct (load_in_range (dataY_ M) m) as (dY & EY & LY);
    [unfold size in *; lia|].
  rewrite (HX dX) by (eapply list_elem_of_lookup_2; exact LX).
  simpl. rewrite EY. rewrite (HY dY) by (eapply list_elem_of_lookup_2; exact LY).
  reflexivity.
Qed.

End SymvCalls.

(** ** What the loops of symv leave as it was *)

Lemma u32_nonneg z : 0 ≤ u32 z.
Proof. unfold u32. apply Z.mod_pos_bound. lia. Qed.

Lemma store_holds_at {A} (len t : nat) (v : option A) (yd yd' : list A) p a :
  store yd p a = Returns yd' → Z.to_nat p ≠ t →
  holds_at len t v yd → holds_at len t v yd'.
Proof.
  intros [Hp ->]%store_Returns Hne [Hlen Hv]. split.
  - rewrite length_insert. exact Hlen.
  - rewrite list_lookup_insert_ne by exact Hne. exact Hv.
Qed.

(** The first read of a statement, with a name for its value. *)
Ltac first_read H a E :=
  match type of H with
  | (?o ≫= _) = Returns _ =>
      destruct o as [a| |] eqn:E; simpl in H; try discriminate H
  end.

(** Through the reads of a statement to the write at its end. *)
Ltac through_reads H :=
  repeat match type of H with
         | (?o ≫= _) = Returns _ =>
             let E := fresh "E" in
             destruct o eqn:E; simpl in H; try discriminate H
         end.

Section Frames.
Context {R : Type} `{Scalar R}.

Lemma clear_step_holds_at (len t : nat) (v : option R) rows m f :
  (∀ r, rows !! Z.to_nat m = Some r → Z.to_nat (f r) ≠ t) →
  keeps (holds_at len t v) (clear_step rows m f).
Proof.
  intros Hne yd1 yd2 Hstep. unfold clear_step in Hstep.
  through_reads Hstep.
  apply load_Returns in E as [_ E].
  eapply store_holds_at; eauto.
Qed.

Lemma add_step_holds_at (len t : nat) (v : option R) rows cols blocks xd m ia f g :
  (∀ r, rows !! Z.to_nat m = Some r → Z.to_nat (f r) ≠ t) →
  keeps (holds_at len t v) (add_step rows cols blocks xd m ia f g).
Proof.
  intros Hne yd1 yd2 Hstep. unfold add_step in Hstep.
  through_reads Hstep.
  apply load_Returns in E as [_ E].
  eapply store_holds_at; eauto.
Qed.

Lemma applyX_holds_at (b : BoundaryTerms R) (x y y' : MPI_Vector R) (t : nat) :
  applyX b x y = Returns y' → ¬ targeted_X b x (Z.of_nat t) →
  y' = set_data y (data y') ∧
  holds_at (length (data y)) t (data y !! t) (data y').
Proof.
  intros Hrun Hnot. unfold applyX in Hrun.
  destruct (is_empty (data_ b)).
  { injection Hrun as <-. split; [destruct y; reflexivity | split; reflexivity]. }
  first_read Hrun yd1 E1. first_read Hrun yd2 E2.
  injection Hrun as <-. split; [reflexivity|]. simpl.
  assert (∀ m r s i k l, 0 ≤ m < size (data_ b) → 0 ≤ s < Nz x →
            1 ≤ i < u32 (Ny x - 1) → 0 ≤ k < n x → 0 ≤ l < n x →
            row_ b !! Z.to_nat m = Some r →
            Z.to_nat (u32 (point (Ny x) (Nx x) (n x) s i k (r + 1) l)) ≠ t)
    as Hother.
  { intros m r s i k l Hm Hs Hi Hk Hl Hr Heq. apply Hnot.
    exists m, r, s, i, k, l. repeat split; try lia; try exact Hr.
    rewrite <- Heq. rewrite Z2Nat.id by apply u32_nonneg. reflexivity. }
  assert (holds_at (length (data y)) t (data y !! t) yd1) as Hfirst.
  { match type of E1 with
    | ?pass _ = _ =>
        apply (λ Hk : keeps (holds_at (length (data y)) t (data y !! t)) pass,
                 Hk _ _ E1 (conj eq_refl eq_refl))
    end.
    repeat (apply for_loop_keeps; intros ? ?).
    match goal with
    | Hm : _ ≤ ?m < size (data_ b), Hs : _ ≤ ?s < Nz x,
      Hi : _ ≤ ?i < u32 _, Hk : _ ≤ ?k < n x, Hl : _ ≤ ?l < n x,
      Hq : _ ≤ ?q < n x |- _ =>
        apply (clear_step_holds_at _ t _ (row_ b) m
                 (λ r, u32 (point (Ny x) (Nx x) (n x) s i k (r + 1) l)));
        intros r Hr; apply (Hother m r s i k l); auto
    end. }
  match type of E2 with
  | ?pass _ = _ =>
      apply (λ Hk : keeps (holds_at (length (data y)) t (data y !! t)) pass,
               Hk _ _ E2 Hfirst)
  end.
  repeat (apply for_loop_keeps; intros ? ?).
  match goal with
  | Hm : _ ≤ ?m < size (data_ b), Hs : _ ≤ ?s < Nz x,
    Hi : _ ≤ ?i < u32 _, Hk : _ ≤ ?k < n x, Hl : _ ≤ ?l < n x,
    Hq : _ ≤ ?q < n x |- _ =>
      apply (add_step_holds_at _ t _ (row_ b) (col_ b) (data_ b)
               (data x) m (u32 (l * n x + q))
               (λ r, u32 (point (Ny x) (Nx x) (n x) s i k (r + 1) l))
               (λ c, u32 (point (Ny x) (Nx x) (n x) s i k (c + 1) q)));
      intros r Hr; apply (Hother m r s i k l); auto
  end.
Qed.

Lemma applyY_holds_at (b : BoundaryTerms R) (x y y' : MPI_Vector R) (t : nat) :
  applyY b x y = Returns y' → ¬ targeted_Y b x (Z.of_nat t) →
  y' = set_data y (data y') ∧
  holds_at (length (data y)) t (data y !! t) (data y').
Proof.
  intros Hrun Hnot. unfold applyY in Hrun.
  destruct (is_empty (data_ b)).
  { injection Hrun as <-. split; [destruct y; reflexivity | split; reflexivity]. }
  first_read Hrun yd1 E1. first_read Hrun yd2 E2.
  injection Hrun as <-. split; [reflexivity|]. simpl.
  assert (∀ m r s k j l, 0 ≤ m < size (data_ b) → 0 ≤ s < Nz x →
            0 ≤ k < n x → 1 ≤ j < u32 (Nx x - 1) → 0 ≤ l < n x →
            row_ b !! Z.to_nat m = Some r →
            Z.to_nat (u32 (point (Ny x) (Nx x) (n x) s (r + 1) k j l)) ≠ t)
    as Hother.
  { intros m r s k j l Hm Hs Hk Hj Hl Hr Heq. apply Hnot.
    exists m, r, s, k, j, l. repeat split; try lia; try exact Hr.
    rewrite <- Heq. rewrite Z2Nat.id by apply u32_nonneg. reflexivity. }
  assert (holds_at (length (data y)) t (data y !! t) yd1) as Hfirst.
  { match type of E1 with
    | ?pass _ = _ =>
        apply (λ Hk : keeps (holds_at (length (data y)) t (data y !! t)) pass,
                 Hk _ _ E1 (conj eq_refl eq_refl))
    end.
    repeat (apply for_loop_keeps; intros ? ?).
    match goal with
    | Hm : _ ≤ ?m < size (data_ b), Hs : _ ≤ ?s < Nz x,
      Hk : _ ≤ ?k < n x, Hj : _ ≤ ?j < u32 _, Hl : _ ≤ ?l < n x,
      Hp : _ ≤ ?p < n x |- _ =>
        apply (clear_step_holds_at _ t _ (row_ b) m
                 (λ r, u32 (point (Ny x) (Nx x) (n x) s (r + 1) k j l)));
        intros r Hr; apply (Hother m r s k j l); auto
    end. }
  match type of E2 with
  | ?pass _ = _ =>
      apply (λ Hk : keeps (holds_at (length (data y)) t (data y !! t)) pass,
               Hk _ _ E2 Hfirst)
  end.
  repeat (apply for_loop_keeps; intros ? ?).
  match goal with
  | Hm : _ ≤ ?m < size (data_ b), Hs : _ ≤ ?s < Nz x,
    Hk : _ ≤ ?k < n x, Hj : _ ≤ ?j < u32 _, Hl : _ ≤ ?l < n x,
    Hp : _ ≤ ?p < n x |- _ =>
      apply (add_step_holds_at _ t _ (row_ b) (col_ b) (data_ b)
               (data x) m (u32 (k * n x + p))
               (λ r, u32 (point (Ny x) (Nx x) (n x) s (r + 1) k j l))
               (λ c, u32 (point (Ny x) (Nx x) (n x) s (c + 1) p j l)));
      intros r Hr; apply (Hother m r s k j l); auto
  end.
Qed.

(** A pass of statements that end in a write leaves the length. *)
Ltac length_kept E :=
  match type of E with
  | ?pass ?yd0 = _ =>
      apply (λ Hk : keeps (λ yd : list R, length yd = length yd0) pass,
               Hk _ _ E eq_refl)
  end;
  repeat (apply for_loop_keeps; intros ? ?);
  let v1 := fresh "v" in let v2 := fresh "v" in
  let Hst := fresh "Hst" in let Hl := fresh "Hl" in
  intros v1 v2 Hst Hl; through_reads Hst;
  apply store_Returns in Hst as [_ ->]; rewrite length_insert; exact Hl.

Lemma applyX_same_shape (b : BoundaryTerms R) (x y y' : MPI_Vector R) :
  applyX b x y = Returns y' → same_shape y y'.
Proof.
  intros Hrun. unfold applyX in Hrun. destruct (is_empty (data_ b)).
  { injection Hrun as <-. repeat split. }
  first_read Hrun yd1 E1. first_read Hrun yd2 E2. injection Hrun as <-.
  repeat split; simpl.
  transitivity (length yd1); symmetry; [length_kept E1 | length_kept E2].
Qed.

Lemma applyY_same_shape (b : BoundaryTerms R) (x y y' : MPI_Vector R) :
  applyY b x y = Returns y' → same_shape y y'.
Proof.
  intros Hrun. unfold applyY in Hrun. destruct (is_empty (data_ b)).
  { injection Hrun as <-. repeat split. }
  first_read Hrun yd1 E1. first_read Hrun yd2 E2. injection Hrun as <-.
  repeat split; simpl.
  transitivity (length yd1); symmetry; [length_kept E1 | length_kept E2].
Qed.

(** A property that every write of the blocks keeps is kept by
    symv_blocks. *)
Lemma symv_blocks_keeps (P : list R → Prop) (M : MPI_Matrix R) (x : MPI_Vector R) :
  (∀ s i k j l, 0 ≤ s < Nz x → 1 ≤ i < u32 (Ny x - 1) → 0 ≤ k < n x →
     1 ≤ j < u32 (Nx x - 1) → 0 ≤ l < n x →
     ∀ yd yd' a,
       store yd (u32 (point (Ny x) (Nx x) (n x) s i k j l)) a = Returns yd' →
       P yd → P yd') →
  keeps P (symv_blocks M x).
Proof.
  intros Hstore.
  unfold symv_blocks. apply for_loop_keeps. intros m Hm yd1 yd4 Hstep HP.
  first_read Hstep dX EX.
  first_read Hstep yd2 E2.
  assert (P yd2) as HP2.
  { destruct (negb (is_empty dX)); [|injection E2 as <-; exact HP].
    clear Hstep. revert yd1 yd2 E2 HP.
    repeat (apply for_loop_keeps; intros ? ?).
    intros yd1 yd2 Hst HP. through_reads Hst.
    eapply Hstore; [| | | | |exact Hst|exact HP]; eauto. }
  rename Hstep into Hrest.
  first_read Hrest dY EY.
  destruct (negb (is_empty dY)); [|injection Hrest as <-; exact HP2].
  clear E2. revert yd2 yd4 Hrest HP2.
  repeat (apply for_loop_keeps; intros ? ?).
  intros yd2 yd4 Hst HP2. through_reads Hst.
  eapply Hstore; [| | | | |exact Hst|exact HP2]; eauto.
Qed.

Lemma symv_blocks_length (M : MPI_Matrix R) (x : MPI_Vector R) (yd yd' : list R) :
  symv_blocks M x yd = Returns yd' → length yd' = length yd.
Proof.
  intros Hrun.
  apply (symv_blocks_keeps (λ v, length v = length yd) M x) with (s1 := yd);
    [|exact Hrun|reflexivity].
  intros s i k j l _ _ _ _ _ v v' a [_ ->]%store_Returns Hl.
  rewrite length_insert. exact Hl.
Qed.

Lemma symv_blocks_holds_at (M : MPI_Matrix R) (x : MPI_Vector R)
    (yd yd' : list R) (t : nat) :
  symv_blocks M x yd = Returns yd' → ¬ inside x (Z.of_nat t) →
  yd' !! t = yd !! t.
Proof.
  intros Hrun Hnot.
  apply (symv_blocks_keeps (λ v, v !! t = yd !! t) M x) with (s1 := yd);
    [|exact Hrun|reflexivity].
  intros s i k j l Hs Hi Hk Hj Hl v v' a [_ ->]%store_Returns Hv.
  rewrite list_lookup_insert_ne; [exact Hv|].
  intros Heq. apply Hnot.
  exists s, i, k, j, l. repeat split; try lia.
  rewrite <- Heq. rewrite Z2Nat.id by apply u32_nonneg. reflexivity.
Qed.

End Frames.

Lemma bind_Returns {A B} (a : A) (f : A → outcome B) : (Returns a ≫= f) = f a.
Proof. reflexivity. Qed.

Lemma result_emit_bind {B} e (f : () → comp B) :
  result (emit e ≫= f) = result (f ()).
Proof. reflexivity. Qed.

Lemma result_lift_bind {A B} (o : outcome A) (f : A → comp B) :
  result (lift o ≫= f) = (o ≫= λ a, result (f a)).
Proof. apply result_bind. Qed.

(** The next step of a chain of calls that returns. *)
Ltac next_step H a E :=
  rewrite ?result_lift_bind in H;
  match type of H with
  | (?o ≫= _) = Returns _ =>
      destruct o as [a| |] eqn:E; [rewrite bind_Returns in H | discriminate H ..]
  end.

Section SymvSteps.
Context {R : Type} `{Scalar R}.
Variable DG_DEBUG : bool.
Variable x_col x_row : MPI_Comm → MPI_Vector R → MPI_Vector R.

(** The steps of a call of symv that returns. *)
Lemma symv_unweighted_steps (M : MPI_Matrix R) x y ev x' y' :
  symv_unweighted DG_DEBUG x_col x_row M x y = Comp ev (Returns (x', y')) →
  ∃ u yd1 y2,
    symv_update M = Returns u ∧
    result (symv_exchange x_col x_row M u x) = Returns x' ∧
    symv_blocks M x' (replicate (length (data y)) zero) = Returns yd1 ∧
    applyX (xterm_ M) x' (set_data y yd1) = Returns y2 ∧
    applyY (yterm_ M) x' y2 = Returns y'.
Proof.
  intros Hrun. apply (f_equal result) in Hrun.
  change (result (Comp ev (Returns (x', y')))) with (Returns (x', y')) in Hrun.
  unfold symv_unweighted in Hrun. rewrite zero_loop in Hrun.
  rewrite result_emit_bind in Hrun.
  next_step Hrun u Eu.
  destruct (symv_exchange_result x_col x_row M u x) as [x1 Hx1].
  rewrite result_bind, Hx1, bind_Returns in Hrun.
  next_step Hrun a Ea. next_step Hrun yd0 E0. injection E0 as <-.
  next_step Hrun yd1 E1. next_step Hrun y2 E2. next_step Hrun y3 E3.
  injection Hrun as <- <-.
  exists u, yd1, y2. auto.
Qed.

End SymvSteps.

(** ** The ghost cells at the edges of the domain *)

Lemma radix_unique (b q1 r1 q2 r2 : Z) :
  0 ≤ r1 < b → 0 ≤ r2 < b → q1 * b + r1 = q2 * b + r2 → q1 = q2 ∧ r1 = r2.
Proof.
  intros H1 H2 Heq.
  assert (q1 = q2) as -> by nia. split; [reflexivity | lia].
Qed.

Lemma store_value_kept {A} (yd yd' : list A) p a (t : nat) :
  store yd p a = Returns yd' → yd !! t = Some a → yd' !! t = Some a.
Proof.
  intros [Hp ->]%store_Returns Ht.
  destruct (decide (Z.to_nat p = t)) as [<-|Hne].
  - apply list_lookup_insert_eq. unfold size in Hp. lia.
  - rewrite list_lookup_insert_ne by exact Hne. exact Ht.
Qed.

Lemma store_value_set {A} (yd yd' : list A) p a :
  store yd p a = Returns yd' → yd' !! Z.to_nat p = Some a.
Proof.
  intros [Hp ->]%store_Returns.
  apply list_lookup_insert_eq. unfold size in Hp. lia.
Qed.

Lemma store_succeeds {A} (len : nat) (p : Z) (a : A) :
  0 ≤ p < Z.of_nat len →
  succeeds (λ yd : list A, length yd = len) (λ yd, store yd p a).
Proof.
  intros Hp yd Hlen. eexists. split.
  - apply store_Returns. split; [unfold size; lia | reflexivity].
  - rewrite length_insert. exact Hlen.
Qed.

Section Edges.
Context {R : Type}.

Lemma fill_col_spec (rows cols n col : Z) (value : R) (vd : list R) :
  0 ≤ col < cols → 0 ≤ n →
  size vd = rows * cols * n → size vd < 2 ^ 32 →
  ∃ vd', fill_col rows cols n col value vd = Returns vd' ∧
    length vd' = length vd ∧
    ∀ i j q, 0 ≤ i < rows → 0 ≤ j < cols → 0 ≤ q < n →
      vd' !! Z.to_nat ((i * cols + j) * n + q) =
      if j =? col then Some value else vd !! Z.to_nat ((i * cols + j) * n + q).
Proof.
  intros Hcol Hn Hsz Hlt.
  assert (∀ i j q, 0 ≤ i < rows → 0 ≤ j < cols → 0 ≤ q < n →
            0 ≤ (i * cols + j) * n + q < size vd) as Hin.
  { intros i j q Hi Hj Hq. rewrite Hsz.
    assert (0 ≤ i * cols + j ≤ rows * cols - 1) by nia. nia. }
  assert (∀ i q, 0 ≤ i < rows → 0 ≤ q < n →
            u32 ((i * cols + col) * n + q) = (i * cols + col) * n + q) as Hu.
  { intros i q Hi Hq. apply u32_small. specialize (Hin i col q Hi Hcol Hq). lia. }
  unfold fill_col.
  match goal with |- context [for_loop 0 rows ?body vd] =>
    destruct (for_loop_succeeds (λ yd : list R, length yd = length vd)
                0 rows body) with (s := vd) as (vd' & E & Hlen); [|reflexivity|]
  end.
  { intros i Hi. apply for_loop_succeeds; intros q Hq.
    apply store_succeeds. rewrite Hu by lia.
    specialize (Hin i col q Hi Hcol Hq). unfold size in Hin. lia. }
  exists vd'. split; [exact E|]. split; [exact Hlen|].
  intros i j q Hi Hj Hq.
  destruct (j =? col) eqn:Ej.
  - assert (j = col) as -> by lia.
    clear Hsz Hlt Hin Hlen. revert vd vd' E.
    apply (for_loop_sets_up _ _ _ _ i); [lia | |].
    + intros i' Hi'. apply for_loop_keeps; intros q' Hq'.
      intros v1 v2 Hst Hv. eapply store_value_kept; eauto.
    + apply (for_loop_sets_up _ _ _ _ q); [lia | |].
      * intros q' Hq'. intros v1 v2 Hst Hv. eapply store_value_kept; eauto.
      * intros v1 v2 Hst. rewrite <- (Hu i q) by lia.
        eapply store_value_set; eauto.
  - match type of E with
    | ?pass _ = _ =>
        apply (λ Hk : keeps (λ yd : list R,
                               yd !! Z.to_nat ((i * cols + j) * n + q)
                               = vd !! Z.to_nat ((i * cols + j) * n + q)) pass,
                 Hk _ _ E eq_refl)
    end.
    apply for_loop_keeps; intros i' Hi'. apply for_loop_keeps; intros q' Hq'.
    intros v1 v2 [Hp ->]%store_Returns Hv.
    rewrite list_lookup_insert_ne; [exact Hv|].
    rewrite Hu by lia. intros Heq.
    pose proof (Hin i' col q' Hi' Hcol Hq').
    pose proof (Hin i j q Hi Hj Hq).
    assert ((i' * cols + col) * n + q' = (i * cols + j) * n + q) as Heq' by lia.
    apply radix_unique in Heq' as [Heq' _]; [|lia..].
    apply radix_unique in Heq' as [_ Heq']; lia.
Qed.

Lemma fill_row_spec (Nz_ Ny_ cols n row : Z) (value : R) (vd : list R) :
  0 ≤ row < Ny_ → 0 ≤ n → 0 ≤ cols →
  size vd = Nz_ * Ny_ * n * cols → size vd < 2 ^ 32 →
  ∃ vd', fill_row Nz_ Ny_ cols n row value vd = Returns vd' ∧
    length vd' = length vd ∧
    ∀ s i k j, 0 ≤ s < Nz_ → 0 ≤ i < Ny_ → 0 ≤ k < n → 0 ≤ j < cols →
      vd' !! Z.to_nat (((s * Ny_ + i) * n + k) * cols + j) =
      if i =? row then Some value
      else vd !! Z.to_nat (((s * Ny_ + i) * n + k) * cols + j).
Proof.
  intros Hrow Hn Hcols Hsz Hlt.
  assert (∀ s i k j, 0 ≤ s < Nz_ → 0 ≤ i < Ny_ → 0 ≤ k < n → 0 ≤ j < cols →
            0 ≤ ((s * Ny_ + i) * n + k) * cols + j < size vd) as Hin.
  { intros s i k j Hs Hi Hk Hj. rewrite Hsz.
    apply cell_in_range; assumption. }
  assert (∀ s k j, 0 ≤ s < Nz_ → 0 ≤ k < n → 0 ≤ j < cols →
            u32 (((s * Ny_ + row) * n + k) * cols + j)
            = ((s * Ny_ + row) * n + k) * cols + j) as Hu.
  { intros s k j Hs Hk Hj. apply u32_small.
    specialize (Hin s row k j Hs Hrow Hk Hj). lia. }
  unfold fill_row.
  match goal with |- context [for_loop 0 Nz_ ?body vd] =>
    destruct (for_loop_succeeds (λ yd : list R, length yd = length vd)
                0 Nz_ body) with (s := vd) as (vd' & E & Hlen); [|reflexivity|]
  end.
  { intros s Hs. apply for_loop_succeeds; intros k Hk.
    apply for_loop_succeeds; intros j Hj.
    apply store_succeeds. rewrite Hu by lia.
    specialize (Hin s row k j Hs Hrow Hk Hj). unfold size in Hin. lia. }
  exists vd'. split; [exact E|]. split; [exact Hlen|].
  intros s i k j Hs Hi Hk Hj.
  destruct (i =? row) eqn:Ei.
  - assert (i = row) as -> by lia.
    clear Hsz Hlt Hin Hlen. revert vd vd' E.
    apply (for_loop_sets_up _ _ _ _ s); [lia | |].
    + intros s' Hs'. apply for_loop_keeps; intros k' Hk'.
      apply for_loop_keeps; intros j' Hj'.
      intros v1 v2 Hst Hv. eapply store_value_kept; eauto.
    + apply (for_loop_sets_up _ _ _ _ k); [lia | |].
      * intros k' Hk'. apply for_loop_keeps; intros j' Hj'.
        intros v1 v2 Hst Hv. eapply store_value_kept; eauto.
      * apply (for_loop_sets_up _ _ _ _ j); [lia | |].
        -- intros j' Hj'. intros v1 v2 Hst Hv. eapply store_value_kept; eauto.
        -- intros v1 v2 Hst. rewrite <- (Hu s k j) by lia.
           eapply store_value_set; eauto.
  - match type of E with
    | ?pass _ = _ =>
        apply (λ Hk : keeps (λ yd : list R,
                   yd !! Z.to_nat (((s * Ny_ + i) * n + k) * cols + j)
                   = vd !! Z.to_nat (((s * Ny_ + i) * n + k) * cols + j)) pass,
                 Hk _ _ E eq_refl)
    end.
    apply for_loop_keeps; intros s' Hs'. apply for_loop_keeps; intros k' Hk'.
    apply for_loop_keeps; intros j' Hj'.
    intros v1 v2 [Hp ->]%store_Returns Hv.
    rewrite list_lookup_insert_ne; [exact Hv|].
    rewrite Hu by lia. intros Heq.
    pose proof (Hin s' row k' j' Hs' Hrow Hk' Hj').
    pose proof (Hin s i k j Hs Hi Hk Hj).
    assert (((s' * Ny_ + row) * n + k') * cols + j'
            = ((s * Ny_ + i) * n + k) * cols + j) as Heq' by lia.
    apply radix_unique in Heq' as [Heq' _]; [|lia..].
    apply radix_unique in Heq' as [Heq' _]; [|lia..].
    apply radix_unique in Heq' as [_ Heq']; lia.
Qed.

End Edges.

Lemma load_cases {A} (v : list A) i :
  load v i = Undefined ∨ ∃ a, load v i = Returns a.
Proof.
  unfold load. destruct ((0 <=? i) && (i <? size v)); [|auto].
  destruct (v !! Z.to_nat i); eauto.
Qed.

(** ** Loops that compute a sum *)

Lemma first_step_undefined {S} lo hi (body : Z → S → outcome S) s :
  lo < hi → body lo s = Undefined → for_loop lo hi body s = Undefined.
Proof.
  intros Hlt Hbody. unfold for_loop.
  rewrite range_cons by exact Hlt. simpl. rewrite Hbody. reflexivity.
Qed.

Lemma load_nothing {A} (i : Z) : load ([] : list A) i = Undefined.
Proof. apply load_out_of_range. unfold size. simpl. lia. Qed.

Lemma foldM_cells {S A C} (body : A → S → outcome S) (g : S → C → S)
    (cells : A → list C) (l : list A) (s : S) :
  (∀ a s, a ∈ l → body a s = Returns (fold_left g (cells a) s)) →
  foldM body l s = Returns (fold_left g (l ≫= cells) s).
Proof.
  revert s. induction l as [|a l IH]; intros s Hb; [reflexivity|].
  simpl. rewrite Hb by left. simpl.
  rewrite fold_left_app. apply IH. intros; apply Hb. by right.
Qed.

(** A loop whose step [i] adds up the cells of [i] adds up all the
    cells, in the order of the counter. *)
Lemma for_loop_cells {S C} lo hi (body : Z → S → outcome S) (g : S → C → S)
    (cells : Z → list C) (s : S) :
  (∀ i s, lo ≤ i < hi → body i s = Returns (fold_left g (cells i) s)) →
  for_loop lo hi body s = Returns (fold_left g (range lo hi ≫= cells) s).
Proof.
  intros Hb. unfold for_loop. apply foldM_cells.
  intros a t Ha%elem_of_range. apply Hb, Ha.
Qed.

Section Values.
Context {R : Type} `{Scalar R}.

Lemma load_value_at (d : list R) i a : load d i = Returns a → value_at d i = a.
Proof.
  intros [_ L]%load_Returns. unfold value_at. rewrite L. reflexivity.
Qed.

Lemma load_in_range_value (d : list R) i :
  0 ≤ i < size d → load d i = Returns (value_at d i).
Proof.
  intros Hi. destruct (load_in_range d i Hi) as (a & E & L).
  rewrite E. unfold value_at. rewrite L. reflexivity.
Qed.

(** The loops of doDot add up the products over the cells inside the
    ghost layers. *)
Lemma doDot_temp_interior_sum (DG_DEBUG : bool)
    (a : MPI_Vector R * MPI_Precon R * MPI_Vector R) :
  reducible a →
  Precon.doDot_temp DG_DEBUG a.1.1 a.1.2 a.2 = Returns (interior_sum a).
Proof.
  destruct a as [[x m] y]. simpl.
  intros ((HNz & HNy & HNx & Hst & Hsz & Hlt) & Hrows & Hcols & Hy & Hm).
  simpl in *. unfold Precon.doDot_temp.
  rewrite !assert_passes by (intros _; lia). rewrite !bind_Returns.
  rewrite (u32_small (Ny x - 1)), (u32_small (Nx x - 1)) by lia.
  unfold interior_sum, interior_cells. simpl.
  apply for_loop_cells; intros k s0 Hk.
  apply for_loop_cells; intros i s1 Hi.
  apply for_loop_cells; intros j s2 Hj.
  apply for_loop_cells; intros l temp Hl.
  assert (0 ≤ ((k * Ny x + i) * Nx x + j) * stride x + l < size (data x))
    as Hcell.
  { pose proof (cell_in_range (Nz x) (Ny x) (Nx x) (stride x) k i j l). lia. }
  unfold Precon.cell_index. rewrite u32_small by lia.
  rewrite (load_in_range_value (data x)) by lia.
  rewrite (load_in_range_value (precon_data m)) by lia.
  rewrite (load_in_range_value (data y)) by lia.
  reflexivity.
Qed.

Lemma doDot_interior_sums (DG_DEBUG : bool)
    (first : MPI_Vector R * MPI_Precon R * MPI_Vector R)
    (rest : list (MPI_Vector R * MPI_Precon R * MPI_Vector R)) :
  Forall reducible (first :: rest) →
  Precon.doDot DG_DEBUG (first :: rest)
  = Comp [Allreduce MPI_COMM_WORLD]
      (Returns (fold_left add (map interior_sum rest) (interior_sum first))).
Proof.
  intros Hall. unfold Precon.doDot.
  assert (∀ ranks, Forall reducible ranks →
            mapM (λ '(x, m, y), Precon.doDot_temp DG_DEBUG x m y) ranks
            = Returns (map interior_sum ranks)) as Htemps.
  { induction 1 as [|[[x m] y] ranks Ha _ IH]; [reflexivity|].
    pose proof (doDot_temp_interior_sum DG_DEBUG (x, m, y) Ha) as E.
    cbn [fst snd] in E. cbn [mapM map]. rewrite E, bind_Returns, IH.
    reflexivity. }
  rewrite (Htemps _ Hall). reflexivity.
Qed.

(** On vectors that hold nothing the loops of doDot either visit no
    cell or read outside the vector in their first step. *)
Lemma doDot_temp_of_nothing (DG_DEBUG : bool) (x y : MPI_Vector R)
    (m : MPI_Precon R) :
  shaped x → data x = [] → data y = [] →
  (DG_DEBUG = true → stride x = size (precon_data m)) →
  (visits_no_cell x → Precon.doDot_temp DG_DEBUG x m y = Returns zero) ∧
  (¬ visits_no_cell x → Precon.doDot_temp DG_DEBUG x m y = Undefined).
Proof.
  intros (HNz & HNy & HNx & Hst & Hsz & Hlt) Hx Hy Hdbg.
  unfold Precon.doDot_temp. rewrite Hx, Hy.
  rewrite !assert_passes
    by (first [reflexivity | intros Hd; specialize (Hdbg Hd); lia]).
  rewrite !bind_Returns. split.
  - intros [Hz | [Hs | [Hr | Hc]]].
    + apply for_loop_empty. lia.
    + apply for_loop_skip; intros k s0 _.
      apply for_loop_skip; intros i s1 _.
      apply for_loop_skip; intros j s2 _.
      apply for_loop_empty. lia.
    + apply for_loop_skip; intros k s0 _.
      apply for_loop_empty. rewrite u32_small by lia. lia.
    + apply for_loop_skip; intros k s0 _.
      apply for_loop_skip; intros i s1 _.
      apply for_loop_empty. rewrite u32_small by lia. lia.
  - intros Hvisits.
    assert (1 ≤ Nz x ∧ 1 ≤ stride x ∧ (Ny x = 0 ∨ 3 ≤ Ny x) ∧
            (Nx x = 0 ∨ 3 ≤ Nx x)) as (Hz & Hs & Hr & Hc).
    { unfold visits_no_cell in Hvisits. lia. }
    assert (1 < u32 (Ny x - 1)) as Hrows.
    { destruct Hr as [->|?]; [vm_compute; reflexivity|].
      rewrite u32_small by lia. lia. }
    assert (1 < u32 (Nx x - 1)) as Hcols.
    { destruct Hc as [->|?]; [vm_compute; reflexivity|].
      rewrite u32_small by lia. lia. }
    apply first_step_undefined; [lia|].
    apply first_step_undefined; [lia|].
    apply first_step_undefined; [lia|].
    apply first_step_undefined; [lia|].
    rewrite load_nothing. reflexivity.
Qed.

End Values.

(** ** The value that a nest of loops leaves at one position *)

Section Tracking.
Context {A : Type}.

Lemma maps_value_ext (t : nat) (g g' : A → A) step :
  (∀ v, g v = g' v) → maps_value t g step → maps_value t g' step.
Proof.
  intros Hg Hstep yd yd' v Hrun Hv. rewrite <- Hg. eapply Hstep; eauto.
Qed.

Lemma foldM_maps {I} (t : nat) (g : I → A → A)
    (body : I → list A → outcome (list A)) (l : list I) :
  (∀ i, i ∈ l → maps_value t (g i) (body i)) →
  maps_value t (λ v, fold_left (λ v i, g i v) l v) (foldM body l).
Proof.
  induction l as [|a l IH]; intros Hb yd yd' v; simpl.
  - intros [= <-] Hv. exact Hv.
  - destruct (body a yd) as [yd1| |] eqn:E; simpl; try discriminate.
    intros Hrun Hv.
    apply (IH (λ i Hi, Hb i (list_elem_of_further _ _ _ Hi)) yd1 yd' (g a v) Hrun).
    eapply Hb; eauto. left.
Qed.

(** Every step of the loop acts on the value. *)
Lemma for_loop_maps_fold (t : nat) (g : Z → A → A) lo hi
    (body : Z → list A → outcome (list A)) :
  (∀ i, lo ≤ i < hi → maps_value t (g i) (body i)) →
  maps_value t (λ v, fold_left (λ v i, g i v) (range lo hi) v)
    (for_loop lo hi body).
Proof.
  intros Hb. unfold for_loop. apply foldM_maps.
  intros i Hi%elem_of_range. apply Hb, Hi.
Qed.

Lemma fold_left_same {I} (g : I → A → A) (l : list I) v :
  (∀ i, i ∈ l → ∀ v, g i v = v) → fold_left (λ v i, g i v) l v = v.
Proof.
  induction l as [|a l IH]; intros Hg; [reflexivity|].
  simpl. rewrite Hg by left. apply IH. intros; apply Hg. by right.
Qed.

Lemma fold_left_one (g : A → A) (a : Z) (l : list Z) v :
  NoDup l → a ∈ l →
  fold_left (λ v i, (if decide (i = a) then g else id) v) l v = g v.
Proof.
  revert v. induction l as [|b l IH]; intros v Hnd Ha.
  - by apply elem_of_nil in Ha.
  - inversion Hnd as [|? ? Hb Hnd']; subst. simpl.
    destruct (decide (b = a)) as [->|Hne].
    + apply (fold_left_same (λ i, if decide (i = a) then g else id)).
      intros i Hi w. destruct (decide (i = a)) as [->|]; [contradiction|].
      reflexivity.
    + apply IH; auto. apply elem_of_cons in Ha as [->|Ha]; [congruence | exact Ha].
Qed.

Lemma NoDup_range lo hi : NoDup (range lo hi).
Proof.
  unfold range. apply NoDup_fmap_2; [|apply NoDup_ListNoDup, List.seq_NoDup].
  intros i j Hij. lia.
Qed.

(** No step of the loop touches the value. *)
Lemma for_loop_maps_id (t : nat) lo hi (body : Z → list A → outcome (list A)) :
  (∀ i, lo ≤ i < hi → maps_value t id (body i)) →
  maps_value t id (for_loop lo hi body).
Proof.
  intros Hb yd yd' v Hrun Hv.
  pose proof (for_loop_maps_fold t (λ _, id) lo hi body Hb yd yd' v Hrun Hv) as Hf.
  rewrite (fold_left_same (λ _ : Z, id)) in Hf by reflexivity. exact Hf.
Qed.

(** One step of the loop acts on the value. *)
Lemma for_loop_maps_one (t : nat) (g : A → A) lo a hi
    (body : Z → list A → outcome (list A)) :
  lo ≤ a < hi →
  (∀ i, lo ≤ i < hi → i ≠ a → maps_value t id (body i)) →
  maps_value t g (body a) →
  maps_value t g (for_loop lo hi body).
Proof.
  intros Ha Hoth Hat yd yd' v Hrun Hv.
  pose proof (for_loop_maps_fold t (λ i, if decide (i = a) then g else id)
                lo hi body) as Hf.
  rewrite <- (fold_left_one g a (range lo hi) v);
    [|apply NoDup_range | apply elem_of_range, Ha].
  apply (Hf) with (yd := yd); auto.
  intros i Hi. destruct (decide (i = a)) as [->|Hne]; auto.
Qed.

(** A nest of six loops in which the steps of one choice of the four
    counters in the middle act on the value, for the outer counters that
    [hits] selects. *)
Lemma nest_maps (t : nat) (hits : Z → bool) (g : Z → Z → A → A)
    (Mlo Mhi Alo Ahi Blo Bhi Clo Chi Dlo Dhi Qlo Qhi a0 b0 c0 d0 : Z)
    (step : Z → Z → Z → Z → Z → Z → list A → outcome (list A)) :
  Alo ≤ a0 < Ahi → Blo ≤ b0 < Bhi → Clo ≤ c0 < Chi → Dlo ≤ d0 < Dhi →
  (∀ m q, Mlo ≤ m < Mhi → Qlo ≤ q < Qhi → hits m = true →
     maps_value t (g m q) (step m a0 b0 c0 d0 q)) →
  (∀ m a b c d q, Mlo ≤ m < Mhi → Alo ≤ a < Ahi → Blo ≤ b < Bhi →
     Clo ≤ c < Chi → Dlo ≤ d < Dhi → Qlo ≤ q < Qhi →
     ¬ (hits m = true ∧ a = a0 ∧ b = b0 ∧ c = c0 ∧ d = d0) →
     maps_value t id (step m a b c d q)) →
  maps_value t
    (λ v, fold_left (λ v m,
            if hits m then fold_left (λ v q, g m q v) (range Qlo Qhi) v else v)
            (range Mlo Mhi) v)
    (for_loop Mlo Mhi (λ m,
     for_loop Alo Ahi (λ a,
     for_loop Blo Bhi (λ b,
     for_loop Clo Chi (λ c,
     for_loop Dlo Dhi (λ d,
     for_loop Qlo Qhi (λ q, step m a b c d q))))))).
Proof.
  intros Ha Hb Hc Hd Hhit Hmiss.
  apply (for_loop_maps_fold t
           (λ m v, if hits m then fold_left (λ v q, g m q v) (range Qlo Qhi) v
                   else v)).
  intros m Hm. destruct (hits m) eqn:Em.
  - apply (for_loop_maps_one t _ Alo a0 Ahi); [exact Ha | |].
    { intros a Ha' Hne.
      apply for_loop_maps_id; intros b Hb'.
      apply for_loop_maps_id; intros c Hc'.
      apply for_loop_maps_id; intros d Hd'.
      apply for_loop_maps_id; intros q Hq'.
      apply Hmiss; auto. intros (_ & ? & _). contradiction. }
    apply (for_loop_maps_one t _ Blo b0 Bhi); [exact Hb | |].
    { intros b Hb' Hne.
      apply for_loop_maps_id; intros c Hc'.
      apply for_loop_maps_id; intros d Hd'.
      apply for_loop_maps_id; intros q Hq'.
      apply Hmiss; auto. intros (_ & _ & ? & _). contradiction. }
    apply (for_loop_maps_one t _ Clo c0 Chi); [exact Hc | |].
    { intros c Hc' Hne.
      apply for_loop_maps_id; intros d Hd'.
      apply for_loop_maps_id; intros q Hq'.
      apply Hmiss; auto. intros (_ & _ & _ & ? & _). contradiction. }
    apply (for_loop_maps_one t _ Dlo d0 Dhi); [exact Hd | |].
    { intros d Hd' Hne.
      apply for_loop_maps_id; intros q Hq'.
      apply Hmiss; auto. intros (_ & _ & _ & _ & ?). contradiction. }
    apply (for_loop_maps_fold t (g m)). intros q Hq. apply Hhit; auto.
  - apply for_loop_maps_id; intros a Ha'.
    apply for_loop_maps_id; intros b Hb'.
    apply for_loop_maps_id; intros c Hc'.
    apply for_loop_maps_id; intros d Hd'.
    apply for_loop_maps_id; intros q Hq'.
    apply Hmiss; auto. intros (? & _). congruence.
Qed.

End Tracking.

(** ** The value that a pass over the boundary terms leaves *)

Lemma point_unique (rows cols n s i k j l s' i' k' j' l' : Z) :
  0 ≤ i < rows → 0 ≤ k < n → 0 ≤ j < cols → 0 ≤ l < n →
  0 ≤ i' < rows → 0 ≤ k' < n → 0 ≤ j' < cols → 0 ≤ l' < n →
  point rows cols n s i k j l = point rows cols n s' i' k' j' l' →
  s = s' ∧ i = i' ∧ k = k' ∧ j = j' ∧ l = l'.
Proof.
  intros Hi Hk Hj Hl Hi' Hk' Hj' Hl' Heq. unfold point in Heq.
  apply radix_unique in Heq as [Heq ->]; [|lia..].
  apply radix_unique in Heq as [Heq ->]; [|lia..].
  apply radix_unique in Heq as [Heq ->]; [|lia..].
  apply radix_unique in Heq as [-> ->]; [|lia..].
  auto.
Qed.

Section BoundaryPass.
Context {R : Type} `{Scalar R}.

Lemma add_step_maps_hit (t : nat) rows cols blocks (xd : list R) m ia f g
    r c blk :
  0 ≤ m → rows !! Z.to_nat m = Some r → cols !! Z.to_nat m = Some c →
  blocks !! Z.to_nat m = Some blk → Z.to_nat (f r) = t →
  maps_value t (λ v, add v (mul (value_at blk ia) (value_at xd (g c))))
    (add_step rows cols blocks xd m ia f g).
Proof.
  intros Hm Hr Hc Hb Ht yd yd' v Hrun Hv. unfold add_step in Hrun.
  assert (load rows m = Returns r) as Er by (apply load_Returns; auto).
  assert (load cols m = Returns c) as Ec by (apply load_Returns; auto).
  assert (load blocks m = Returns blk) as Eb by (apply load_Returns; auto).
  rewrite Er, bind_Returns, Ec, bind_Returns, Eb, bind_Returns in Hrun.
  first_read Hrun a Ea. first_read Hrun xv Ex. first_read Hrun yv Ey.
  apply load_value_at in Ea, Ex.
  apply load_Returns in Ey as [_ Ey]. rewrite Ht, Hv in Ey. injection Ey as <-.
  apply store_Returns in Hrun as [_ ->]. rewrite Ht.
  rewrite list_lookup_insert_eq by (apply lookup_lt_Some in Hv; exact Hv).
  rewrite Ea, Ex. reflexivity.
Qed.

Lemma add_step_maps_miss (t : nat) rows cols blocks (xd : list R) m ia f g :
  (∀ r, rows !! Z.to_nat m = Some r → Z.to_nat (f r) ≠ t) →
  maps_value t id (add_step rows cols blocks xd m ia f g).
Proof.
  intros Hne yd yd' v Hrun Hv. unfold add_step in Hrun.
  through_reads Hrun.
  match goal with E : load rows m = Returns _ |- _ =>
    apply load_Returns in E as [_ E]; specialize (Hne _ E) end.
  apply store_Returns in Hrun as [_ ->].
  rewrite list_lookup_insert_ne by exact Hne. exact Hv.
Qed.

(** The two passes of applyX and applyY, over any nest of four loops
    between the blocks and the products, with the positions [tgt] written
    and [src] read and the coefficient [coef] of the block. *)
Lemma boundary_pass_value (rows cols : list Z) (blocks : list (list R))
    (xd : list R) (Mhi Alo Ahi Blo Bhi Clo Chi Dlo Dhi Qhi : Z)
    (tgt : Z → Z → Z → Z → Z → Z) (src : Z → Z → Z → Z → Z → Z → Z)
    (coef : Z → Z → Z → Z → Z → Z)
    (yd yd1 yd2 : list R) (m0 r0 a0 b0 c0 d0 : Z) :
  for_loop 0 Mhi (λ m,
  for_loop Alo Ahi (λ a,
  for_loop Blo Bhi (λ b,
  for_loop Clo Chi (λ c,
  for_loop Dlo Dhi (λ d,
  for_loop 0 Qhi (λ q, clear_step rows m (λ r, tgt r a b c d))))))) yd
  = Returns yd1 →
  for_loop 0 Mhi (λ m,
  for_loop Alo Ahi (λ a,
  for_loop Blo Bhi (λ b,
  for_loop Clo Chi (λ c,
  for_loop Dlo Dhi (λ d,
  for_loop 0 Qhi (λ q,
    add_step rows cols blocks xd m (coef a b c d q)
      (λ r, tgt r a b c d) (λ c', src c' a b c d q))))))) yd1
  = Returns yd2 →
  (∀ m, 0 ≤ m < Mhi →
     ∃ r c blk, rows !! Z.to_nat m = Some r ∧ cols !! Z.to_nat m = Some c ∧
                blocks !! Z.to_nat m = Some blk) →
  0 ≤ m0 < Mhi → rows !! Z.to_nat m0 = Some r0 →
  Alo ≤ a0 < Ahi → Blo ≤ b0 < Bhi → Clo ≤ c0 < Chi → Dlo ≤ d0 < Dhi →
  0 < Qhi →
  (∀ m r a b c d, 0 ≤ m < Mhi → rows !! Z.to_nat m = Some r →
     Alo ≤ a < Ahi → Blo ≤ b < Bhi → Clo ≤ c < Chi → Dlo ≤ d < Dhi →
     Z.to_nat (tgt r a b c d) = Z.to_nat (tgt r0 a0 b0 c0 d0) →
     r = r0 ∧ a = a0 ∧ b = b0 ∧ c = c0 ∧ d = d0) →
  yd2 !! Z.to_nat (tgt r0 a0 b0 c0 d0)
  = Some (pass_products rows cols blocks xd Mhi Qhi r0
            (coef a0 b0 c0 d0) (λ c' q, src c' a0 b0 c0 d0 q)).
Proof.
  intros E1 E2 Hfit Hm0 Hr0 Ha Hb Hc Hd HQ Hinj.
  set (t := Z.to_nat (tgt r0 a0 b0 c0 d0)) in *.
  (* the first pass leaves zero *)
  assert (yd1 !! t = Some zero) as Hzero.
  { clear E2. revert yd yd1 E1.
    apply (for_loop_sets_up _ _ _ _ m0); [lia | |].
    { intros ? ?. repeat (apply for_loop_keeps; intros ? ?).
      apply (clear_step_keeps rows). }
    apply (for_loop_sets_up _ _ _ _ a0); [lia | |].
    { intros ? ?. repeat (apply for_loop_keeps; intros ? ?).
      apply (clear_step_keeps rows). }
    apply (for_loop_sets_up _ _ _ _ b0); [lia | |].
    { intros ? ?. repeat (apply for_loop_keeps; intros ? ?).
      apply (clear_step_keeps rows). }
    apply (for_loop_sets_up _ _ _ _ c0); [lia | |].
    { intros ? ?. repeat (apply for_loop_keeps; intros ? ?).
      apply (clear_step_keeps rows). }
    apply (for_loop_sets_up _ _ _ _ d0); [lia | |].
    { intros ? ?. repeat (apply for_loop_keeps; intros ? ?).
      apply (clear_step_keeps rows). }
    apply (for_loop_sets_up _ _ _ _ 0); [lia | |].
    { intros ? ?. apply (clear_step_keeps rows). }
    apply (clear_step_sets_up rows m0 (λ r, tgt r a0 b0 c0 d0) r0);
      [lia | exact Hr0]. }
  (* the second pass adds the products *)
  apply (nest_maps t (λ m, default 0 (rows !! Z.to_nat m) =? r0)
           (λ m q v,
              add v (mul (value_at (default [] (blocks !! Z.to_nat m))
                            (coef a0 b0 c0 d0 q))
                         (value_at xd
                            (src (default 0 (cols !! Z.to_nat m)) a0 b0 c0 d0 q))))
           0 Mhi Alo Ahi Blo Bhi Clo Chi Dlo Dhi 0 Qhi a0 b0 c0 d0
           (λ m a b c d q,
              add_step rows cols blocks xd m (coef a b c d q)
                (λ r, tgt r a b c d) (λ c', src c' a b c d q))
           Ha Hb Hc Hd) with (yd := yd1); [| |exact E2|exact Hzero].
  - intros m q Hm Hq Hhit.
    destruct (Hfit m Hm) as (r & c & blk & Hr & Hcl & Hblk).
    rewrite Hr in Hhit. simpl in Hhit. apply Z.eqb_eq in Hhit. subst r.
    rewrite Hcl, Hblk. simpl.
    apply (add_step_maps_hit t rows cols blocks xd m (coef a0 b0 c0 d0 q)
             (λ r, tgt r a0 b0 c0 d0) (λ c', src c' a0 b0 c0 d0 q) r0 c blk);
      auto. lia.
  - intros m a b c d q Hm Ha' Hb' Hc' Hd' Hq Hnot.
    apply add_step_maps_miss. intros r Hr Heq. apply Hnot.
    destruct (Hinj m r a b c d Hm Hr Ha' Hb' Hc' Hd' Heq)
      as (-> & -> & -> & -> & ->).
    rewrite Hr. simpl. rewrite Z.eqb_refl. auto.
Qed.

End BoundaryPass.

Lemma fold_left_ext_in {A B} (f g : A → B → A) (l : list B) (v : A) :
  (∀ b v, b ∈ l → f v b = g v b) → fold_left f l v = fold_left g l v.
Proof.
  revert v. induction l as [|b l IH]; intros v Hfg; [reflexivity|].
  simpl. rewrite Hfg by left. apply IH. intros; apply Hfg. by right.
Qed.

Section BoundaryValues.
Context {R : Type} `{Scalar R}.

Lemma pass_products_ext rows cols blocks (xd : list R) Mhi Qhi r
    (coef coef' : Z → Z) (src src' : Z → Z → Z) :
  (∀ q, 0 ≤ q < Qhi → coef q = coef' q) →
  (∀ m q, 0 ≤ m < Mhi → 0 ≤ q < Qhi →
     src (default 0 (cols !! Z.to_nat m)) q
     = src' (default 0 (cols !! Z.to_nat m)) q) →
  pass_products rows cols blocks xd Mhi Qhi r coef src
  = pass_products rows cols blocks xd Mhi Qhi r coef' src'.
Proof.
  intros Hcoef Hsrc. unfold pass_products.
  apply fold_left_ext_in. intros m v Hm%elem_of_range.
  destruct (_ =? r); [|reflexivity].
  apply fold_left_ext_in. intros q w Hq%elem_of_range.
  rewrite Hcoef, Hsrc by lia. reflexivity.
Qed.

Lemma fits_lookups (b : BoundaryTerms R) n cells :
  fits b n cells →
  ∀ m, 0 ≤ m < size (data_ b) →
    ∃ r c blk, row_ b !! Z.to_nat m = Some r ∧ col_ b !! Z.to_nat m = Some c ∧
               data_ b !! Z.to_nat m = Some blk.
Proof.
  intros Hfit m Hm.
  destruct (Hfit m Hm) as (r & c & blk & Hr & Hc & Hb & _). eauto 10.
Qed.

(** The values that applyX leaves in the columns of its table. *)
Lemma applyX_values (b : BoundaryTerms R) (x y y' : MPI_Vector R) :
  laid_out x → 1 ≤ Ny x → fits b (n x) (Nx x) →
  applyX b x y = Returns y' →
  ∀ m r s i k l,
    0 ≤ m < size (data_ b) → row_ b !! Z.to_nat m = Some r →
    0 ≤ s < Nz x → 1 ≤ i < Ny x - 1 → 0 ≤ k < n x → 0 ≤ l < n x →
    data y' !! Z.to_nat (point (Ny x) (Nx x) (n x) s i k (r + 1) l)
    = Some (boundary_products_X b x s i k l r).
Proof.
  intros (HNz & HNy & HNx & Hn & Hsz & Hlt) Hrows Hfit Hrun
    m r s i k l Hm Hr Hs Hi Hk Hl.
  unfold applyX in Hrun.
  destruct (is_empty (data_ b)) eqn:Eb.
  { destruct (data_ b); [unfold size in Hm; simpl in Hm; lia | discriminate]. }
  first_read Hrun yd1 E1. first_read Hrun yd2 E2. injection Hrun as <-.
  rewrite (u32_small (Ny x - 1)) in E1, E2 by lia.
  assert (∀ s i k j l, 0 ≤ s < Nz x → 0 ≤ i < Ny x → 0 ≤ k < n x →
            0 ≤ j < Nx x → 0 ≤ l < n x →
            0 ≤ point (Ny x) (Nx x) (n x) s i k j l < 2 ^ 32) as Hpoint.
  { intros s' i' k' j' l' Hs' Hi' Hk' Hj' Hl'.
    pose proof (point_in_range (Nz x) (Ny x) (Nx x) (n x) s' i' k' j' l').
    lia. }
  destruct (Hfit m Hm) as (r' & c & blk & Hr' & _ & _ & Hrr & _ & _).
  rewrite Hr in Hr'. injection Hr' as <-.
  pose proof (boundary_pass_value (row_ b) (col_ b) (data_ b) (data x)
    (size (data_ b)) 0 (Nz x) 1 (Ny x - 1) 0 (n x) 0 (n x) (n x)
    (λ r s i k l, u32 (point (Ny x) (Nx x) (n x) s i k (r + 1) l))
    (λ c s i k l q, u32 (point (Ny x) (Nx x) (n x) s i k (c + 1) q))
    (λ s i k l q, u32 (l * n x + q))
    (data y) yd1 yd2 m r s i k l E1 E2 (fits_lookups b _ _ Hfit) Hm Hr
    Hs Hi Hk Hl) as Hval.
  cbv beta in Hval. rewrite (u32_small (point _ _ _ s i k (r + 1) l)) in Hval
    by (apply Hpoint; lia).
  simpl. rewrite Hval.
  - f_equal. apply pass_products_ext.
    + intros q Hq. apply u32_small.
      assert (0 ≤ l * n x + q < n x * n x) by nia.
      assert (1 ≤ Nz x * Ny x) by nia.
      assert (1 ≤ Nz x * Ny x * Nx x) by nia.
      assert (0 ≤ n x * n x) by nia.
      assert (1 * (n x * n x) ≤ (Nz x * Ny x * Nx x) * (n x * n x))
        by (apply Z.mul_le_mono_nonneg_r; assumption).
      lia.
    + intros m' q Hm' Hq.
      destruct (Hfit m' Hm') as (r' & c' & blk' & _ & Hc' & _ & _ & Hcc & _).
      rewrite Hc'. simpl. apply u32_small, Hpoint; lia.
  - lia.
  - intros m' r' s' i' k' l' Hm' Hr' Hs' Hi' Hk' Hl' Heq.
    destruct (Hfit m' Hm') as (r'' & c' & blk' & Hr'' & _ & _ & Hrr' & _ & _).
    rewrite Hr' in Hr''. injection Hr'' as <-.
    rewrite !u32_small in Heq by (apply Hpoint; lia).
    apply Z2Nat.inj in Heq; [|apply Hpoint; lia..].
    apply point_unique in Heq as (-> & -> & -> & Hj & ->); [|lia..].
    repeat split; auto. lia.
Qed.

(** The values that applyY leaves in the rows of its table. *)
Lemma applyY_values (b : BoundaryTerms R) (x y y' : MPI_Vector R) :
  laid_out x → 1 ≤ Nx x → fits b (n x) (Ny x) →
  applyY b x y = Returns y' →
  ∀ m r s k j l,
    0 ≤ m < size (data_ b) → row_ b !! Z.to_nat m = Some r →
    0 ≤ s < Nz x → 0 ≤ k < n x → 1 ≤ j < Nx x - 1 → 0 ≤ l < n x →
    data y' !! Z.to_nat (point (Ny x) (Nx x) (n x) s (r + 1) k j l)
    = Some (boundary_products_Y b x s k j l r).
Proof.
  intros (HNz & HNy & HNx & Hn & Hsz & Hlt) Hcols Hfit Hrun
    m r s k j l Hm Hr Hs Hk Hj Hl.
  unfold applyY in Hrun.
  destruct (is_empty (data_ b)) eqn:Eb.
  { destruct (data_ b); [unfold size in Hm; simpl in Hm; lia | discriminate]. }
  first_read Hrun yd1 E1. first_read Hrun yd2 E2. injection Hrun as <-.
  rewrite (u32_small (Nx x - 1)) in E1, E2 by lia.
  assert (∀ s i k j l, 0 ≤ s < Nz x → 0 ≤ i < Ny x → 0 ≤ k < n x →
            0 ≤ j < Nx x → 0 ≤ l < n x →
            0 ≤ point (Ny x) (Nx x) (n x) s i k j l < 2 ^ 32) as Hpoint.
  { intros s' i' k' j' l' Hs' Hi' Hk' Hj' Hl'.
    pose proof (point_in_range (Nz x) (Ny x) (Nx x) (n x) s' i' k' j' l').
    lia. }
  destruct (Hfit m Hm) as (r' & c & blk & Hr' & _ & _ & Hrr & _ & _).
  rewrite Hr in Hr'. injection Hr' as <-.
  pose proof (boundary_pass_value (row_ b) (col_ b) (data_ b) (data x)
    (size (data_ b)) 0 (Nz x) 0 (n x) 1 (Nx x - 1) 0 (n x) (n x)
    (λ r s k j l, u32 (point (Ny x) (Nx x) (n x) s (r + 1) k j l))
    (λ c s k j l p, u32 (point (Ny x) (Nx x) (n x) s (c + 1) p j l))
    (λ s k j l p, u32 (k * n x + p))
    (data y) yd1 yd2 m r s k j l E1 E2 (fits_lookups b _ _ Hfit) Hm Hr
    Hs Hk Hj Hl) as Hval.
  cbv beta in Hval. rewrite (u32_small (point _ _ _ s (r + 1) k j l)) in Hval
    by (apply Hpoint; lia).
  simpl. rewrite Hval.
  - f_equal. apply pass_products_ext.
    + intros p Hp. apply u32_small.
      assert (0 ≤ k * n x + p < n x * n x) by nia.
      assert (1 ≤ Nz x * Ny x) by nia.
      assert (1 ≤ Nz x * Ny x * Nx x) by nia.
      assert (0 ≤ n x * n x) by nia.
      assert (1 * (n x * n x) ≤ (Nz x * Ny x * Nx x) * (n x * n x))
        by (apply Z.mul_le_mono_nonneg_r; assumption).
      lia.
    + intros m' p Hm' Hp.
      destruct (Hfit m' Hm') as (r' & c' & blk' & _ & Hc' & _ & _ & Hcc & _).
      rewrite Hc'. simpl. apply u32_small, Hpoint; lia.
  - lia.
  - intros m' r' s' k' j' l' Hm' Hr' Hs' Hk' Hj' Hl' Heq.
    destruct (Hfit m' Hm') as (r'' & c' & blk' & Hr'' & _ & _ & Hrr' & _ & _).
    rewrite Hr' in Hr''. injection Hr'' as <-.
    rewrite !u32_small in Heq by (apply Hpoint; lia).
    apply Z2Nat.inj in Heq; [|apply Hpoint; lia..].
    apply point_unique in Heq as (-> & Hi & -> & -> & ->); [|lia..].
    repeat split; auto. lia.
Qed.

End BoundaryValues.

(** * The statements of the specification, C1 to C10 *)

(** C1, checked on binary64 numbers.  doDot adds the products into a
    [double] and merges the partial sums of the ranks with MPI_SUM: one
    row of three cells holding 1e16, 1, 1 gives 1e16 when one rank holds
    it, and 1e16 + 2 when a first rank holds the first cell and a second
    rank the other two.  The value depends on the partition. *)
Theorem doDot_depends_on_partition (DG_DEBUG : bool) :
  result (@Precon.doDot _ double_scalar DG_DEBUG
            [(whole_row_x, unit_weight, whole_row_y)])
  = Returns 10000000000000000%float ∧
  result (@Precon.doDot _ double_scalar DG_DEBUG
            [(left_part_x, unit_weight, left_part_y);
             (right_part_x, unit_weight, right_part_y)])
  = Returns 10000000000000002%float ∧
  PrimFloat.eqb 10000000000000000 10000000000000002 = false.
Proof.
  destruct DG_DEBUG; repeat split; vm_compute; reflexivity.
Qed.

(** C2 as stated fails: the weighted dot product of two vectors without
    cells is not reported, it returns zero, in a debug build and in a
    release build; and in a release build the dot product of an empty
    vector of vectors meets no check before it reads the first of its
    accumulators.  So it is not the case that every reduction of empty
    vectors ends in a reported failure. *)
Lemma doDot_of_nothing_returns_zero :
  result (Precon.doDot true
            [(no_cells 1 1 3 3, {| precon_data := [1] |}, no_cells 1 1 3 3)])
  = Returns 0 ∧
  result (Precon.doDot false
            [(no_cells 1 1 3 3, {| precon_data := [1] |}, no_cells 1 1 3 3)])
  = Returns 0 ∧
  Blas1.doDot_superacc false (list Z) (list Z) (λ _ _, Returns []) 0 0
    (λ acc _ _, acc) [] []
  = Undefined ∧
  ¬ (∀ (DG_DEBUG : bool) (x y : MPI_Vector Z) (m : MPI_Precon Z),
       data x = [] → data y = [] →
       result (Precon.doDot DG_DEBUG [(x, m, y)]) = AssertionFailed).
Proof.
  split; [vm_compute; reflexivity|].
  split; [vm_compute; reflexivity|].
  split; [vm_compute; reflexivity|].
  intros Hall.
  specialize (Hall true (no_cells 1 1 3 3) (no_cells 1 1 3 3)
                {| precon_data := [1] |} eq_refl eq_refl).
  vm_compute in Hall. discriminate Hall.
Qed.

(** C2, amended.  The dot product of an empty vector of vectors stops
    at the assertion of doDot_superacc in a DG_DEBUG build, and in a
    release build reads the first of no accumulators, which is
    undefined, whatever the second argument.  The weighted dot product
    on a rank whose vectors hold nothing, with as many weights as values
    per cell, is checked in no build.  When its loops visit no cell (no
    plane, no value per cell, or one or two rows or columns) the rank
    contributes zero and a single rank returns zero after its
    MPI_Allreduce.  Otherwise the vectors have no row or no column, the
    bound Ny - 1 or Nx - 1 wraps around, and the first step reads outside
    the vector: the call is undefined, before any MPI call. *)
Theorem empty_reduction_outcomes {R : Type} `{Scalar R} (DG_DEBUG : bool)
    (x y : MPI_Vector R) (m : MPI_Precon R) :
  shaped x → data x = [] → data y = [] →
  (DG_DEBUG = true → stride x = size (precon_data m)) →
  (∀ (Vector Vector2 : Type) (inner : Vector → Vector2 → outcome (list Z))
     (IMIN IMAX : Z) (Normalize : list Z → Z → Z → list Z)
     (x2 : list Vector2),
     Blas1.doDot_superacc true Vector Vector2 inner IMIN IMAX Normalize [] x2
     = AssertionFailed ∧
     Blas1.doDot_superacc false Vector Vector2 inner IMIN IMAX Normalize [] x2
     = Undefined) ∧
  (visits_no_cell x →
   Precon.doDot DG_DEBUG [(x, m, y)]
   = Comp [Allreduce MPI_COMM_WORLD] (Returns zero)) ∧
  (¬ visits_no_cell x →
   (Ny x = 0 ∨ Nx x = 0) ∧
   Precon.doDot DG_DEBUG [(x, m, y)] = Comp [] Undefined).
Proof.
  intros Hshaped Hx Hy Hdbg.
  destruct (doDot_temp_of_nothing DG_DEBUG x y m Hshaped Hx Hy Hdbg)
    as [Hzero Hundef].
  split; [|split].
  - intros Vector Vector2 inner IMIN IMAX Normalize x2. split; reflexivity.
  - intros Hno. unfold Precon.doDot. cbn [mapM].
    rewrite (Hzero Hno). reflexivity.
  - intros Hvisits. split.
    + destruct Hshaped as (HNz & HNy & HNx & Hst & Hsz & _).
      rewrite Hx in Hsz. unfold size in Hsz. simpl in Hsz.
      unfold visits_no_cell in Hvisits. nia.
    + unfold Precon.doDot. cbn [mapM].
      rewrite (Hundef Hvisits). reflexivity.
Qed.

Lemma empty_reduction_outcomes_witness :
  (shaped no_rows ∧ data no_rows = [] ∧ data no_rows = [] ∧
   (true = true → stride no_rows = size (precon_data (p_ example_matrix)))) ∧
  ¬ visits_no_cell no_rows ∧
  Precon.doDot true [(no_rows, p_ example_matrix, no_rows)]
  = Comp [] Undefined ∧
  Precon.doDot true
    [(no_cells 1 1 3 3, p_ example_matrix, no_cells 1 1 3 3)]
  = Comp [Allreduce MPI_COMM_WORLD] (Returns zero).
Proof.
  assert (shaped no_rows) as Hshaped
    by (repeat split; try reflexivity; discriminate).
  assert (¬ visits_no_cell no_rows) as Hvisits.
  { unfold visits_no_cell. simpl. lia. }
  split; [repeat split; try reflexivity; try discriminate|].
  split; [exact Hvisits|]. split; [|reflexivity].
  apply (empty_reduction_outcomes true no_rows no_rows (p_ example_matrix)
           Hshaped eq_refl eq_refl (λ _, eq_refl)).
  exact Hvisits.
Defined.

(** C3.  In a matrix with as many blocks in dataY as in dataX, which is
    how the constructors build it, symv exchanges the ghost columns of x
    exactly when some block of dataX is not empty, and the ghost rows
    exactly when some block of dataY is not empty; an exchange is made on
    the communicator of the matrix and on no other. *)
Theorem symv_exchanges_where_coupled {R : Type} `{Scalar R} (DG_DEBUG : bool)
    (x_col x_row : MPI_Comm → MPI_Vector R → MPI_Vector R)
    (M : MPI_Matrix R) (x y : MPI_Vector R) :
  length (dataX_ M) = length (dataY_ M) →
  (∀ c, Exchange_col c ∈ events (symv DG_DEBUG x_col x_row M x y) ↔
        c = comm_ M ∧ ∃ block, block ∈ dataX_ M ∧ block ≠ []) ∧
  (∀ c, Exchange_row c ∈ events (symv DG_DEBUG x_col x_row M x y) ↔
        c = comm_ M ∧ ∃ block, block ∈ dataY_ M ∧ block ≠ []).
Proof.
  intros Hlen. rewrite (symv_events DG_DEBUG x_col x_row M x y Hlen).
  pose proof (existsb_nonempty (dataX_ M)) as HX.
  pose proof (existsb_nonempty (dataY_ M)) as HY.
  destruct (existsb nonempty (dataX_ M)), (existsb nonempty (dataY_ M));
    simpl; split; intros c; rewrite ?elem_of_cons, ?elem_of_nil;
    split; intros Hc; intuition (try discriminate; try congruence).
Qed.

Lemma symv_exchanges_where_coupled_witness :
  length (dataX_ example_matrix) = length (dataY_ example_matrix) ∧
  (∀ c, Exchange_col c ∈ events (symv true no_neighbours no_neighbours
                                   example_matrix example_x example_y) ↔
        c = comm_ example_matrix ∧
        ∃ block, block ∈ dataX_ example_matrix ∧ block ≠ []) ∧
  (∀ c, Exchange_row c ∈ events (symv true no_neighbours no_neighbours
                                   example_matrix example_x example_y) ↔
        c = comm_ example_matrix ∧
        ∃ block, block ∈ dataY_ example_matrix ∧ block ≠ []).
Proof.
  split; [reflexivity|].
  apply (symv_exchanges_where_coupled true no_neighbours no_neighbours
           example_matrix example_x example_y).
  reflexivity.
Defined.

(** C4.  On a vector [x] of the layout of mpi_matrix.h, with the rows
    and the columns of the table inside it, applyX returns and every
    entry of the output that a boundary row addresses holds the boundary
    products alone: the sum, added up from zero in the order of the
    table, of data_[m][l n + q] * x[.., col_[m] + 1, q] over the blocks
    [m] of that row.  What the output held before the call, the products
    of the blocks of symv for instance, is not part of it.  The same
    holds for applyY.  In symv, whose boundary rows in y are applied last,
    an entry addressed by a row of yterm_ holds the products of yterm_,
    and an entry addressed by a row of xterm_ and by none of yterm_ holds
    the products of xterm_, when the steps before the preconditioner
    return. *)
Theorem boundary_terms_overwrite {R : Type} `{Scalar R} (b : BoundaryTerms R)
    (x : MPI_Vector R) :
  laid_out x →
  (1 ≤ Ny x → fits b (n x) (Nx x) →
   ∀ y, size (data y) = size (data x) →
     ∃ y', applyX b x y = Returns y' ∧
       ∀ m r s i k l,
         0 ≤ m < size (data_ b) → row_ b !! Z.to_nat m = Some r →
         0 ≤ s < Nz x → 1 ≤ i < Ny x - 1 → 0 ≤ k < n x → 0 ≤ l < n x →
         data y' !! Z.to_nat (point (Ny x) (Nx x) (n x) s i k (r + 1) l)
         = Some (boundary_products_X b x s i k l r)) ∧
  (1 ≤ Nx x → fits b (n x) (Ny x) →
   ∀ y, size (data y) = size (data x) →
     ∃ y', applyY b x y = Returns y' ∧
       ∀ m r s k j l,
         0 ≤ m < size (data_ b) → row_ b !! Z.to_nat m = Some r →
         0 ≤ s < Nz x → 0 ≤ k < n x → 1 ≤ j < Nx x - 1 → 0 ≤ l < n x →
         data y' !! Z.to_nat (point (Ny x) (Nx x) (n x) s (r + 1) k j l)
         = Some (boundary_products_Y b x s k j l r)) ∧
  (∀ (DG_DEBUG : bool) (x_col x_row : MPI_Comm → MPI_Vector R → MPI_Vector R)
     (M : MPI_Matrix R) (x0 y0 y' : MPI_Vector R) (ev : list event),
     symv_unweighted DG_DEBUG x_col x_row M x0 y0 = Comp ev (Returns (x, y')) →
     1 ≤ Ny x → 1 ≤ Nx x →
     fits (xterm_ M) (n x) (Nx x) → fits (yterm_ M) (n x) (Ny x) →
     (∀ m r s k j l,
        0 ≤ m < size (data_ (yterm_ M)) →
        row_ (yterm_ M) !! Z.to_nat m = Some r →
        0 ≤ s < Nz x → 0 ≤ k < n x → 1 ≤ j < Nx x - 1 → 0 ≤ l < n x →
        data y' !! Z.to_nat (point (Ny x) (Nx x) (n x) s (r + 1) k j l)
        = Some (boundary_products_Y (yterm_ M) x s k j l r)) ∧
     (∀ m r s i k l,
        0 ≤ m < size (data_ (xterm_ M)) →
        row_ (xterm_ M) !! Z.to_nat m = Some r →
        0 ≤ s < Nz x → 1 ≤ i < Ny x - 1 → 0 ≤ k < n x → 0 ≤ l < n x →
        ¬ targeted_Y (yterm_ M) x (point (Ny x) (Nx x) (n x) s i k (r + 1) l) →
        data y' !! Z.to_nat (point (Ny x) (Nx x) (n x) s i k (r + 1) l)
        = Some (boundary_products_X (xterm_ M) x s i k l r))).
Proof.
  intros Hlaid. split; [|split].
  - intros Hrows Hfit y Hy.
    destruct (applyX_returns b x y Hlaid Hy Hrows Hfit) as [y' Hrun].
    exists y'. split; [exact Hrun|].
    apply (applyX_values b x y y' Hlaid Hrows Hfit Hrun).
  - intros Hcols Hfit y Hy.
    destruct (applyY_returns b x y Hlaid Hy Hcols Hfit) as [y' Hrun].
    exists y'. split; [exact Hrun|].
    apply (applyY_values b x y y' Hlaid Hcols Hfit Hrun).
  - intros DG_DEBUG x_col x_row M x0 y0 y' ev Hrun Hrows Hcols HfitX HfitY.
    destruct (symv_unweighted_steps DG_DEBUG x_col x_row M x0 y0 ev x y' Hrun)
      as (u & yd1 & y2 & _ & _ & _ & HX & HY).
    split.
    + apply (applyY_values (yterm_ M) x y2 y' Hlaid Hcols HfitY HY).
    + intros m r s i k l Hm Hr Hs Hi Hk Hl Hnot.
      assert (0 ≤ point (Ny x) (Nx x) (n x) s i k (r + 1) l) as Hpos.
      { destruct (HfitX m Hm) as (r' & c & blk & Hr' & _ & _ & Hrr & _ & _).
        rewrite Hr in Hr'. injection Hr' as <-.
        destruct Hlaid as (HNz & HNy & HNx & Hn & _).
        pose proof (point_in_range (Nz x) (Ny x) (Nx x) (n x) s i k (r + 1) l).
        lia. }
      destruct (applyY_holds_at (yterm_ M) x y2 y'
                  (Z.to_nat (point (Ny x) (Nx x) (n x) s i k (r + 1) l)) HY)
        as [_ [_ ->]]; [rewrite Z2Nat.id by exact Hpos; exact Hnot|].
      apply (applyX_values (xterm_ M) x _ y2 Hlaid Hrows HfitX HX m r s i k l);
        assumption.
Qed.

Lemma boundary_terms_overwrite_witness :
  laid_out example_x2 ∧
  (∃ y', applyX example_table2 example_x2 example_y2 = Returns y' ∧
     ∀ m r s i k l,
       0 ≤ m < size (data_ example_table2) →
       row_ example_table2 !! Z.to_nat m = Some r →
       0 ≤ s < Nz example_x2 → 1 ≤ i < Ny example_x2 - 1 →
       0 ≤ k < n example_x2 → 0 ≤ l < n example_x2 →
       data y' !! Z.to_nat (point (Ny example_x2) (Nx example_x2)
                              (n example_x2) s i k (r + 1) l)
       = Some (boundary_products_X example_table2 example_x2 s i k l r)) ∧
  (∃ y', applyY example_table2 example_x2 example_y2 = Returns y' ∧
     ∀ m r s k j l,
       0 ≤ m < size (data_ example_table2) →
       row_ example_table2 !! Z.to_nat m = Some r →
       0 ≤ s < Nz example_x2 → 0 ≤ k < n example_x2 →
       1 ≤ j < Nx example_x2 - 1 → 0 ≤ l < n example_x2 →
       data y' !! Z.to_nat (point (Ny example_x2) (Nx example_x2)
                              (n example_x2) s (r + 1) k j l)
       = Some (boundary_products_Y example_table2 example_x2 s k j l r)) ∧
  applyX example_table2 example_x2 example_y2
  = Returns (cells3_n2
      [100; 100; 100; 100; 100; 100; 100; 100; 100; 100; 100; 100;
       577; 1339; 100; 100; 15; 16; 775; 1801; 100; 100; 21; 22;
       100; 100; 100; 100; 100; 100; 100; 100; 100; 100; 100; 100]) ∧
  boundary_products_X example_table2 example_x2 0 1 0 0 (-1)
  = 1 * 15 + 2 * 16 + 10 * 17 + 20 * 18 ∧
  applyY example_table2 example_x2 example_y2
  = Returns (cells3_n2
      [100; 100; 987; 1020; 100; 100; 100; 100; 2259; 2336; 100; 100;
       100; 100; 100; 100; 100; 100; 100; 100; 100; 100; 100; 100;
       100; 100; 15; 16; 100; 100; 100; 100; 21; 22; 100; 100]) ∧
  symv_unweighted true no_neighbours no_neighbours example_matrix2
    example_x2 example_y2
  = Comp [Comm_rank cart; Exchange_col cart]
      (Returns (example_x2, cells3_n2
         [0; 0; 30; 32; 0; 0; 0; 0; 42; 44; 0; 0;
          577; 1339; 15; 16; 15; 16; 775; 1801; 21; 22; 21; 22;
          0; 0; 0; 0; 0; 0; 0; 0; 0; 0; 0; 0])).
Proof.
  assert (laid_out example_x2) as Hlaid
    by (repeat split; try reflexivity; discriminate).
  assert (fits example_table2 2 3) as Hfit.
  { intros m Hm. unfold size in Hm. simpl in Hm.
    assert (m = 0 ∨ m = 1 ∨ m = 2) as [-> | [-> | ->]] by lia;
      eexists _, _, _; repeat split; try reflexivity; discriminate. }
  destruct (boundary_terms_overwrite example_table2 example_x2 Hlaid)
    as (HX & HY & _).
  split; [exact Hlaid|].
  split; [apply HX; [discriminate | exact Hfit | reflexivity]|].
  split; [apply HY; [discriminate | exact Hfit | reflexivity]|].
  repeat split; reflexivity.
Defined.

(** C5 fails on the MPI path.  The norm form doDot( m, x) calls the
    three-argument form and ends without returning its value: whatever
    the arguments, the call has no defined value, also where
    doDot( x, m, x) returns one.  The norm form over a std::vector of
    vectors does return doDot( y, m, y). *)
Theorem doDot_norm_returns_nothing :
  (∀ (R : Type) (S : Scalar R) (DG_DEBUG : bool)
     (ranks : list (MPI_Precon R * MPI_Vector R)),
     result (Precon.doDot_norm DG_DEBUG ranks) = Undefined ∨
     result (Precon.doDot_norm DG_DEBUG ranks) = AssertionFailed) ∧
  Precon.doDot true [(example_x, p_ example_matrix, example_x)]
  = Comp [Allreduce MPI_COMM_WORLD] (Returns 50) ∧
  Precon.doDot_norm true [(p_ example_matrix, example_x)]
  = Comp [Allreduce MPI_COMM_WORLD] Undefined ∧
  (∀ (DG_DEBUG : bool) (Vector Matrix Superaccumulator value_type : Type)
     (default : Superaccumulator)
     (Accumulate : Superaccumulator → Superaccumulator → Superaccumulator)
     (Round : Superaccumulator → value_type)
     (doDot_dispatch : Vector → Matrix → Vector → outcome Superaccumulator)
     (m : Matrix) (y : list Vector),
     StdVector.doDot_norm DG_DEBUG Vector Matrix Superaccumulator value_type
       default Accumulate Round doDot_dispatch m y
     = StdVector.doDot DG_DEBUG Vector Matrix Superaccumulator value_type
         default Accumulate Round doDot_dispatch y m y).
Proof.
  split; [|repeat split].
  intros R S DG_DEBUG ranks.
  unfold Precon.doDot_norm. rewrite result_bind.
  destruct (result (Precon.doDot DG_DEBUG _)); simpl; auto.
Qed.

(** C6.  With weights that are not empty and vectors of one size that
    is a multiple of the number of weights, doSymv( alpha, m, x, beta, y)
    returns and touches no vector but [y].  When alpha == 0 and
    beta == 1 nothing changes.  Position [i] of [y] holds
    alpha * m.data[i mod s] * x[i] + beta * y[i] when alpha is not 0,
    whatever the arithmetic, and for every alpha and beta when the
    arithmetic does not round, as the shortcuts for alpha == 0 then
    leave the same values. *)
Theorem doSymv_scaled_entries {R : Type} `{Scalar R}
    (DG_DEBUG : bool) (alpha : R) (m : MPI_Precon R) (x : nat) (beta : R)
    (y : nat) (st : nat → MPI_Vector R) :
  precon_data m ≠ [] →
  size (precon_data m) < 2 ^ 32 →
  size (data (st x)) < 2 ^ 32 →
  size (data (st y)) = size (data (st x)) →
  size (data (st x)) mod size (precon_data m) = 0 →
  stride (st x) = size (precon_data m) →
  ∃ st', Precon.doSymv_scaled DG_DEBUG alpha m x beta y st = Returns st' ∧
    (∀ a, a ≠ y → st' a = st a) ∧
    length (data (st' y)) = length (data (st y)) ∧
    (eqb alpha zero = true → eqb beta one = true → st' = st) ∧
    (eqb alpha zero = false ∨ ExactScalar R →
     ∀ (i : nat) (xi yi mi : R),
       data (st x) !! i = Some xi →
       data (st y) !! i = Some yi →
       precon_data m !! (i mod length (precon_data m))%nat = Some mi →
       data (st' y) !! i = Some (add (mul (mul alpha mi) xi) (mul beta yi))).
Proof.
  intros Hne Hm Hx Hxy Hmod Hstr.
  destruct (doSymv_scaled_outcome DG_DEBUG alpha m x beta y st Hne Hm Hx Hxy
              Hmod Hstr) as (st' & Hrun & Hoth & Hlen & Hsame & Haxpby & Hloop).
  exists st'. repeat split; auto.
  assert (0 < size (precon_data m)) as Hpos.
  { unfold size. destruct (precon_data m); [contradiction | simpl; lia]. }
  intros Hcase i xi yi mi Lx Ly Lm.
  pose proof (lookup_lt_Some _ _ _ Lx) as Hi.
  assert (length (data (st y)) = length (data (st x))) as Hl
    by (unfold size in Hxy; lia).
  assert (scaled_value alpha m beta (data (st x)) (data (st y)) i
          = Some (add (mul (mul alpha mi) xi) (mul beta yi))) as Hvalue.
  { unfold scaled_value, size. rewrite Lx, Ly. simpl.
    rewrite <- Nat2Z.inj_mod, Nat2Z.id, Lm. reflexivity. }
  rewrite <- Hvalue.
  destruct (eqb alpha zero) eqn:Ea.
  - destruct Hcase as [?|Hexact]; [discriminate|].
    apply eqb_eq in Ea. subst alpha.
    destruct (shortcut_values m beta (data (st x)) (data (st y)) i Hpos Hi Hl)
      as [Hax Hid].
    destruct (eqb beta one) eqn:Eb.
    + rewrite (Hsame eq_refl eq_refl).
      apply eqb_eq in Eb. subst beta. symmetry. exact Hid.
    + rewrite Hax. apply Haxpby; auto. lia.
  - apply Hloop; auto. lia.
Qed.

Lemma doSymv_scaled_entries_witness :
  (precon_data two_weights ≠ [] ∧
   size (precon_data two_weights) < 2 ^ 32 ∧
   size (data (example_objects 0%nat)) < 2 ^ 32 ∧
   size (data (example_objects 1%nat)) = size (data (example_objects 0%nat)) ∧
   size (data (example_objects 0%nat)) mod size (precon_data two_weights) = 0 ∧
   stride (example_objects 0%nat) = size (precon_data two_weights)) ∧
  ∃ st', Precon.doSymv_scaled true 2 two_weights 0%nat 3 1%nat example_objects
         = Returns st' ∧
    (∀ a, a ≠ 1%nat → st' a = example_objects a) ∧
    length (data (st' 1%nat)) = length (data (example_objects 1%nat)) ∧
    (eqb 2 zero = true → eqb 3 one = true → st' = example_objects) ∧
    (eqb 2 zero = false ∨ ExactScalar Z →
     ∀ (i : nat) (xi yi mi : Z),
       data (example_objects 0%nat) !! i = Some xi →
       data (example_objects 1%nat) !! i = Some yi →
       precon_data two_weights !! (i mod length (precon_data two_weights))%nat
         = Some mi →
       data (st' 1%nat) !! i = Some (add (mul (mul 2 mi) xi) (mul 3 yi))).
Proof.
  split; [repeat split; try discriminate; reflexivity|].
  apply (doSymv_scaled_entries true 2 two_weights 0%nat 3 1%nat
           example_objects);
    try discriminate; reflexivity.
Defined.

(** C7.  When the steps of symv before the preconditioner return the
    output [y3], symv returns with the same MPI calls and no other.  With
    an empty preconditioner its output is [y3]; with a preconditioner it
    is [y3] scaled position by position, p.data[j mod stride] * y3[j]
    (in a debug build the size of [y3] has to be a multiple of its
    stride, which has to be the number of weights). *)
Theorem symv_weighting_runs_last {R : Type} `{Scalar R} (DG_DEBUG : bool)
    (x_col x_row : MPI_Comm → MPI_Vector R → MPI_Vector R)
    (M : MPI_Matrix R) (x y : MPI_Vector R) (ev : list event)
    (x' y3 : MPI_Vector R) :
  symv_unweighted DG_DEBUG x_col x_row M x y = Comp ev (Returns (x', y3)) →
  size (precon_data (p_ M)) < 2 ^ 32 →
  size (data y3) < 2 ^ 32 →
  (DG_DEBUG = true → precon_data (p_ M) ≠ [] →
     size (data y3) mod size (precon_data (p_ M)) = 0 ∧
     stride y3 = size (precon_data (p_ M))) →
  ∃ y4, symv DG_DEBUG x_col x_row M x y = Comp ev (Returns (x', y4)) ∧
    (precon_data (p_ M) = [] → y4 = y3) ∧
    (precon_data (p_ M) ≠ [] →
       y4 = set_data y3 (data y4) ∧
       length (data y4) = length (data y3) ∧
       ∀ (j : nat) (v w : R),
         data y3 !! j = Some v →
         precon_data (p_ M) !! (j mod length (precon_data (p_ M)))%nat = Some w →
         data y4 !! j = Some (mul w v)).
Proof.
  intros Hun Hp Hy Hdbg.
  destruct (symv_precond_weighted DG_DEBUG M y3 Hp Hy Hdbg)
    as (y4 & Hpre & Hempty & Hscaled).
  exists y4. split; [|split; [exact Hempty|]].
  - apply (symv_after_unweighted DG_DEBUG x_col x_row M x y ev x' y3 y4 Hun Hpre).
  - intros Hne. destruct (Hscaled Hne) as (Hmeta & Hlen & Hval).
    repeat split; auto.
    intros j v w Lv Lw.
    rewrite Hval by (apply lookup_lt_Some in Lv; exact Lv).
    unfold weighted, size. rewrite Lv. simpl.
    rewrite <- Nat2Z.inj_mod, Nat2Z.id, Lw. reflexivity.
Qed.

Lemma symv_weighting_runs_last_witness :
  (symv_unweighted true no_neighbours no_neighbours example_matrix
     example_x example_y
   = Comp [Comm_rank cart; Exchange_col cart]
       (Returns (example_x, cells3 [0; 0; 0; 25; 15; 0; 0; 0; 0])) ∧
   size (precon_data (p_ example_matrix)) < 2 ^ 32 ∧
   size (data (cells3 [0; 0; 0; 25; 15; 0; 0; 0; 0])) < 2 ^ 32 ∧
   (true = true → precon_data (p_ example_matrix) ≠ [] →
      size (data (cells3 [0; 0; 0; 25; 15; 0; 0; 0; 0]))
        mod size (precon_data (p_ example_matrix)) = 0 ∧
      stride (cells3 [0; 0; 0; 25; 15; 0; 0; 0; 0])
      = size (precon_data (p_ example_matrix)))) ∧
  ∃ y4, symv true no_neighbours no_neighbours example_matrix
          example_x example_y
        = Comp [Comm_rank cart; Exchange_col cart] (Returns (example_x, y4)) ∧
    (precon_data (p_ example_matrix) = [] →
       y4 = cells3 [0; 0; 0; 25; 15; 0; 0; 0; 0]) ∧
    (precon_data (p_ example_matrix) ≠ [] →
       y4 = set_data (cells3 [0; 0; 0; 25; 15; 0; 0; 0; 0]) (data y4) ∧
       length (data y4) = length (data (cells3 [0; 0; 0; 25; 15; 0; 0; 0; 0])) ∧
       ∀ (j : nat) (v w : Z),
         data (cells3 [0; 0; 0; 25; 15; 0; 0; 0; 0]) !! j = Some v →
         precon_data (p_ example_matrix)
           !! (j mod length (precon_data (p_ example_matrix)))%nat = Some w →
         data y4 !! j = Some (mul w v)).
Proof.
  split; [repeat split; reflexivity|].
  apply (symv_weighting_runs_last true no_neighbours no_neighbours
           example_matrix example_x example_y
           [Comm_rank cart; Exchange_col cart]
           example_x (cells3 [0; 0; 0; 25; 15; 0; 0; 0; 0])).
  - reflexivity.
  - reflexivity.
  - reflexivity.
  - intros _ _. split; reflexivity.
Defined.

(** C8 fails on doDot.  The partial sums are merged on MPI_COMM_WORLD,
    the group of all the ranks of the job, whatever group the vectors and
    the matrix were built on: a call of doDot makes that one MPI call or,
    when a rank fails before it, none.  symv on a matrix built on the
    group [cart] communicates on [cart]; doDot on the same vectors does
    not. *)
Theorem doDot_merges_on_world :
  (∀ (R : Type) (S : Scalar R) (DG_DEBUG : bool)
     (ranks : list (MPI_Vector R * MPI_Precon R * MPI_Vector R)),
     events (Precon.doDot DG_DEBUG ranks) = [Allreduce MPI_COMM_WORLD] ∨
     events (Precon.doDot DG_DEBUG ranks) = []) ∧
  events (symv true no_neighbours no_neighbours example_matrix
            example_x example_y)
  = [Comm_rank cart; Exchange_col cart] ∧
  Precon.doDot true [(example_x, p_ example_matrix, example_y)]
  = Comp [Allreduce MPI_COMM_WORLD] (Returns 50).
Proof.
  split; [|split; reflexivity].
  intros R S DG_DEBUG ranks. unfold Precon.doDot.
  rewrite events_lift_bind.
  destruct (mapM _ ranks); [left; reflexivity | right; reflexivity ..].
Qed.

(** C9.  Two runs of doDot whose ranks hold the same weights and hold
    vectors of matching shape that agree in the cells inside the ghost
    layers (rows 1 to Ny-2, columns 1 to Nx-2 of every plane) make the
    same MPI calls and end with the same outcome: the ghost cells are
    never read into the sum.  When every rank has its ghost layers and as
    many weights as values per cell, each rank adds up from zero the
    products x[idx] * m[l] * y[idx] over the cells inside the ghost layers
    and over no other, in the order of its loops, and both runs return
    the partial sums of the ranks added up in rank order, after one
    MPI_Allreduce. *)
Theorem doDot_reads_interior_only {R : Type} `{Scalar R} (DG_DEBUG : bool)
    (ranks1 ranks2 : list (MPI_Vector R * MPI_Precon R * MPI_Vector R)) :
  Forall2 same_interiors ranks1 ranks2 →
  Precon.doDot DG_DEBUG ranks1 = Precon.doDot DG_DEBUG ranks2 ∧
  (∀ first rest, ranks1 = first :: rest → Forall reducible ranks1 →
   Precon.doDot DG_DEBUG ranks1
   = Comp [Allreduce MPI_COMM_WORLD]
       (Returns (fold_left add (map interior_sum rest) (interior_sum first))) ∧
   Precon.doDot DG_DEBUG ranks2
   = Comp [Allreduce MPI_COMM_WORLD]
       (Returns (fold_left add (map interior_sum rest) (interior_sum first)))).
Proof.
  intros Hsame.
  assert (Precon.doDot DG_DEBUG ranks1 = Precon.doDot DG_DEBUG ranks2) as Heq.
  { unfold Precon.doDot.
    rewrite (doDot_temps_interior DG_DEBUG ranks1 ranks2 Hsame).
    reflexivity. }
  split; [exact Heq|].
  intros first rest -> Hall. rewrite <- Heq.
  split; apply doDot_interior_sums; exact Hall.
Qed.

Lemma doDot_reads_interior_only_witness :
  Forall2 same_interiors
    [(wide_x, two_weights, wide_y); (example_x, p_ example_matrix, example_y)]
    [(wide_x_other, two_weights, wide_y_other);
     (other_ghosts_x, p_ example_matrix, other_ghosts_y)] ∧
  Precon.doDot true
    [(wide_x, two_weights, wide_y); (example_x, p_ example_matrix, example_y)]
  = Precon.doDot true
      [(wide_x_other, two_weights, wide_y_other);
       (other_ghosts_x, p_ example_matrix, other_ghosts_y)] ∧
  Forall reducible
    [(wide_x, two_weights, wide_y); (example_x, p_ example_matrix, example_y)] ∧
  Precon.doDot true
    [(wide_x_other, two_weights, wide_y_other);
     (other_ghosts_x, p_ example_matrix, other_ghosts_y)]
  = Comp [Allreduce MPI_COMM_WORLD]
      (Returns (fold_left add
                  (map interior_sum [(example_x, p_ example_matrix, example_y)])
                  (interior_sum (wide_x, two_weights, wide_y)))) ∧
  interior_sum (wide_x, two_weights, wide_y)
  = 11 * 2 * 14 + 12 * 1 * 13 + 13 * 2 * 12 + 14 * 1 * 11 ∧
  interior_sum (example_x, p_ example_matrix, example_y) = 5 * 2 * 5 ∧
  Precon.doDot true
    [(wide_x_other, two_weights, wide_y_other);
     (other_ghosts_x, p_ example_matrix, other_ghosts_y)]
  = Comp [Allreduce MPI_COMM_WORLD] (Returns 980).
Proof.
  assert (Forall2 same_interiors
            [(wide_x, two_weights, wide_y);
             (example_x, p_ example_matrix, example_y)]
            [(wide_x_other, two_weights, wide_y_other);
             (other_ghosts_x, p_ example_matrix, other_ghosts_y)]) as Hsame.
  { constructor; [|constructor; [|constructor]].
    - assert (∀ t, interior wide_x t → t = 10 ∨ t = 11 ∨ t = 12 ∨ t = 13)
        as Hmid.
      { intros t (k & i & j & l & Hk & Hi & Hj & Hl & ->). simpl in *. lia. }
      repeat split; simpl; try lia; try reflexivity.
      + intros t [-> | [-> | [-> | ->]]]%Hmid; reflexivity.
      + intros t [-> | [-> | [-> | ->]]]%Hmid; reflexivity.
    - assert (∀ t, interior example_x t → t = 4) as Hmid.
      { intros t (k & i & j & l & Hk & Hi & Hj & Hl & ->). simpl in *. lia. }
      repeat split; simpl; try lia; try reflexivity.
      + intros t ->%Hmid. reflexivity.
      + intros t ->%Hmid. reflexivity. }
  assert (Forall reducible
            [(wide_x, two_weights, wide_y);
             (example_x, p_ example_matrix, example_y)]) as Hall.
  { constructor; [|constructor; [|constructor]];
      repeat split; try reflexivity; discriminate. }
  destruct (doDot_reads_interior_only true _ _ Hsame) as [Heq Hsum].
  split; [exact Hsame|]. split; [exact Heq|]. split; [exact Hall|].
  split; [apply (Hsum _ _ eq_refl Hall)|].
  repeat split; reflexivity.
Defined.

(** C10.  symv clears the whole output vector before it adds to it: two
    calls with the same matrix and the same [x], on output vectors that
    differ in their values only, make the same MPI calls and end with the
    same outcome and the same vectors. *)
Theorem symv_forgets_output {R : Type} `{Scalar R} (DG_DEBUG : bool)
    (x_col x_row : MPI_Comm → MPI_Vector R → MPI_Vector R)
    (M : MPI_Matrix R) (x y1 y2 : MPI_Vector R) :
  same_shape y1 y2 →
  symv DG_DEBUG x_col x_row M x y1 = symv DG_DEBUG x_col x_row M x y2.
Proof.
  intros Hshape. unfold symv.
  rewrite (symv_unweighted_output DG_DEBUG x_col x_row M x y1 y2 Hshape).
  reflexivity.
Qed.

Lemma symv_forgets_output_witness :
  same_shape example_y zero_y ∧
  symv true no_neighbours no_neighbours example_matrix example_x example_y
  = symv true no_neighbours no_neighbours example_matrix example_x zero_y ∧
  symv true no_neighbours no_neighbours example_matrix example_x zero_y
  = Comp [Comm_rank cart; Exchange_col cart]
      (Returns (example_x, cells3 [0; 0; 0; 50; 30; 0; 0; 0; 0])).
Proof.
  split; [repeat split|]. split; [|reflexivity].
  apply (symv_forgets_output true no_neighbours no_neighbours example_matrix
           example_x example_y zero_y).
  repeat split.
Defined.

(** * Further properties of the kernels *)

(** X1.  symv starts with MPI_Comm_rank on the communicator of the
    matrix; after it come at most the exchange of the ghost columns and
    then at most the exchange of the ghost rows, both on that
    communicator.  It makes no other MPI call, whatever the matrix and
    the vectors, and also when it fails. *)
Theorem symv_calls_in_order {R : Type} `{Scalar R} (DG_DEBUG : bool)
    (x_col x_row : MPI_Comm → MPI_Vector R → MPI_Vector R)
    (M : MPI_Matrix R) (x y : MPI_Vector R) :
  ∃ rest, events (symv DG_DEBUG x_col x_row M x y) = Comm_rank (comm_ M) :: rest ∧
    sublist rest [Exchange_col (comm_ M); Exchange_row (comm_ M)].
Proof.
  rewrite symv_events_any. eexists. split; [reflexivity|].
  destruct (symv_update M) as [[[|] [|]]| |]; simpl; repeat constructor.
Qed.

(** X2.  A matrix as the constructors leave it, with [number] empty
    blocks in each direction, no boundary rows and no preconditioner, is
    the zero operator: symv asks for the rank, exchanges nothing, leaves
    [x] and sets every value of [y] to zero.  In a debug build the two
    vectors must have one size. *)
Theorem symv_of_constructed_matrix {R : Type} `{Scalar R} (DG_DEBUG : bool)
    (x_col x_row : MPI_Comm → MPI_Vector R → MPI_Vector R)
    (bcx bcy : bc) (comm : MPI_Comm) (number : nat) (x y : MPI_Vector R) :
  (DG_DEBUG = true → size (data x) = size (data y)) →
  symv DG_DEBUG x_col x_row (MPI_Matrix_xy bcx bcy comm number) x y
  = Comp [Comm_rank comm]
      (Returns (x, set_data y (replicate (length (data y)) zero))) ∧
  symv DG_DEBUG x_col x_row (MPI_Matrix_x bcx comm number) x y
  = Comp [Comm_rank comm]
      (Returns (x, set_data y (replicate (length (data y)) zero))).
Proof.
  intros Hdbg.
  assert (∀ bcy,
            symv DG_DEBUG x_col x_row (MPI_Matrix_xy bcx bcy comm number) x y
            = Comp [Comm_rank comm]
                (Returns (x, set_data y (replicate (length (data y)) zero))))
    as Hxy; [|split; [apply Hxy | apply (Hxy PER)]].
  intros bcy'. unfold symv, symv_unweighted.
  rewrite symv_update_flags by (simpl; rewrite !length_replicate; reflexivity).
  simpl dataX_. simpl dataY_. rewrite !existsb_nonempty_replicate.
  unfold symv_exchange.
  cbn [mbind comp_bind result events lift emit mret comp_ret app fst snd].
  rewrite zero_loop.
  rewrite (assert_passes DG_DEBUG) by (intros Hd; specialize (Hdbg Hd); lia).
  rewrite symv_blocks_empty.
  - reflexivity.
  - simpl. rewrite !length_replicate. reflexivity.
  - simpl. intros blk [-> _]%elem_of_replicate. reflexivity.
  - simpl. intros blk [-> _]%elem_of_replicate. reflexivity.
Qed.

Lemma symv_of_constructed_matrix_witness :
  (true = true → size (data example_x) = size (data example_y)) ∧
  symv true no_neighbours no_neighbours (MPI_Matrix_xy DIR NEU cart 2)
    example_x example_y
  = Comp [Comm_rank cart]
      (Returns (example_x,
                set_data example_y (replicate (length (data example_y)) zero))) ∧
  symv true no_neighbours no_neighbours (MPI_Matrix_x DIR cart 2)
    example_x example_y
  = Comp [Comm_rank cart]
      (Returns (example_x,
                set_data example_y (replicate (length (data example_y)) zero))).
Proof.
  split; [reflexivity|].
  apply (symv_of_constructed_matrix true no_neighbours no_neighbours DIR NEU
           cart 2 example_x example_y).
  reflexivity.
Defined.


(** X4.  The adjoint direction of a derivative: inverse exchanges
    forward with backward, taking it twice gives the direction back, and
    centered is the only one it leaves. *)
Theorem inverse_direction_involution (dir : Elliptic.direction) :
  Elliptic.inverse_direction (Elliptic.inverse_direction dir) = dir ∧
  (Elliptic.inverse_direction dir = dir ↔ dir = Elliptic.centered).
Proof.
  destruct dir; simpl; split; try reflexivity; split; congruence.
Qed.

(** X5.  applyX changes the output vector only at the positions of the
    boundary rows of the table: a call that returns leaves the layout and
    the length of [y], and every value at a position that no row of the
    table addresses. *)
Theorem applyX_leaves_the_rest {R : Type} `{Scalar R} (b : BoundaryTerms R)
    (x y y' : MPI_Vector R) :
  applyX b x y = Returns y' →
  same_shape y y' ∧
  ∀ t : nat, ¬ targeted_X b x (Z.of_nat t) → data y' !! t = data y !! t.
Proof.
  intros Hrun. split; [exact (applyX_same_shape b x y y' Hrun)|].
  intros t Hnot.
  destruct (applyX_holds_at b x y y' t Hrun Hnot) as [_ [_ Hv]]. exact Hv.
Qed.

Lemma applyX_leaves_the_rest_witness :
  applyX example_yterm example_x example_y
  = Returns (cells3 [9; 8; 7; 35; 5; 4; 3; 2; 1]) ∧
  same_shape example_y (cells3 [9; 8; 7; 35; 5; 4; 3; 2; 1]) ∧
  ∀ t : nat, ¬ targeted_X example_yterm example_x (Z.of_nat t) →
    data (cells3 [9; 8; 7; 35; 5; 4; 3; 2; 1]) !! t = data example_y !! t.
Proof.
  split; [reflexivity|].
  apply (applyX_leaves_the_rest example_yterm example_x example_y
           (cells3 [9; 8; 7; 35; 5; 4; 3; 2; 1])).
  reflexivity.
Defined.

(** X6.  applyY changes the output vector only at the positions of the
    boundary rows of the table: a call that returns leaves the layout and
    the length of [y], and every value at a position that no row of the
    table addresses. *)
Theorem applyY_leaves_the_rest {R : Type} `{Scalar R} (b : BoundaryTerms R)
    (x y y' : MPI_Vector R) :
  applyY b x y = Returns y' →
  same_shape y y' ∧
  ∀ t : nat, ¬ targeted_Y b x (Z.of_nat t) → data y' !! t = data y !! t.
Proof.
  intros Hrun. split; [exact (applyY_same_shape b x y y' Hrun)|].
  intros t Hnot.
  destruct (applyY_holds_at b x y y' t Hrun Hnot) as [_ [_ Hv]]. exact Hv.
Qed.

Lemma applyY_leaves_the_rest_witness :
  applyY example_yterm example_x example_y
  = Returns (cells3 [9; 35; 7; 6; 5; 4; 3; 2; 1]) ∧
  same_shape example_y (cells3 [9; 35; 7; 6; 5; 4; 3; 2; 1]) ∧
  ∀ t : nat, ¬ targeted_Y example_yterm example_x (Z.of_nat t) →
    data (cells3 [9; 35; 7; 6; 5; 4; 3; 2; 1]) !! t = data example_y !! t.
Proof.
  split; [reflexivity|].
  apply (applyY_leaves_the_rest example_yterm example_x example_y
           (cells3 [9; 35; 7; 6; 5; 4; 3; 2; 1])).
  reflexivity.
Defined.

(** X7.  symv before the preconditioner writes only inside: when it
    returns, the output has the layout and the length of [y], and it holds
    zero at every position that is neither a coefficient of a cell inside
    the ghost layers nor addressed by a boundary row of the matrix. *)
Theorem symv_writes_inside {R : Type} `{Scalar R} (DG_DEBUG : bool)
    (x_col x_row : MPI_Comm → MPI_Vector R → MPI_Vector R)
    (M : MPI_Matrix R) (x y : MPI_Vector R) (ev : list event)
    (x' y' : MPI_Vector R) :
  symv_unweighted DG_DEBUG x_col x_row M x y = Comp ev (Returns (x', y')) →
  same_shape y y' ∧
  ∀ t : nat, (t < length (data y))%nat →
    ¬ inside x' (Z.of_nat t) →
    ¬ targeted_X (xterm_ M) x' (Z.of_nat t) →
    ¬ targeted_Y (yterm_ M) x' (Z.of_nat t) →
    data y' !! t = Some zero.
Proof.
  intros Hrun.
  destruct (symv_unweighted_steps DG_DEBUG x_col x_row M x y ev x' y' Hrun)
    as (u & yd1 & y2 & _ & _ & Hblocks & HX & HY).
  pose proof (applyX_same_shape _ _ _ _ HX) as SX.
  pose proof (applyY_same_shape _ _ _ _ HY) as SY.
  pose proof (symv_blocks_length _ _ _ _ Hblocks) as Hlen1.
  rewrite length_replicate in Hlen1.
  split.
  - destruct SX as (? & ? & ? & ? & ? & ?), SY as (? & ? & ? & ? & ? & ?).
    simpl in *. repeat split; congruence.
  - intros t Ht Hin HtX HtY.
    destruct (applyY_holds_at _ _ _ _ t HY HtY) as [_ [_ ->]].
    destruct (applyX_holds_at _ _ _ _ t HX HtX) as [_ [_ ->]]. simpl.
    rewrite (symv_blocks_holds_at M x' _ _ t Hblocks Hin).
    apply lookup_replicate_2. exact Ht.
Qed.

Lemma symv_writes_inside_witness :
  symv_unweighted true no_neighbours no_neighbours example_matrix
    example_x example_y
  = Comp [Comm_rank cart; Exchange_col cart]
      (Returns (example_x, cells3 [0; 0; 0; 25; 15; 0; 0; 0; 0])) ∧
  same_shape example_y (cells3 [0; 0; 0; 25; 15; 0; 0; 0; 0]) ∧
  ∀ t : nat, (t < length (data example_y))%nat →
    ¬ inside example_x (Z.of_nat t) →
    ¬ targeted_X (xterm_ example_matrix) example_x (Z.of_nat t) →
    ¬ targeted_Y (yterm_ example_matrix) example_x (Z.of_nat t) →
    data (cells3 [0; 0; 0; 25; 15; 0; 0; 0; 0]) !! t = Some zero.
Proof.
  split; [reflexivity|].
  apply (symv_writes_inside true no_neighbours no_neighbours example_matrix
           example_x example_y [Comm_rank cart; Exchange_col cart] example_x
           (cells3 [0; 0; 0; 25; 15; 0; 0; 0; 0])).
  reflexivity.
Defined.

(** X8.  update_boundaryX with a boundary condition that is not
    periodic, on a vector of the layout of mpi_matrix.h after its
    exchange: the call returns and leaves the layout; on the rank with
    coordinate 0 every value of the first column of cells is overwritten
    with 1e6, on the rank with the last coordinate every value of the last
    column, and every other value is the one the exchange left.  A rank
    that is alone in its direction marks both columns. *)
Theorem update_boundaryX_marks_the_edges {R : Type}
    (x_col : MPI_Comm → MPI_Vector R → MPI_Vector R)
    (MPI_Cart : MPI_Comm → cart_topology) (lit_1e6 : R)
    (M : MPI_Matrix R) (v : MPI_Vector R) (c d : Z) :
  bcx_ M ≠ PER →
  laid_out (x_col (comm_ M) v) →
  1 ≤ Nx (x_col (comm_ M) v) → 1 ≤ n (x_col (comm_ M) v) →
  coords (MPI_Cart (comm_ M)) !! 0%nat = Some c →
  dims (MPI_Cart (comm_ M)) !! 0%nat = Some d →
  - 2 ^ 31 < d < 2 ^ 31 →
  ∃ v', (update_boundaryX x_col MPI_Cart lit_1e6 M v).2 = Returns v' ∧
    same_shape (x_col (comm_ M) v) v' ∧
    ∀ s i k j l,
      0 ≤ s < Nz v' → 0 ≤ i < Ny v' → 0 ≤ k < n v' → 0 ≤ j < Nx v' →
      0 ≤ l < n v' →
      data v' !! Z.to_nat (point (Ny v') (Nx v') (n v') s i k j l) =
      if (c =? 0) && (j =? 0) || (c =? d - 1) && (j =? Nx v' - 1)
      then Some lit_1e6
      else data (x_col (comm_ M) v)
             !! Z.to_nat (point (Ny v') (Nx v') (n v') s i k j l).
Proof.
  set (v1 := x_col (comm_ M) v).
  intros Hbc (HNz & HNy & HNx & Hn & Hsz & Hlt) Hcols Hn1 Hc Hd Hint.
  unfold update_boundaryX. fold v1.
  assert (is_PER (bcx_ M) = false) as ->
    by (destruct (bcx_ M) eqn:E; simpl; congruence).
  cbn [snd].
  assert (load (coords (MPI_Cart (comm_ M))) 0 = Returns c) as ->
    by (apply load_Returns; split; [lia | exact Hc]).
  assert (load (dims (MPI_Cart (comm_ M))) 0 = Returns d) as ->
    by (apply load_Returns; split; [lia | exact Hd]).
  rewrite !bind_Returns.
  assert (int_sub d 1 = Returns (d - 1)) as ->.
  { unfold int_sub.
    replace ((- 2 ^ 31 <=? d - 1) && (d - 1 <? 2 ^ 31)) with true by lia.
    reflexivity. }
  rewrite !bind_Returns.
  assert (0 ≤ Nz v1 * Ny v1 * n v1 < 2 ^ 32) as Hrows.
  { assert (0 ≤ Nz v1 * Ny v1 * n v1) by nia.
    assert (1 ≤ Nx v1 * n v1) by nia.
    assert (Nz v1 * Ny v1 * n v1 * 1 ≤ Nz v1 * Ny v1 * n v1 * (Nx v1 * n v1))
      by (apply Z.mul_le_mono_nonneg_l; lia).
    lia. }
  rewrite (u32_small _ Hrows).
  assert (∀ vd : list R, length vd = length (data v1) →
            size vd = Nz v1 * Ny v1 * n v1 * Nx v1 * n v1 ∧ size vd < 2 ^ 32)
    as Hsize.
  { intros vd Hl. unfold size in *. rewrite Hl. lia. }
  assert (∀ s i k j l,
            point (Ny v1) (Nx v1) (n v1) s i k j l
            = (((s * Ny v1 + i) * n v1 + k) * Nx v1 + j) * n v1 + l) as Hpoint
    by reflexivity.
  assert (∀ s i k, 0 ≤ s < Nz v1 → 0 ≤ i < Ny v1 → 0 ≤ k < n v1 →
            0 ≤ (s * Ny v1 + i) * n v1 + k < Nz v1 * Ny v1 * n v1) as Hrow.
  { intros s i k Hs Hi Hk.
    assert (0 ≤ s * Ny v1 + i ≤ Nz v1 * Ny v1 - 1) by nia. nia. }
  (* the upper edge *)
  assert (∃ vd1,
            (if c =? d - 1
             then fill_col (Nz v1 * Ny v1 * n v1) (Nx v1) (n v1) (Nx v1 - 1)
                    lit_1e6 (data v1)
             else mret (data v1)) = Returns vd1 ∧
            length vd1 = length (data v1) ∧
            ∀ i j q, 0 ≤ i < Nz v1 * Ny v1 * n v1 → 0 ≤ j < Nx v1 → 0 ≤ q < n v1 →
              vd1 !! Z.to_nat ((i * Nx v1 + j) * n v1 + q) =
              if (c =? d - 1) && (j =? Nx v1 - 1) then Some lit_1e6
              else data v1 !! Z.to_nat ((i * Nx v1 + j) * n v1 + q))
    as (vd1 & -> & Hlen1 & Hval1).
  { destruct (c =? d - 1).
    - destruct (Hsize (data v1) eq_refl) as [Hs1 Hs2].
      apply fill_col_spec; lia.
    - exists (data v1). auto. }
  rewrite !bind_Returns.
  (* the lower edge *)
  assert (∃ vd2,
            (if c =? 0
             then fill_col (Nz v1 * Ny v1 * n v1) (Nx v1) (n v1) 0 lit_1e6 vd1
             else mret vd1) = Returns vd2 ∧
            length vd2 = length vd1 ∧
            ∀ i j q, 0 ≤ i < Nz v1 * Ny v1 * n v1 → 0 ≤ j < Nx v1 → 0 ≤ q < n v1 →
              vd2 !! Z.to_nat ((i * Nx v1 + j) * n v1 + q) =
              if (c =? 0) && (j =? 0) then Some lit_1e6
              else vd1 !! Z.to_nat ((i * Nx v1 + j) * n v1 + q))
    as (vd2 & -> & Hlen2 & Hval2).
  { destruct (c =? 0).
    - destruct (Hsize vd1 Hlen1) as [Hs1 Hs2].
      apply fill_col_spec; lia.
    - exists vd1. auto. }
  rewrite bind_Returns.
  eexists. split; [reflexivity|]. split.
  - repeat split; simpl. congruence.
  - simpl. intros s i k j l Hs Hi Hk Hj Hl.
    rewrite Hpoint, Hval2, Hval1 by (auto; lia).
    destruct (c =? 0), (j =? 0), (c =? d - 1), (j =? Nx v1 - 1); reflexivity.
Qed.

Lemma update_boundaryX_marks_the_edges_witness :
  (bcx_ (MPI_Matrix_xy DIR NEU cart 1 : MPI_Matrix Z) ≠ PER ∧
   laid_out example_x ∧ 1 ≤ Nx example_x ∧ 1 ≤ n example_x ∧
   coords (corner_of_two_by_one cart) !! 0%nat = Some 0 ∧
   dims (corner_of_two_by_one cart) !! 0%nat = Some 2 ∧
   - 2 ^ 31 < 2 < 2 ^ 31) ∧
  (∃ v', (update_boundaryX no_neighbours corner_of_two_by_one 1000000
            (MPI_Matrix_xy DIR NEU cart 1) example_x).2 = Returns v' ∧
     same_shape example_x v' ∧
     ∀ s i k j l,
       0 ≤ s < Nz v' → 0 ≤ i < Ny v' → 0 ≤ k < n v' → 0 ≤ j < Nx v' →
       0 ≤ l < n v' →
       data v' !! Z.to_nat (point (Ny v') (Nx v') (n v') s i k j l) =
       if (0 =? 0) && (j =? 0) || (0 =? 2 - 1) && (j =? Nx v' - 1)
       then Some 1000000
       else data example_x
              !! Z.to_nat (point (Ny v') (Nx v') (n v') s i k j l)) ∧
  (update_boundaryX no_neighbours corner_of_two_by_one 1000000
     (MPI_Matrix_xy DIR NEU cart 1) example_x).2
  = Returns (cells3 [1000000; 2; 3; 1000000; 5; 6; 1000000; 8; 9]).
Proof.
  split; [|split; [|reflexivity]].
  - split; [discriminate|]. repeat split; try reflexivity; discriminate.
  - apply (update_boundaryX_marks_the_edges no_neighbours corner_of_two_by_one
             1000000 (MPI_Matrix_xy DIR NEU cart 1) example_x 0 2).
    + discriminate.
    + repeat split; try reflexivity; discriminate.
    + discriminate.
    + discriminate.
    + reflexivity.
    + reflexivity.
    + split; reflexivity.
Defined.

(** X9.  update_boundaryY with a boundary condition that is not
    periodic, on a vector of the layout of mpi_matrix.h after its
    exchange: the call returns and leaves the layout; on the rank with the
    last coordinate in y every value of the last row of cells is
    overwritten with 1e6, on the rank with coordinate 0 every value of the
    first row with 1e5, and every other value is the one the exchange
    left.  The first row is written last: where both rows are one row it
    holds 1e5. *)
Theorem update_boundaryY_marks_the_edges {R : Type}
    (x_row : MPI_Comm → MPI_Vector R → MPI_Vector R)
    (MPI_Cart : MPI_Comm → cart_topology) (lit_1e6 lit_1e5 : R)
    (M : MPI_Matrix R) (v : MPI_Vector R) (c d : Z) :
  bcy_ M ≠ PER →
  laid_out (x_row (comm_ M) v) →
  1 ≤ Nz (x_row (comm_ M) v) → 1 ≤ Ny (x_row (comm_ M) v) →
  1 ≤ n (x_row (comm_ M) v) →
  coords (MPI_Cart (comm_ M)) !! 1%nat = Some c →
  dims (MPI_Cart (comm_ M)) !! 1%nat = Some d →
  - 2 ^ 31 < d < 2 ^ 31 →
  ∃ v', (update_boundaryY x_row MPI_Cart lit_1e6 lit_1e5 M v).2 = Returns v' ∧
    same_shape (x_row (comm_ M) v) v' ∧
    ∀ s i k j l,
      0 ≤ s < Nz v' → 0 ≤ i < Ny v' → 0 ≤ k < n v' → 0 ≤ j < Nx v' →
      0 ≤ l < n v' →
      data v' !! Z.to_nat (point (Ny v') (Nx v') (n v') s i k j l) =
      if (c =? 0) && (i =? 0) then Some lit_1e5
      else if (c =? d - 1) && (i =? Ny v' - 1) then Some lit_1e6
      else data (x_row (comm_ M) v)
             !! Z.to_nat (point (Ny v') (Nx v') (n v') s i k j l).
Proof.
  set (v1 := x_row (comm_ M) v).
  intros Hbc (HNz & HNy & HNx & Hn & Hsz & Hlt) Hplanes Hrows Hn1 Hc Hd Hint.
  unfold update_boundaryY. fold v1.
  assert (is_PER (bcy_ M) = false) as ->
    by (destruct (bcy_ M) eqn:E; simpl; congruence).
  cbn [snd].
  assert (load (coords (MPI_Cart (comm_ M))) 1 = Returns c) as ->
    by (apply load_Returns; split; [lia | exact Hc]).
  assert (load (dims (MPI_Cart (comm_ M))) 1 = Returns d) as ->
    by (apply load_Returns; split; [lia | exact Hd]).
  rewrite !bind_Returns.
  assert (int_sub d 1 = Returns (d - 1)) as ->.
  { unfold int_sub.
    replace ((- 2 ^ 31 <=? d - 1) && (d - 1 <? 2 ^ 31)) with true by lia.
    reflexivity. }
  rewrite !bind_Returns.
  assert (0 ≤ Nx v1 * n v1 < 2 ^ 32) as Hcols.
  { assert (0 ≤ Nx v1 * n v1) by nia.
    assert (1 ≤ Nz v1 * Ny v1 * n v1) by nia.
    assert (1 * (Nx v1 * n v1) ≤ Nz v1 * Ny v1 * n v1 * (Nx v1 * n v1))
      by (apply Z.mul_le_mono_nonneg_r; lia).
    lia. }
  rewrite (u32_small _ Hcols).
  assert (∀ vd : list R, length vd = length (data v1) →
            size vd = Nz v1 * Ny v1 * n v1 * (Nx v1 * n v1) ∧ size vd < 2 ^ 32)
    as Hsize.
  { intros vd Hl. unfold size in *. rewrite Hl. lia. }
  assert (∀ s i k j l,
            point (Ny v1) (Nx v1) (n v1) s i k j l
            = ((s * Ny v1 + i) * n v1 + k) * (Nx v1 * n v1) + (j * n v1 + l))
    as Hpoint by (intros; unfold point; ring).
  (* the upper edge *)
  assert (∃ vd1,
            (if c =? d - 1
             then fill_row (Nz v1) (Ny v1) (Nx v1 * n v1) (n v1) (Ny v1 - 1)
                    lit_1e6 (data v1)
             else mret (data v1)) = Returns vd1 ∧
            length vd1 = length (data v1) ∧
            ∀ s i k j, 0 ≤ s < Nz v1 → 0 ≤ i < Ny v1 → 0 ≤ k < n v1 →
              0 ≤ j < Nx v1 * n v1 →
              vd1 !! Z.to_nat (((s * Ny v1 + i) * n v1 + k) * (Nx v1 * n v1) + j) =
              if (c =? d - 1) && (i =? Ny v1 - 1) then Some lit_1e6
              else data v1
                     !! Z.to_nat (((s * Ny v1 + i) * n v1 + k) * (Nx v1 * n v1) + j))
    as (vd1 & -> & Hlen1 & Hval1).
  { destruct (c =? d - 1).
    - destruct (Hsize (data v1) eq_refl) as [Hs1 Hs2].
      apply fill_row_spec; lia.
    - exists (data v1). auto. }
  rewrite !bind_Returns.
  (* the lower edge *)
  assert (∃ vd2,
            (if c =? 0
             then fill_row (Nz v1) (Ny v1) (Nx v1 * n v1) (n v1) 0 lit_1e5 vd1
             else mret vd1) = Returns vd2 ∧
            length vd2 = length vd1 ∧
            ∀ s i k j, 0 ≤ s < Nz v1 → 0 ≤ i < Ny v1 → 0 ≤ k < n v1 →
              0 ≤ j < Nx v1 * n v1 →
              vd2 !! Z.to_nat (((s * Ny v1 + i) * n v1 + k) * (Nx v1 * n v1) + j) =
              if (c =? 0) && (i =? 0) then Some lit_1e5
              else vd1
                     !! Z.to_nat (((s * Ny v1 + i) * n v1 + k) * (Nx v1 * n v1) + j))
    as (vd2 & -> & Hlen2 & Hval2).
  { destruct (c =? 0).
    - destruct (Hsize vd1 Hlen1) as [Hs1 Hs2].
      apply fill_row_spec; lia.
    - exists vd1. auto. }
  rewrite bind_Returns.
  eexists. split; [reflexivity|]. split.
  - repeat split; simpl. congruence.
  - simpl. intros s i k j l Hs Hi Hk Hj Hl.
    assert (0 ≤ j * n v1 + l < Nx v1 * n v1) as Hjl by nia.
    rewrite Hpoint, Hval2, Hval1 by (auto; lia).
    reflexivity.
Qed.

Lemma update_boundaryY_marks_the_edges_witness :
  (bcy_ (MPI_Matrix_xy DIR NEU cart 1 : MPI_Matrix Z) ≠ PER ∧
   laid_out example_x ∧ 1 ≤ Nz example_x ∧ 1 ≤ Ny example_x ∧
   1 ≤ n example_x ∧
   coords (corner_of_two_by_one cart) !! 1%nat = Some 0 ∧
   dims (corner_of_two_by_one cart) !! 1%nat = Some 1 ∧
   - 2 ^ 31 < 1 < 2 ^ 31) ∧
  (∃ v', (update_boundaryY no_neighbours corner_of_two_by_one 1000000 100000
            (MPI_Matrix_xy DIR NEU cart 1) example_x).2 = Returns v' ∧
     same_shape example_x v' ∧
     ∀ s i k j l,
       0 ≤ s < Nz v' → 0 ≤ i < Ny v' → 0 ≤ k < n v' → 0 ≤ j < Nx v' →
       0 ≤ l < n v' →
       data v' !! Z.to_nat (point (Ny v') (Nx v') (n v') s i k j l) =
       if (0 =? 0) && (i =? 0) then Some 100000
       else if (0 =? 1 - 1) && (i =? Ny v' - 1) then Some 1000000
       else data example_x
              !! Z.to_nat (point (Ny v') (Nx v') (n v') s i k j l)) ∧
  (update_boundaryY no_neighbours corner_of_two_by_one 1000000 100000
     (MPI_Matrix_xy DIR NEU cart 1) example_x).2
  = Returns (cells3 [100000; 100000; 100000; 4; 5; 6; 1000000; 1000000; 1000000]).
Proof.
  split; [|split; [|reflexivity]].
  - split; [discriminate|]. repeat split; try reflexivity; discriminate.
  - apply (update_boundaryY_marks_the_edges no_neighbours corner_of_two_by_one
             1000000 100000 (MPI_Matrix_xy DIR NEU cart 1) example_x 0 1).
    + discriminate.
    + repeat split; try reflexivity; discriminate.
    + discriminate.
    + discriminate.
    + discriminate.
    + reflexivity.
    + reflexivity.
    + split; reflexivity.
Defined.

(** X10.  update_boundaryY reads the second coordinate of the rank: with
    a boundary condition that is not periodic on a communicator whose
    grid has fewer than two dimensions the call is undefined, after the
    exchange of the ghost rows and the two queries of the grid. *)
Theorem update_boundaryY_needs_two_dimensions {R : Type}
    (x_row : MPI_Comm → MPI_Vector R → MPI_Vector R)
    (MPI_Cart : MPI_Comm → cart_topology) (lit_1e6 lit_1e5 : R)
    (M : MPI_Matrix R) (v : MPI_Vector R) :
  bcy_ M ≠ PER →
  (length (coords (MPI_Cart (comm_ M))) ≤ 1)%nat →
  update_boundaryY x_row MPI_Cart lit_1e6 lit_1e5 M v
  = ([inl (Exchange_row (comm_ M)); inr (Cartdim_get (comm_ M));
      inr (Cart_get (comm_ M))], Undefined).
Proof.
  intros Hbc Hlen. unfold update_boundaryY.
  assert (is_PER (bcy_ M) = false) as ->
    by (destruct (bcy_ M) eqn:E; simpl; congruence).
  rewrite load_out_of_range by (unfold size; lia). reflexivity.
Qed.

Lemma update_boundaryY_needs_two_dimensions_witness :
  (bcy_ (MPI_Matrix_xy DIR NEU cart 1 : MPI_Matrix Z) ≠ PER ∧
   (length (coords (line_of_two cart)) ≤ 1)%nat) ∧
  update_boundaryY no_neighbours line_of_two 1000000 100000
    (MPI_Matrix_xy DIR NEU cart 1) example_x
  = ([inl (Exchange_row cart); inr (Cartdim_get cart); inr (Cart_get cart)],
     Undefined).
Proof.
  split; [split; [discriminate | simpl; lia]|].
  apply (update_boundaryY_needs_two_dimensions no_neighbours line_of_two
           1000000 100000 (MPI_Matrix_xy DIR NEU cart 1) example_x).
  - discriminate.
  - simpl. lia.
Defined.

(** X11.  doSymv( m, x, y) with weights, on vectors of one size at any
    two addresses: the call returns, changes no vector but [y], leaves the
    layout of [y], and position [j] of [y] holds m.data[j mod s] * x[j]
    with the value that [x] had before the call, also when [x] and [y]
    are one vector.  doGemv does the same.  In a debug build the size has
    to be a multiple of the number of weights, which has to be the stride
    of [x]. *)
Theorem doSymv_entries {R : Type} `{Scalar R} (DG_DEBUG : bool)
    (m : MPI_Precon R) (x y : nat) (st : nat → MPI_Vector R) :
  precon_data m ≠ [] →
  size (precon_data m) < 2 ^ 32 →
  size (data (st x)) < 2 ^ 32 →
  size (data (st y)) = size (data (st x)) →
  (DG_DEBUG = true →
     size (data (st x)) mod size (precon_data m) = 0 ∧
     stride (st x) = size (precon_data m)) →
  ∃ st', Precon.doSymv DG_DEBUG m x y st = Returns st' ∧
    Precon.doGemv DG_DEBUG m x y st = Returns st' ∧
    (∀ a, a ≠ y → st' a = st a) ∧
    same_shape (st y) (st' y) ∧
    ∀ (j : nat) (xv mv : R),
      data (st x) !! j = Some xv →
      precon_data m !! (j mod length (precon_data m))%nat = Some mv →
      data (st' y) !! j = Some (mul mv xv).
Proof.
  intros Hne Hm Hx Hxy Hdbg.
  destruct (doSymv_weighted DG_DEBUG m x y st Hne Hm Hx Hxy Hdbg)
    as (st' & Hrun & Hoth & Hmeta & Hlen & Hval).
  exists st'. split; [exact Hrun|]. split; [exact Hrun|]. split; [exact Hoth|].
  split.
  - repeat split; try (rewrite Hmeta; reflexivity). symmetry. exact Hlen.
  - intros j xv mv Lx Lm.
    rewrite Hval by (apply lookup_lt_Some in Lx; unfold size in Hxy; lia).
    unfold weighted, size. rewrite Lx. simpl.
    rewrite <- Nat2Z.inj_mod, Nat2Z.id, Lm. reflexivity.
Qed.

Lemma doSymv_entries_witness :
  (precon_data two_weights ≠ [] ∧
   size (precon_data two_weights) < 2 ^ 32 ∧
   size (data (example_objects 0%nat)) < 2 ^ 32 ∧
   size (data (example_objects 0%nat)) = size (data (example_objects 0%nat)) ∧
   (true = true →
      size (data (example_objects 0%nat)) mod size (precon_data two_weights) = 0 ∧
      stride (example_objects 0%nat) = size (precon_data two_weights))) ∧
  (∃ st', Precon.doSymv true two_weights 0%nat 0%nat example_objects = Returns st' ∧
     Precon.doGemv true two_weights 0%nat 0%nat example_objects = Returns st' ∧
     (∀ a, a ≠ 0%nat → st' a = example_objects a) ∧
     same_shape (example_objects 0%nat) (st' 0%nat) ∧
     ∀ (j : nat) (xv mv : Z),
       data (example_objects 0%nat) !! j = Some xv →
       precon_data two_weights !! (j mod length (precon_data two_weights))%nat
         = Some mv →
       data (st' 0%nat) !! j = Some (mul mv xv)) ∧
  (st ← Precon.doSymv true two_weights 0%nat 0%nat example_objects;
   mret (data (st 0%nat), data (st 1%nat)))
  = Returns ([2; 2; 6; 4], [10; 20; 30; 40]).
Proof.
  split; [|split; [|reflexivity]].
  - repeat split; try reflexivity; discriminate.
  - apply (doSymv_entries true two_weights 0%nat 0%nat example_objects);
      try reflexivity; try discriminate.
    intros _. split; reflexivity.
Defined.

(** X12.  doSymv( m, x, y) without weights.  A debug build stops at its
    first assertion.  A release build divides by the number of weights
    in its first step: the call is undefined unless [x] is empty, when
    nothing happens.  symv avoids the call by testing the preconditioner
    first. *)
Theorem doSymv_without_weights {R : Type} `{Scalar R}
    (m : MPI_Precon R) (x y : nat) (st : nat → MPI_Vector R) :
  precon_data m = [] →
  Precon.doSymv true m x y st = AssertionFailed ∧
  (data (st x) = [] → Precon.doSymv false m x y st = Returns st) ∧
  (data (st x) ≠ [] → size (data (st x)) < 2 ^ 32 →
   Precon.doSymv false m x y st = Undefined) ∧
  (∀ (DG_DEBUG : bool) (M : MPI_Matrix R) (v : MPI_Vector R),
     precon_data (p_ M) = [] → symv_precond DG_DEBUG M v = Returns v).
Proof.
  intros Hm. unfold Precon.doSymv. rewrite Hm. split; [reflexivity|].
  split; [|split].
  - intros ->. reflexivity.
  - intros Hne Hlt. simpl.
    assert (0 < size (data (st x))) as Hpos.
    { unfold size. destruct (data (st x)); [contradiction | simpl; lia]. }
    rewrite (u32_small (size (data (st x)))) by lia.
    apply (for_loop_stops (λ _, True) 0 0); auto; [lia | intros; lia].
  - intros DG_DEBUG M v HM. unfold symv_precond. rewrite HM. reflexivity.
Qed.

Lemma doSymv_without_weights_witness :
  precon_data ({| precon_data := [] |} : MPI_Precon Z) = [] ∧
  Precon.doSymv true {| precon_data := [] |} 0%nat 1%nat example_objects
  = AssertionFailed ∧
  (data (example_objects 0%nat) = [] →
   Precon.doSymv false {| precon_data := [] |} 0%nat 1%nat example_objects
   = Returns example_objects) ∧
  (data (example_objects 0%nat) ≠ [] →
   size (data (example_objects 0%nat)) < 2 ^ 32 →
   Precon.doSymv false {| precon_data := [] |} 0%nat 1%nat example_objects
   = Undefined) ∧
  (∀ (DG_DEBUG : bool) (M : MPI_Matrix Z) (v : MPI_Vector Z),
     precon_data (p_ M) = [] → symv_precond DG_DEBUG M v = Returns v).
Proof.
  split; [reflexivity|].
  apply (doSymv_without_weights {| precon_data := [] |} 0%nat 1%nat
           example_objects).
  reflexivity.
Defined.

(** X13.  doSymv( m, x, y) with an output vector shorter than [x].  A
    debug build stops at the assertion on the sizes.  A release build
    writes the positions that [y] has and then writes past its end: the
    call is undefined. *)
Theorem doSymv_short_output {R : Type} `{Scalar R}
    (m : MPI_Precon R) (x y : nat) (st : nat → MPI_Vector R) :
  precon_data m ≠ [] →
  size (precon_data m) < 2 ^ 32 →
  size (data (st y)) < size (data (st x)) < 2 ^ 32 →
  Precon.doSymv true m x y st = AssertionFailed ∧
  Precon.doSymv false m x y st = Undefined.
Proof.
  intros Hne Hm Hsize. unfold Precon.doSymv.
  assert (0 < size (precon_data m)) as Hpos.
  { unfold size. destruct (precon_data m); [contradiction | simpl; lia]. }
  assert (0 ≤ size (data (st y))) as Hy0 by (unfold size; lia).
  assert (x ≠ y) as Hxy by (intros ->; lia).
  rewrite !u32_small by lia. split.
  - rewrite (assert_passes true (1 <=? _)) by (intros _; lia).
    unfold assert.
    replace (size (data (st x)) =? size (data (st y))) with false by lia.
    reflexivity.
  - simpl.
    apply (for_loop_stops
             (λ st', size (data (st' x)) = size (data (st x)) ∧
                     size (data (st' y)) = size (data (st y)))
             0 (size (data (st y)))); auto; [lia | |].
    + intros i Hi st1 [Hx1 Hy1].
      rewrite remainder_Returns by lia. simpl.
      destruct (load_in_range (precon_data m) (i mod size (precon_data m)))
        as (mv & -> & _); [apply Z.mod_pos_bound; lia|]. simpl.
      destruct (load_in_range (data (st1 x)) i) as (xv & -> & _); [lia|].
      simpl. unfold Precon.assign, store.
      replace ((0 <=? i) && (i <? size (data (st1 y)))) with true by lia.
      simpl. eexists. split; [reflexivity|].
      rewrite fn_lookup_insert, fn_lookup_insert_ne by congruence.
      simpl. unfold size in *. rewrite length_insert. auto.
    + intros st1 [Hx1 Hy1].
      rewrite remainder_Returns by lia. simpl.
      destruct (load_in_range (precon_data m)
                  (size (data (st y)) mod size (precon_data m)))
        as (mv & -> & _); [apply Z.mod_pos_bound; lia|]. simpl.
      destruct (load_in_range (data (st1 x)) (size (data (st y))))
        as (xv & -> & _); [lia|].
      simpl. unfold Precon.assign, store.
      replace ((0 <=? size (data (st y))) &&
               (size (data (st y)) <? size (data (st1 y)))) with false by lia.
      reflexivity.
Qed.

Lemma doSymv_short_output_witness :
  (precon_data two_weights ≠ [] ∧ size (precon_data two_weights) < 2 ^ 32 ∧
   size (data (short_output 1%nat)) < size (data (short_output 0%nat)) < 2 ^ 32) ∧
  Precon.doSymv true two_weights 0%nat 1%nat short_output = AssertionFailed ∧
  Precon.doSymv false two_weights 0%nat 1%nat short_output = Undefined.
Proof.
  split; [repeat split; try reflexivity; discriminate|].
  apply (doSymv_short_output two_weights 0%nat 1%nat short_output).
  - discriminate.
  - reflexivity.
  - split; reflexivity.
Defined.

(** ** doDot: vectors without cells inside *)

(** X14.  doDot on a rank whose vectors hold no cell inside the ghost
    layers: no plane, one or two rows, one or two columns, or no value per
    cell.  The loops read nothing, whatever the vectors hold: the rank
    contributes zero, and a single rank returns zero.  In a debug build
    the sizes have to pass the assertions. *)
Theorem doDot_without_cells_inside {R : Type} `{Scalar R} (DG_DEBUG : bool)
    (x y : MPI_Vector R) (m : MPI_Precon R) :
  (DG_DEBUG = true →
     size (data x) = size (data y) ∧ stride x = size (precon_data m)) →
  Nz x ≤ 0 ∨ 1 ≤ Ny x ≤ 2 ∨ 1 ≤ Nx x ≤ 2 ∨ stride x ≤ 0 →
  Precon.doDot_temp DG_DEBUG x m y = Returns zero ∧
  Precon.doDot DG_DEBUG [(x, m, y)]
  = Comp [Allreduce MPI_COMM_WORLD] (Returns zero).
Proof.
  intros Hdbg Hcase.
  assert (Precon.doDot_temp DG_DEBUG x m y = Returns zero) as Htemp.
  { unfold Precon.doDot_temp.
    rewrite !assert_passes by (intros Hd; destruct (Hdbg Hd); lia).
    rewrite !bind_Returns.
    destruct Hcase as [Hz | [Hy | [Hx | Hs]]].
    - apply for_loop_empty. lia.
    - apply for_loop_skip; intros k s0 _.
      apply for_loop_empty.
      destruct (decide (Ny x = 1)) as [->| ?]; [vm_compute; discriminate|].
      replace (Ny x) with 2 by lia. vm_compute. discriminate.
    - apply for_loop_skip; intros k s0 _.
      apply for_loop_skip; intros i s1 _.
      apply for_loop_empty.
      destruct (decide (Nx x = 1)) as [->| ?]; [vm_compute; discriminate|].
      replace (Nx x) with 2 by lia. vm_compute. discriminate.
    - apply for_loop_skip; intros k s0 _.
      apply for_loop_skip; intros i s1 _.
      apply for_loop_skip; intros j s2 _.
      apply for_loop_empty. lia. }
  split; [exact Htemp|].
  unfold Precon.doDot. simpl. rewrite Htemp. reflexivity.
Qed.

Lemma doDot_without_cells_inside_witness :
  ((true = true →
      size (data thin_x) = size (data thin_y) ∧
      stride thin_x = size (precon_data (p_ example_matrix))) ∧
   (Nz thin_x ≤ 0 ∨ 1 ≤ Ny thin_x ≤ 2 ∨ 1 ≤ Nx thin_x ≤ 2 ∨ stride thin_x ≤ 0)) ∧
  Precon.doDot_temp true thin_x (p_ example_matrix) thin_y = Returns zero ∧
  Precon.doDot true [(thin_x, p_ example_matrix, thin_y)]
  = Comp [Allreduce MPI_COMM_WORLD] (Returns zero).
Proof.
  split.
  - split; [intros _; split; reflexivity|].
    right. left. split; discriminate.
  - apply (doDot_without_cells_inside true thin_x thin_y (p_ example_matrix)).
    + intros _. split; reflexivity.
    + right. left. split; discriminate.
Defined.

(** ** Vectors of vectors *)

Lemma mapM_Returns {A B} (f : A → outcome B) (l : list A) (bs : list B) :
  mapM f l = Returns bs → Forall2 (λ a b, f a = Returns b) l bs.
Proof.
  revert bs. induction l as [|a l IH]; intros bs; simpl.
  - intros [= <-]. constructor.
  - destruct (f a) as [b| |] eqn:Ea; simpl; try discriminate.
    destruct (mapM f l) as [bs'| |]; simpl; try discriminate.
    intros [= <-]. constructor; auto.
Qed.

Lemma store_in_range {A} (v : list A) (i : Z) a :
  0 ≤ i < size v → store v i a = Returns (<[Z.to_nat i := a]> v).
Proof.
  intros Hi. apply store_Returns. split; [exact Hi | reflexivity].
Qed.

Section VectorsOfVectors.
Variable DG_DEBUG : bool.
Variables Vector Matrix Superaccumulator value_type : Type.
Variable default : Superaccumulator.
Variable Accumulate : Superaccumulator → Superaccumulator → Superaccumulator.
Variable Round : Superaccumulator → value_type.
Variable doDot_dispatch : Vector → Matrix → Vector → outcome Superaccumulator.

(** The first loop of doDot: one accumulator per component. *)
Lemma doDot_accumulators (x y : list Vector) (m : Matrix)
    (accs : list Superaccumulator) :
  Forall2 (λ p a, doDot_dispatch p.1 m p.2 = Returns a) (zip x y) accs →
  length x = length y →
  for_loop 0 (size x) (λ i acc,
    xi ← load x i;
    yi ← load y i;
    a ← doDot_dispatch xi m yi;
    store acc i a) (replicate (length x) default) = Returns accs.
Proof.
  intros Hall Hlen.
  assert (length accs = length x) as Hla.
  { apply Forall2_length in Hall. rewrite length_zip in Hall. lia. }
  destruct (for_loop_inv
    (λ i acc, acc = take (Z.to_nat i) accs
                    ++ replicate (length x - Z.to_nat i) default)
    0 (size x)
    (λ i acc,
       xi ← load x i;
       yi ← load y i;
       a ← doDot_dispatch xi m yi;
       store acc i a) (replicate (length x) default)) as (acc & -> & ->).
  - unfold size. lia.
  - simpl. rewrite Nat.sub_0_r. reflexivity.
  - intros i acc Hi ->. unfold size in Hi.
    destruct (lookup_lt_is_Some_2 x (Z.to_nat i)) as [xi Lx]; [lia|].
    destruct (lookup_lt_is_Some_2 y (Z.to_nat i)) as [yi Ly]; [lia|].
    destruct (lookup_lt_is_Some_2 accs (Z.to_nat i)) as [a La]; [lia|].
    assert (doDot_dispatch xi m yi = Returns a) as Ha.
    { eapply (Forall2_lookup_lr _ _ _ (Z.to_nat i) (xi, yi) a) in Hall; eauto.
      rewrite lookup_zip_with, Lx. simpl. rewrite Ly. reflexivity. }
    assert (load x i = Returns xi) as ->
      by (apply load_Returns; split; [lia | exact Lx]).
    assert (load y i = Returns yi) as ->
      by (apply load_Returns; split; [lia | exact Ly]).
    rewrite !bind_Returns, Ha, bind_Returns.
    rewrite store_in_range
      by (unfold size; rewrite length_app, length_take, length_replicate; lia).
    eexists. split; [reflexivity|].
    replace (Z.to_nat (i + 1)) with (S (Z.to_nat i)) by lia.
    rewrite (take_S_r _ _ _ La), <- app_assoc.
    rewrite insert_app_r_alt by (rewrite length_take; lia).
    rewrite length_take.
    replace (Z.to_nat i - Z.to_nat i `min` length accs)%nat with 0%nat by lia.
    replace (length x - Z.to_nat i)%nat
      with (S (length x - S (Z.to_nat i))) by lia.
    reflexivity.
  - f_equal. unfold size. rewrite Nat2Z.id, Nat.sub_diag, app_nil_r.
    rewrite <- Hla. apply firstn_all.
Qed.

(** The second loop of doDot: the accumulators are merged into the
    first, from the second to the last. *)
Lemma doDot_merge (len : Z) (a0 : Superaccumulator)
    (rest : list Superaccumulator) :
  len = size (a0 :: rest) →
  for_loop 1 len (λ i acc,
    a0 ← load acc 0;
    ai ← load acc i;
    store acc 0 (Accumulate a0 ai)) (a0 :: rest)
  = Returns (fold_left Accumulate rest a0 :: rest).
Proof.
  intros ->.
  destruct (for_loop_inv
    (λ i acc, acc = fold_left Accumulate (take (Z.to_nat (i - 1)) rest) a0 :: rest)
    1 (size (a0 :: rest))
    (λ i acc,
       a0 ← load acc 0;
       ai ← load acc i;
       store acc 0 (Accumulate a0 ai)) (a0 :: rest)) as (acc & -> & ->).
  - unfold size. simpl. lia.
  - reflexivity.
  - intros i acc Hi ->. unfold size in Hi. simpl in Hi.
    destruct (lookup_lt_is_Some_2 rest (Z.to_nat (i - 1))) as [ai La]; [lia|].
    assert (load (fold_left Accumulate (take (Z.to_nat (i - 1)) rest) a0 :: rest) i
            = Returns ai) as Hi'.
    { apply load_Returns. split; [lia|].
      replace (Z.to_nat i) with (S (Z.to_nat (i - 1))) by lia. exact La. }
    simpl. rewrite Hi'. simpl.
    eexists. split; [reflexivity|].
    replace (Z.to_nat (i + 1 - 1)) with (S (Z.to_nat (i - 1))) by lia.
    rewrite (take_S_r _ _ _ La), fold_left_app. reflexivity.
  - unfold size. cbn [length].
    replace (Z.to_nat (Z.of_nat (S (length rest)) - 1)) with (length rest) by lia.
    rewrite firstn_all. reflexivity.
Qed.

End VectorsOfVectors.

(** X16.  doDot over a std::vector of vectors, when the two vectors
    have as many components and the reduction of every pair of components
    returns its accumulator: the accumulators are merged into the first
    one in the order of the components, and the rounded result is
    returned. *)
Theorem std_doDot_merges_in_order (DG_DEBUG : bool)
    (Vector Matrix Superaccumulator value_type : Type)
    (default : Superaccumulator)
    (Accumulate : Superaccumulator → Superaccumulator → Superaccumulator)
    (Round : Superaccumulator → value_type)
    (doDot_dispatch : Vector → Matrix → Vector → outcome Superaccumulator)
    (x y : list Vector) (m : Matrix)
    (a0 : Superaccumulator) (rest : list Superaccumulator) :
  length x = length y →
  mapM (λ p, doDot_dispatch p.1 m p.2) (zip x y) = Returns (a0 :: rest) →
  StdVector.doDot DG_DEBUG Vector Matrix Superaccumulator value_type default
    Accumulate Round doDot_dispatch x m y
  = Returns (Round (fold_left Accumulate rest a0)).
Proof.
  intros Hlen Hall%mapM_Returns. unfold StdVector.doDot.
  rewrite assert_passes by (intros _; unfold size; lia).
  rewrite bind_Returns.
  rewrite (doDot_accumulators _ _ _ default doDot_dispatch x y m (a0 :: rest))
    by assumption.
  rewrite bind_Returns, (doDot_merge _ Accumulate (size x) a0 rest).
  - reflexivity.
  - apply Forall2_length in Hall. rewrite length_zip in Hall.
    unfold size. lia.
Qed.

Lemma std_doDot_merges_in_order_witness :
  (length [[1; 2]; [3]] = length [[4; 5]; [6]] ∧
   mapM (λ p, weighted_sum p.1 2 p.2) (zip [[1; 2]; [3]] [[4; 5]; [6]])
   = Returns [28; 36]) ∧
  StdVector.doDot true (list Z) Z Z Z 0 Z.add (λ a, a) weighted_sum
    [[1; 2]; [3]] 2 [[4; 5]; [6]]
  = Returns ((λ a, a) (fold_left Z.add [36] 28)).
Proof.
  split; [split; reflexivity|].
  apply (std_doDot_merges_in_order true (list Z) Z Z Z 0 Z.add (λ a, a)
           weighted_sum [[1; 2]; [3]] [[4; 5]; [6]] 2 28 [36]);
    reflexivity.
Defined.

Section ComponentLoops.
Variables Vector Matrix value_type : Type.

(** The loop of doSymv( alpha, m, x, beta, y) from component [k] on. *)
Lemma doSymv_scaled_from
    (call : Vector → Vector → outcome Vector)
    (xs : list Vector) :
  ∀ (k : Z) (xdone ydone ys : list Vector),
    k = size xdone → length ydone = length xdone →
    (length xs ≤ length ys)%nat →
    foldM (λ i y,
             xi ← load (xdone ++ xs) i;
             yi ← load y i;
             zi ← call xi yi;
             store y i zi) (range k (k + size xs)) (ydone ++ ys)
    = (zs ← mapM (λ p, call p.1 p.2) (zip xs ys);
       mret (ydone ++ zs ++ drop (length xs) ys)).
Proof.
  induction xs as [|xi xs IH]; intros k xdone ydone ys Hk Hdone Hlen.
  - rewrite range_nil by (unfold size; simpl; lia). reflexivity.
  - destruct ys as [|yi ys]; [simpl in Hlen; lia|].
    rewrite range_cons by (unfold size; simpl; lia). cbn [foldM zip zip_with mapM].
    assert (load (xdone ++ xi :: xs) k = Returns xi) as ->.
    { apply load_Returns. subst k. unfold size. split; [lia|].
      rewrite Nat2Z.id. apply list_lookup_middle. reflexivity. }
    assert (load (ydone ++ yi :: ys) k = Returns yi) as ->.
    { apply load_Returns. subst k. unfold size. split; [lia|].
      rewrite Nat2Z.id. apply list_lookup_middle. symmetry. exact Hdone. }
    rewrite !bind_Returns. cbn [fst snd].
    destruct (call xi yi) as [zi| |]; [|reflexivity..].
    rewrite !bind_Returns.
    rewrite store_in_range
      by (subst k; unfold size; rewrite length_app; simpl; lia).
    rewrite bind_Returns.
    replace (<[Z.to_nat k := zi]> (ydone ++ yi :: ys))
      with ((ydone ++ [zi]) ++ ys).
    2:{ subst k. unfold size. rewrite Nat2Z.id, <- Hdone.
        rewrite insert_app_r_alt, Nat.sub_diag by lia.
        rewrite <- app_assoc. reflexivity. }
    replace (xdone ++ xi :: xs) with ((xdone ++ [xi]) ++ xs)
      by (rewrite <- app_assoc; reflexivity).
    replace (k + size (xi :: xs)) with ((k + 1) + size xs)
      by (unfold size; simpl; lia).
    rewrite (IH (k + 1) (xdone ++ [xi]) (ydone ++ [zi]) ys).
    + destruct (mapM _ (zip xs ys)) as [zs| |]; [|reflexivity..].
      simpl. rewrite <- app_assoc. reflexivity.
    + subst k. unfold size. rewrite length_app. simpl. lia.
    + rewrite !length_app. simpl. lia.
    + simpl in Hlen. lia.
Qed.

(** The loop of doSymv( m, x, y) from component [k] on. *)
Lemma doSymv_from
    (call : Matrix → Vector → Vector → outcome (Matrix * Vector))
    (xs : list Vector) :
  ∀ (k : Z) (m : Matrix) (xdone ydone ys : list Vector),
    k = size xdone → length ydone = length xdone →
    (length xs ≤ length ys)%nat →
    foldM (λ i '(m, y),
             xi ← load (xdone ++ xs) i;
             yi ← load y i;
             '(m, yi) ← call m xi yi;
             y ← store y i yi;
             mret (m, y)) (range k (k + size xs)) (m, ydone ++ ys)
    = ('(m, zs) ← componentwise call m (zip xs ys);
       mret (m, ydone ++ zs ++ drop (length xs) ys)).
Proof.
  induction xs as [|xi xs IH]; intros k m xdone ydone ys Hk Hdone Hlen.
  - rewrite range_nil by (unfold size; simpl; lia). reflexivity.
  - destruct ys as [|yi ys]; [simpl in Hlen; lia|].
    rewrite range_cons by (unfold size; simpl; lia).
    cbn [foldM zip zip_with componentwise].
    assert (load (xdone ++ xi :: xs) k = Returns xi) as ->.
    { apply load_Returns. subst k. unfold size. split; [lia|].
      rewrite Nat2Z.id. apply list_lookup_middle. reflexivity. }
    assert (load (ydone ++ yi :: ys) k = Returns yi) as ->.
    { apply load_Returns. subst k. unfold size. split; [lia|].
      rewrite Nat2Z.id. apply list_lookup_middle. symmetry. exact Hdone. }
    rewrite !bind_Returns.
    destruct (call m xi yi) as [[m1 zi]| |]; [|reflexivity..].
    rewrite !bind_Returns.
    rewrite store_in_range
      by (subst k; unfold size; rewrite length_app; simpl; lia).
    rewrite !bind_Returns.
    replace (<[Z.to_nat k := zi]> (ydone ++ yi :: ys))
      with ((ydone ++ [zi]) ++ ys).
    2:{ subst k. unfold size. rewrite Nat2Z.id, <- Hdone.
        rewrite insert_app_r_alt, Nat.sub_diag by lia.
        rewrite <- app_assoc. reflexivity. }
    replace (xdone ++ xi :: xs) with ((xdone ++ [xi]) ++ xs)
      by (rewrite <- app_assoc; reflexivity).
    replace (k + size (xi :: xs)) with ((k + 1) + size xs)
      by (unfold size; simpl; lia).
    rewrite (IH (k + 1) m1 (xdone ++ [xi]) (ydone ++ [zi]) ys).
    + destruct (componentwise call m1 (zip xs ys)) as [[m2 zs]| |];
        [|reflexivity..].
      simpl. rewrite <- app_assoc. reflexivity.
    + subst k. unfold size. rewrite length_app. simpl. lia.
    + rewrite !length_app. simpl. lia.
    + simpl in Hlen. lia.
Qed.

End ComponentLoops.

(** X17.  doSymv( alpha, m, x, beta, y) over a std::vector of vectors
    with at least as many components in [y] as in [x] (as many, in a debug
    build): the call is the call on the pairs of components, from the
    first to the last.  It fails with the first component that fails, and
    leaves the components of [y] beyond those of [x]. *)
Theorem std_doSymv_scaled_componentwise (DG_DEBUG : bool)
    (Vector Matrix value_type : Type)
    (doSymv_scaled_component
       : value_type → Matrix → Vector → value_type → Vector → outcome Vector)
    (alpha : value_type) (m : Matrix) (x : list Vector) (beta : value_type)
    (y : list Vector) :
  (length x ≤ length y)%nat →
  (DG_DEBUG = true → length x = length y) →
  StdSymv.doSymv_scaled DG_DEBUG Vector Matrix value_type
    doSymv_scaled_component alpha m x beta y
  = (zs ← mapM (λ p, doSymv_scaled_component alpha m p.1 beta p.2) (zip x y);
     mret (zs ++ drop (length x) y)).
Proof.
  intros Hle Hdbg. unfold StdSymv.doSymv_scaled.
  rewrite assert_passes
    by (intros Hd; specialize (Hdbg Hd); unfold size; lia).
  rewrite bind_Returns. unfold for_loop.
  apply (doSymv_scaled_from Vector
           (λ xi yi, doSymv_scaled_component alpha m xi beta yi)
           x 0 [] [] y); auto.
Qed.

Lemma std_doSymv_scaled_componentwise_witness :
  ((length [[1; 2]; [3]] ≤ length [[4; 5]; [6]; [7]])%nat ∧
   (false = true → length [[1; 2]; [3]] = length [[4; 5]; [6]; [7]])) ∧
  StdSymv.doSymv_scaled false (list Z) Z Z scale_add 2 3 [[1; 2]; [3]] 1
    [[4; 5]; [6]; [7]]
  = (zs ← mapM (λ p, scale_add 2 3 p.1 1 p.2)
             (zip [[1; 2]; [3]] [[4; 5]; [6]; [7]]);
     mret (zs ++ drop (length [[1; 2]; [3]]) [[4; 5]; [6]; [7]])) ∧
  StdSymv.doSymv_scaled false (list Z) Z Z scale_add 2 3 [[1; 2]; [3]] 1
    [[4; 5]; [6]; [7]]
  = Returns [[10; 17]; [24]; [7]].
Proof.
  split; [split; [simpl; lia | discriminate]|].
  split; [|reflexivity].
  apply (std_doSymv_scaled_componentwise false (list Z) Z Z scale_add 2 3
           [[1; 2]; [3]] 1 [[4; 5]; [6]; [7]]).
  - simpl. lia.
  - discriminate.
Defined.

(** X18.  doSymv( m, x, y) over a std::vector of vectors with at least
    as many components in [y] as in [x] (as many, in a debug build): the
    call is the call on the pairs of components, from the first to the
    last, each with the matrix as the call before left it.  It fails with
    the first component that fails, and leaves the components of [y]
    beyond those of [x]. *)
Theorem std_doSymv_componentwise (DG_DEBUG : bool)
    (Vector Matrix : Type)
    (doSymv_component : Matrix → Vector → Vector → outcome (Matrix * Vector))
    (m : Matrix) (x y : list Vector) :
  (length x ≤ length y)%nat →
  (DG_DEBUG = true → length x = length y) →
  StdSymv.doSymv DG_DEBUG Vector Matrix doSymv_component m x y
  = ('(m, zs) ← componentwise doSymv_component m (zip x y);
     mret (m, zs ++ drop (length x) y)).
Proof.
  intros Hle Hdbg. unfold StdSymv.doSymv.
  rewrite assert_passes
    by (intros Hd; specialize (Hdbg Hd); unfold size; lia).
  rewrite bind_Returns. unfold for_loop.
  apply (doSymv_from Vector Matrix doSymv_component x 0 m [] [] y); auto.
Qed.

Lemma std_doSymv_componentwise_witness :
  ((length [[1; 2]; [3]] ≤ length [[4; 5]; [6]])%nat ∧
   (true = true → length [[1; 2]; [3]] = length [[4; 5]; [6]])) ∧
  StdSymv.doSymv true (list Z) Z scale_count 2 [[1; 2]; [3]] [[4; 5]; [6]]
  = ('(m, zs) ← componentwise scale_count 2 (zip [[1; 2]; [3]] [[4; 5]; [6]]);
     mret (m, zs ++ drop (length [[1; 2]; [3]]) [[4; 5]; [6]])) ∧
  StdSymv.doSymv true (list Z) Z scale_count 2 [[1; 2]; [3]] [[4; 5]; [6]]
  = Returns (4, [[2; 4]; [9]]).
Proof.
  split; [split; [simpl; lia | reflexivity]|].
  split; [|reflexivity].
  apply (std_doSymv_componentwise true (list Z) Z scale_count 2
           [[1; 2]; [3]] [[4; 5]; [6]]).
  - simpl. lia.
  - reflexivity.
Defined.

(** ** Counters that wrap around *)

Section Wrapping.
Context {R : Type} `{Scalar R}.

Lemma store_in_nothing (p : Z) (a : R) : store [] p a = Undefined.
Proof.
  unfold store, size. cbn [length]. change (Z.of_nat 0) with 0.
  replace ((0 <=? p) && (p <? 0)) with false by lia. reflexivity.
Qed.

Lemma clear_step_in_nothing rows m f :
  clear_step (R := R) rows m f [] = Undefined.
Proof.
  unfold clear_step. destruct (load_cases rows m) as [->|[r ->]];
    [reflexivity|]. apply store_in_nothing.
Qed.

(** The first step of a loop is undefined on the empty vector. *)
Lemma first_step_in_nothing lo hi (body : Z → list R → outcome (list R)) :
  lo < hi → body lo [] = Undefined → for_loop lo hi body [] = Undefined.
Proof.
  intros Hlt Hbody. rewrite <- Hbody. unfold for_loop.
  rewrite range_cons by exact Hlt. simpl. rewrite Hbody. reflexivity.
Qed.

End Wrapping.

(** X19.  The loops over the rows of applyX run to rows - 1 and the
    loops over the columns of applyY to cols - 1, in unsigned arithmetic:
    on a vector without rows (without columns, for applyY) the bound wraps
    around to 2^32 - 1 and a table that is not empty makes the first pass
    write into a vector that holds nothing.  The call is undefined. *)
Theorem boundary_rows_need_cells {R : Type} `{Scalar R} (b : BoundaryTerms R)
    (x y : MPI_Vector R) :
  data_ b ≠ [] → 1 ≤ Nz x → 1 ≤ n x → data y = [] →
  (Ny x = 0 → applyX b x y = Undefined) ∧
  (Nx x = 0 → applyY b x y = Undefined).
Proof.
  intros Hne HNz Hn Hy.
  assert (is_empty (data_ b) = false) as Hb
    by (destruct (data_ b); [contradiction | reflexivity]).
  assert (0 < size (data_ b)) as Hsz
    by (unfold size; destruct (data_ b); [contradiction | simpl; lia]).
  split.
  - intros HNy. unfold applyX. rewrite Hb, Hy, HNy.
    rewrite first_step_in_nothing; [reflexivity | lia |].
    rewrite first_step_in_nothing; [reflexivity | lia |].
    rewrite first_step_in_nothing; [reflexivity | vm_compute; reflexivity |].
    rewrite first_step_in_nothing; [reflexivity | lia |].
    rewrite first_step_in_nothing; [reflexivity | lia |].
    rewrite first_step_in_nothing; [reflexivity | lia |].
    apply (clear_step_in_nothing (row_ b) 0
             (λ r, u32 (point 0 (Nx x) (n x) 0 1 0 (r + 1) 0))).
  - intros HNx. unfold applyY. rewrite Hb, Hy, HNx.
    rewrite first_step_in_nothing; [reflexivity | lia |].
    rewrite first_step_in_nothing; [reflexivity | lia |].
    rewrite first_step_in_nothing; [reflexivity | lia |].
    rewrite first_step_in_nothing; [reflexivity | vm_compute; reflexivity |].
    rewrite first_step_in_nothing; [reflexivity | lia |].
    rewrite first_step_in_nothing; [reflexivity | lia |].
    apply (clear_step_in_nothing (row_ b) 0
             (λ r, u32 (point (Ny x) 0 (n x) 0 (r + 1) 0 1 0))).
Qed.

Lemma boundary_rows_need_cells_witness :
  (data_ example_yterm ≠ [] ∧ 1 ≤ Nz no_rows ∧ 1 ≤ n no_rows ∧
   data no_rows = []) ∧
  (Ny no_rows = 0 → applyX example_yterm no_rows no_rows = Undefined) ∧
  (Nx no_rows = 0 → applyY example_yterm no_rows no_rows = Undefined).
Proof.
  split; [repeat split; discriminate|].
  apply (boundary_rows_need_cells example_yterm no_rows no_rows).
  - discriminate.
  - discriminate.
  - discriminate.
  - reflexivity.
Defined.

(** X20.  doDot_superacc on vectors of vectors with one component each
    is the reduction of that component: its accumulator is returned as
    the component left it, without a call of Normalize, and a failure of
    the component is the failure of the call. *)
Theorem doDot_superacc_of_one_component (DG_DEBUG : bool)
    (Vector Vector2 : Type)
    (doDot_superacc_inner : Vector → Vector2 → outcome (list Z))
    (IMIN IMAX : Z) (Normalize : list Z → Z → Z → list Z)
    (a : Vector) (b : Vector2) :
  Blas1.doDot_superacc DG_DEBUG Vector Vector2 doDot_superacc_inner
    IMIN IMAX Normalize [a] [b]
  = doDot_superacc_inner a b.
Proof.
  unfold Blas1.doDot_superacc.
  rewrite !assert_passes by reflexivity. rewrite !bind_Returns.
  unfold for_loop. simpl.
  destruct (doDot_superacc_inner a b); reflexivity.
Qed.

(** X21.  symv changes its argument [x] by the exchanges and by
    nothing else: in a matrix with as many blocks in dataY as in dataX, a
    call that returns leaves in [x] the vector after the exchange of the
    ghost columns, when some block of dataX is not empty, followed by the
    exchange of the ghost rows, when some block of dataY is not empty. *)
Theorem symv_changes_x_by_exchange {R : Type} `{Scalar R} (DG_DEBUG : bool)
    (x_col x_row : MPI_Comm → MPI_Vector R → MPI_Vector R)
    (M : MPI_Matrix R) (x y : MPI_Vector R) (ev : list event)
    (x' y' : MPI_Vector R) :
  length (dataX_ M) = length (dataY_ M) →
  symv DG_DEBUG x_col x_row M x y = Comp ev (Returns (x', y')) →
  x' = (if existsb nonempty (dataY_ M) then x_row (comm_ M) else id)
         ((if existsb nonempty (dataX_ M) then x_col (comm_ M) else id) x).
Proof.
  intros Hlen Hrun. unfold symv in Hrun.
  destruct (symv_unweighted DG_DEBUG x_col x_row M x y)
    as [ev0 [[x0 y0]| |]] eqn:Hun;
    apply (f_equal result) in Hrun; cbn in Hrun; try discriminate Hrun.
  destruct (symv_precond DG_DEBUG M y0); cbn in Hrun; try discriminate Hrun.
  injection Hrun as <- _.
  destruct (symv_unweighted_steps DG_DEBUG x_col x_row M x y ev0 x0 y0 Hun)
    as (u & _ & _ & Hu & Hx & _).
  rewrite (symv_update_flags M Hlen) in Hu. injection Hu as <-.
  unfold symv_exchange in Hx.
  destruct (existsb nonempty (dataX_ M)), (existsb nonempty (dataY_ M));
    cbn in Hx; injection Hx as <-; reflexivity.
Qed.

Lemma symv_changes_x_by_exchange_witness :
  (length (dataX_ example_matrix) = length (dataY_ example_matrix) ∧
   symv true raised_by_ten no_neighbours example_matrix example_x example_y
   = Comp [Comm_rank cart; Exchange_col cart]
       (Returns (cells3 [11; 12; 13; 14; 15; 16; 17; 18; 19],
                 cells3 [0; 0; 0; 150; 90; 0; 0; 0; 0]))) ∧
  cells3 [11; 12; 13; 14; 15; 16; 17; 18; 19]
  = (if existsb nonempty (dataY_ example_matrix)
     then no_neighbours (comm_ example_matrix) else id)
      ((if existsb nonempty (dataX_ example_matrix)
        then raised_by_ten (comm_ example_matrix) else id) example_x).
Proof.
  split; [split; reflexivity|].
  apply (symv_changes_x_by_exchange true raised_by_ten no_neighbours
           example_matrix example_x example_y
           [Comm_rank cart; Exchange_col cart]
           (cells3 [11; 12; 13; 14; 15; 16; 17; 18; 19])
           (cells3 [0; 0; 0; 150; 90; 0; 0; 0; 0])).
  - reflexivity.
  - reflexivity.
Defined.
